(** * Path planning around static threats: visibility graph, roadmap
      sampling and the budget-layered graph

    A shallow embedding of [algorithmics/solution_stage1.py],
    [solution_stage2.py], [solution_stage3.py],
    [algorithmics/enemy/radar.py] and of the path checks and the
    submissions file of [submission/submission_app.py].

    Conventions.
    - A Python [float] is read as the rational number it denotes and the
      arithmetic on it is exact ([Q]).  With the default quantum [0.5]
      the layer arithmetic of stage 3 is exact in binary64 as well.
    - A value used as a dictionary key (a [Coordinate], the decimal form
      of a layer inside a layered key) is kept in canonical form ([Qc]),
      so that key equality is equality of values.
    - [networkx] graphs are insertion-ordered: a list of nodes and an
      association list of edges with their attributes.
    - Exceptions are values of [outcome]; a loop that may run forever
      carries fuel and [OutOfFuel] stands for "still running". *)

From Stdlib Require Import List ListDec Sorted Bool Arith ZArith.
From Stdlib Require Import QArith Qabs Qround Qcanon.
From Stdlib Require Import Lia Lqa.
From Stdlib Require Import Permutation.
From Stdlib Require String.
Import ListNotations.
Import String.StringSyntax.
Delimit Scope string_scope with string.

Set Implicit Arguments.

#[local] Open Scope Q_scope.

(* ------------------------------------------------------------------ *)
(** * Python numbers *)

Module PyFloat.

(** [a // b] on floats: the floor of the quotient, as a float. *)
Definition floordiv (a b : Q) : Q := inject_Z (Qfloor (a / b)).

(** [a % b] on floats, for the sign convention of Python. *)
Definition mod_ (a b : Q) : Q := a - b * floordiv a b.

(** [int(x)]: truncation towards zero. *)
Definition int (a : Q) : Z :=
  if Qle_bool 0 a then Qfloor a else Qceiling a.

(** [range(n)] *)
Definition range (n : Z) : list nat := seq 0 (Z.to_nat n).

Definition of_nat (i : nat) : Q := inject_Z (Z.of_nat i).

(** [math.pi], the binary64 number. *)
Definition pi : Q := 884279719003555 # 281474976710656.

(** [math.radians] *)
Definition radians (deg : Q) : Q := deg * pi / 180.

End PyFloat.

(* ------------------------------------------------------------------ *)
(** * Outcomes of a call *)

Inductive exn : Set :=
| IndexError
| ZeroDivisionError
| NetworkXNoPath
| NodeNotFound.

Inductive outcome (A : Type) : Type :=
| Return (a : A)
| Raise (e : exn)
| OutOfFuel.

Arguments Return {A} a.
Arguments Raise {A} e.
Arguments OutOfFuel {A}.

Definition bind {A B : Type} (m : outcome A) (k : A -> outcome B) : outcome B :=
match m with
| Return a => k a
| Raise e => Raise e
| OutOfFuel => OutOfFuel
end.

Notation "x <- m ;; k" := (bind m (fun x => k))
(at level 61, m at next level, right associativity).
Notation "' pat <- m ;; k" := (bind m (fun x => match x with pat => k end))
(at level 61, pat pattern, m at next level, right associativity).

(* ------------------------------------------------------------------ *)
(** * Keys *)

(** Value equality of keys ([__eq__]). *)
Class EqDec (A : Type) : Type := {
  eqb : A -> A -> bool;
  eqb_eq : forall a b, eqb a b = true <-> a = b
}.

Lemma Qc_eqb_eq (a b : Qc) : Qeq_bool a b = true <-> a = b.
Proof.
  split.
  - intros E. apply Qc_is_canon. now apply Qeq_bool_eq.
  - intros ->. apply Qeq_bool_refl.
Qed.

#[export] Instance Qc_EqDec : EqDec Qc :=
  {| eqb := fun a b : Qc => Qeq_bool a b; eqb_eq := Qc_eqb_eq |}.

Lemma pair_eqb_eq {A B} `{EqDec A} `{EqDec B} (p q : A * B) :
  eqb (fst p) (fst q) && eqb (snd p) (snd q) = true <-> p = q.
Proof.
  destruct p as [a b], q as [a' b']. simpl.
  rewrite andb_true_iff, !eqb_eq. split.
  - intros [-> ->]. reflexivity.
  - intros [= -> ->]. now split.
Qed.

#[export] Instance pair_EqDec {A B} `{EqDec A} `{EqDec B} : EqDec (A * B) :=
  {| eqb := fun p q => eqb (fst p) (fst q) && eqb (snd p) (snd q);
     eqb_eq := pair_eqb_eq |}.

(** [str] keys *)
#[export] Instance string_EqDec : EqDec String.string :=
  {| eqb := String.eqb; eqb_eq := String.eqb_eq |}.

(* ------------------------------------------------------------------ *)
(** * networkx graphs *)

Section Graph.

Context {N : Type} `{EqDec N} {A : Type}.

(** [nx.DiGraph]: nodes in insertion order, one attribute value per
    directed edge. *)
Record DiGraph : Type := mkGraph {
  nodes : list N;
  edges : list ((N * N) * A)
}.

Definition empty_graph : DiGraph := mkGraph [] [].

Definition has_node (g : DiGraph) (n : N) : bool :=
  existsb (eqb n) (nodes g).

Definition add_node (g : DiGraph) (n : N) : DiGraph :=
  if has_node g n then g else mkGraph (nodes g ++ [n]) (edges g).

Definition add_nodes_from (g : DiGraph) (ns : list N) : DiGraph :=
  fold_left add_node ns g.

Fixpoint set_edge (es : list ((N * N) * A)) (k : N * N) (a : A)
  : list ((N * N) * A) :=
  match es with
  | [] => [(k, a)]
  | (k', a') :: rest =>
      if eqb k k' then (k, a) :: rest else (k', a') :: set_edge rest k a
  end.

Fixpoint find_edge (es : list ((N * N) * A)) (k : N * N) : option A :=
  match es with
  | [] => None
  | (k', a') :: rest => if eqb k k' then Some a' else find_edge rest k
  end.

(** [graph.add_edge(u, v, **attr)]: both end points become nodes, the
    attributes of an existing edge are replaced. *)
Definition add_edge (g : DiGraph) (u v : N) (a : A) : DiGraph :=
  let g' := add_node (add_node g u) v in
  mkGraph (nodes g') (set_edge (edges g') (u, v) a).

Definition get_edge (g : DiGraph) (u v : N) : option A :=
  find_edge (edges g) (u, v).

(** [nx.Graph.add_edge]: the undirected edge is stored in both
    adjacency rows. *)
Definition add_undirected_edge (g : DiGraph) (u v : N) (a : A) : DiGraph :=
  add_edge (add_edge g u v a) v u a.

(** ** Walks *)

Inductive Walk (g : DiGraph) : N -> N -> list N -> Prop :=
| Walk_one : forall s, Walk g s s [s]
| Walk_step : forall s v t a p,
    get_edge g s v = Some a -> Walk g v t p -> Walk g s t (s :: p).

Variable dist : A -> Q.

Definition edge_weight (g : DiGraph) (u v : N) : Q :=
  match get_edge g u v with
  | Some a => dist a
  | None => 0
  end.

Fixpoint walk_weight (g : DiGraph) (p : list N) : Q :=
  match p with
  | u :: ((v :: _) as rest) => edge_weight g u v + walk_weight g rest
  | _ => 0
  end.

Definition nonneg_weights (g : DiGraph) : Prop :=
  forall k a, In (k, a) (edges g) -> 0 <= dist a.

End Graph.

Arguments DiGraph N A : clear implicits.

(* ------------------------------------------------------------------ *)
(** * nx.shortest_path *)

(** [nx.shortest_path(G, source, target, weight=...)] is library code.
    It is used through its contract: any correct shortest-path
    algorithm for non-negative weights. *)
Class ShortestPath : Type :=
  shortest_path :
    forall (N : Type) (E : EqDec N) (A : Type),
      (A -> Q) -> DiGraph N A -> N -> N -> outcome (list N).

Arguments shortest_path {ShortestPath N E A} dist g source target.

Class ShortestPathLaws (SP : ShortestPath) : Prop := {
  sp_node_not_found :
    forall N (E : EqDec N) A (w : A -> Q) (g : DiGraph N A) s t,
      ~ (In s (nodes g) /\ In t (nodes g)) ->
      shortest_path w g s t = Raise NodeNotFound;
  sp_same_node :
    forall N (E : EqDec N) A (w : A -> Q) (g : DiGraph N A) s,
      In s (nodes g) -> shortest_path w g s s = Return [s];
  sp_no_path :
    forall N (E : EqDec N) A (w : A -> Q) (g : DiGraph N A) s t,
      In s (nodes g) -> In t (nodes g) ->
      (forall p, ~ Walk g s t p) ->
      shortest_path w g s t = Raise NetworkXNoPath;
  sp_found :
    forall N (E : EqDec N) A (w : A -> Q) (g : DiGraph N A) s t q,
      In s (nodes g) -> In t (nodes g) ->
      Walk g s t q -> exists p, shortest_path w g s t = Return p;
  sp_walk :
    forall N (E : EqDec N) A (w : A -> Q) (g : DiGraph N A) s t p,
      shortest_path w g s t = Return p -> Walk g s t p;
  sp_shortest :
    forall N (E : EqDec N) A (w : A -> Q) (g : DiGraph N A) s t p q,
      nonneg_weights w g ->
      shortest_path w g s t = Return p ->
      Walk g s t q ->
      walk_weight w g p <= walk_weight w g q
}.

(** ** A reference solver

    Bellman-Ford relaxation with the path kept next to each distance.
    It runs the planner on concrete scenarios and shows that the
    contract above can be met. *)

Definition Qlt_bool (a b : Q) : bool := negb (Qle_bool b a).

Fixpoint lookup {K V : Type} `{EqDec K} (table : list (K * V)) (k : K)
  : option V :=
  match table with
  | [] => None
  | (k', v) :: rest => if eqb k k' then Some v else lookup rest k
  end.

Fixpoint update {K V : Type} `{EqDec K} (table : list (K * V)) (k : K) (v : V)
  : list (K * V) :=
  match table with
  | [] => [(k, v)]
  | (k', v') :: rest =>
      if eqb k k' then (k, v) :: rest else (k', v') :: update rest k v
  end.

(** The list without its repeated items. *)
Fixpoint distinct {K : Type} `{EqDec K} (l : list K) : list K :=
  match l with
  | [] => []
  | a :: rest => if existsb (eqb a) rest then distinct rest
                 else a :: distinct rest
  end.

Section BellmanFord.

Context {N : Type} {E : EqDec N} {A : Type}.
Variable dist : A -> Q.
Variable g : DiGraph N A.

(** For a reached node: the length of the best walk found so far and
    that walk. *)
Definition Table : Type := list (N * (Q * list N)).

Definition relax (table : Table) (e : (N * N) * A) : Table :=
  let '(u, v) := fst e in
  match lookup table u with
  | None => table
  | Some (du, pu) =>
      let d := du + edge_weight dist g u v in
      match lookup table v with
      | Some (dv, _) =>
          if Qlt_bool d dv then update table v (d, pu ++ [v]) else table
      | None => update table v (d, pu ++ [v])
      end
  end.

Definition relax_all (table : Table) : Table :=
  fold_left relax (edges g) table.

Fixpoint rounds (n : nat) (table : Table) : Table :=
  match n with
  | O => table
  | S n' => relax_all (rounds n' table)
  end.

(** A walk without a repeated node has at most this many edges. *)
Definition enough_rounds : nat :=
  length (distinct (map (fun e => snd (fst e)) (edges g))).

Definition bellman_ford (source target : N) : outcome (list N) :=
  if has_node g source && has_node g target then
    if eqb source target then Return [source]
    else match lookup (rounds enough_rounds [(source, (0, [source]))]) target with
         | Some (_, path) => Return path
         | None => Raise NetworkXNoPath
         end
  else Raise NodeNotFound.

End BellmanFord.

Definition reference_solver : ShortestPath :=
  fun N E A dist g source target => bellman_ford dist g source target.

(* ------------------------------------------------------------------ *)
(** * Coordinates and shapes *)

(** Modelled from the spec: [Coordinate]
    ([algorithmics/utils/coordinate.py] is not among the sources): a
    point (x, y) with value equality, usable as a graph-node key, with a
    canonical string form that [from_str] reads back. *)
Record Coordinate : Set := mkCoordinate { x : Qc; y : Qc }.

Lemma Coordinate_eqb_eq (a b : Coordinate) :
  eqb (x a) (x b) && eqb (y a) (y b) = true <-> a = b.
Proof.
  destruct a as [a1 a2], b as [b1 b2]. simpl.
  rewrite andb_true_iff, !Qc_eqb_eq. split.
  - intros [-> ->]. reflexivity.
  - intros [= -> ->]. now split.
Qed.

#[export] Instance Coordinate_EqDec : EqDec Coordinate :=
  {| eqb := fun a b => eqb (x a) (x b) && eqb (y a) (y b);
     eqb_eq := Coordinate_eqb_eq |}.

(** [Coordinate(x, y)] on two floats. *)
Definition coordinate (a b : Q) : Coordinate := mkCoordinate (Q2Qc a) (Q2Qc b).

(** What the planner takes from [Coordinate], [math] and [shapely].
    A shapely [Point] is identified with the [Coordinate] it is built
    from, a [LineString] of two points with its two end points. *)
Class Geometry : Type := {
  (** [Coordinate.distance_to], [Coordinate.direction_to] *)
  distance_to : Coordinate -> Coordinate -> Q;
  direction_to : Coordinate -> Coordinate -> Q;
  (** [math.sin], [math.cos] *)
  math_sin : Q -> Q;
  math_cos : Q -> Q;
  (** [shapely.geometry.Polygon] *)
  Polygon : Type;
  polygon : list Coordinate -> Polygon;
  point_buffer : Coordinate -> Q -> Polygon;
  buffer : Polygon -> Q -> Polygon;
  intersects : Polygon -> Coordinate -> Coordinate -> bool;
  (** [LineString(...).intersection(polygon)]: [None] when the result
      has [length == 0], its [coords[0]] and [coords[1]] otherwise. *)
  intersection : Coordinate -> Coordinate -> Polygon ->
                 option (Coordinate * Coordinate);
  bounds : Polygon -> Q * Q * Q * Q;
  contains : Polygon -> Coordinate -> bool
}.

Class GeometryLaws (G : Geometry) : Prop := {
  distance_nonneg : forall a b, 0 <= distance_to a b;
  distance_self : forall a, distance_to a a == 0;
  distance_pos : forall a b, a <> b -> 0 < distance_to a b;
  distance_sym : forall a b, distance_to a b == distance_to b a;
  (** a leg and its reverse are the same point set *)
  intersects_sym : forall P a b, intersects P a b = intersects P b a
}.

(* ------------------------------------------------------------------ *)
(** * Enemies *)

(** The subclasses of [Enemy]. *)
Inductive Enemy : Type :=
| AsteroidsZone (boundary : list Coordinate)
| ObservationPost (center : Coordinate) (radius : Q)
| Radar (center : Coordinate) (radius : Q).

Definition is_Radar (enemy : Enemy) : bool :=
  match enemy with Radar _ _ => true | _ => false end.

Definition epsilon : Q := 1 # 1000000.

(** [ObservationPost.approximate_boundary], [Radar.approximate_boundary] *)
Definition approximate_boundary `{Geometry} (center : Coordinate) (radius : Q) (n : nat)
  : list Coordinate :=
  let angle_step := PyFloat.radians (360 / PyFloat.of_nat n) in
  let buffed_radius := radius / math_cos (angle_step / 2) in
  map (fun i =>
         coordinate (x center + buffed_radius * math_sin (PyFloat.of_nat i * angle_step))
                    (y center + buffed_radius * math_cos (PyFloat.of_nat i * angle_step)))
      (PyFloat.range (Z.of_nat n)).

Module AsteroidsZone_.
Definition _polygon `{Geometry} (boundary : list Coordinate) : Polygon :=
  buffer (polygon boundary) (- epsilon).
Definition is_legal_leg `{Geometry} (boundary : list Coordinate) (start end_ : Coordinate)
  : bool :=
  negb (intersects (_polygon boundary) start end_).
End AsteroidsZone_.

Module ObservationPost_.
Definition _circle `{Geometry} (center : Coordinate) (radius : Q) : Polygon :=
  point_buffer center (radius - epsilon).
Definition is_legal_leg `{Geometry} (center : Coordinate) (radius : Q)
  (start end_ : Coordinate) : bool :=
  negb (intersects (_circle center radius) start end_).
End ObservationPost_.

Module Radar_.
Definition circle `{Geometry} (center : Coordinate) (radius : Q) : Polygon :=
  point_buffer center radius.

Definition _compute_direction_diff (direction1 direction2 : Q) : Q :=
  let angle_diff := PyFloat.mod_ (direction1 - direction2) (2 * PyFloat.pi) in
  if Qle_bool angle_diff (PyFloat.pi / 2) then angle_diff
  else if Qle_bool angle_diff PyFloat.pi then PyFloat.pi - angle_diff
  else if Qle_bool angle_diff (3 * PyFloat.pi / 2) then angle_diff - PyFloat.pi
  else 2 * PyFloat.pi - angle_diff.

(** The [for p in [start, end]] loop with its early [return False]. *)
Fixpoint undetected_at `{Geometry} (center : Coordinate) (movement_direction : Q)
  (ps : list Coordinate) : bool :=
  match ps with
  | [] => true
  | p :: rest =>
      if Qlt_bool (_compute_direction_diff movement_direction
                     (direction_to p center))
                  (PyFloat.radians 45)
      then false
      else undetected_at center movement_direction rest
  end.

Definition is_legal_leg `{Geometry} (center : Coordinate) (radius : Q)
  (start end_ : Coordinate) : bool :=
  match intersection start end_ (circle center radius) with
  | None => true
  | Some (start', end') =>
      let movement_direction := direction_to start' end' in
      undetected_at center movement_direction [start'; end']
  end.
End Radar_.

(** Dynamic dispatch of [enemy.is_legal_leg(start, end)]. *)
Definition enemy_is_legal_leg `{Geometry} (enemy : Enemy) (start end_ : Coordinate) : bool :=
  match enemy with
  | AsteroidsZone boundary => AsteroidsZone_.is_legal_leg boundary start end_
  | ObservationPost center radius =>
      ObservationPost_.is_legal_leg center radius start end_
  | Radar center radius => Radar_.is_legal_leg center radius start end_
  end.


(* ------------------------------------------------------------------ *)
(** * Python helpers *)

(** [itertools.combinations(l, 2)] *)
Fixpoint combinations {A : Type} (l : list A) : list (A * A) :=
  match l with
  | [] => []
  | a :: rest => map (pair a) rest ++ combinations rest
  end.

(** [try: body except nx.NetworkXNoPath: handler] *)
Definition except_NetworkXNoPath {A : Type} (body : outcome A) (handler : A)
  : outcome A :=
  match body with
  | Raise NetworkXNoPath => Return handler
  | other => other
  end.

(** [l[-1]] *)
Definition last_item {A : Type} (l : list A) : outcome A :=
  match rev l with
  | a :: _ => Return a
  | [] => Raise IndexError
  end.

(** The global random generator: the unit draws it will hand out, in
    order.  A computation that asks for more draws than the list holds is
    still running ([OutOfFuel]). *)
Definition Draws : Set := list Q.

(** [random.uniform(a, b)] on the unit draw [u]. *)
Definition uniform (a b u : Q) : Q := a + (b - a) * u.

(* ------------------------------------------------------------------ *)
(** * Stage 1: visibility graph ([solution_stage1.py]) *)

Module Stage1.

(** [nx.Graph] with a [dist] attribute on each edge. *)
Definition Graph : Type := DiGraph Coordinate Q.

Definition add_enemies_to_graph `{Geometry} (graph : Graph) (enemies : list Enemy)
  : Graph :=
  fold_left
    (fun g enemy =>
       match enemy with
       | AsteroidsZone boundary => add_nodes_from g boundary
       | ObservationPost center radius =>
           add_nodes_from g (approximate_boundary center radius 20)
       | Radar _ _ => g
       end)
    enemies graph.

Definition is_legal_leg `{Geometry} (start end_ : Coordinate)
  (enemies : list Enemy) : bool :=
  forallb (fun enemy => enemy_is_legal_leg enemy start end_) enemies.

(** The loop over [combinations(graph.nodes, 2)]. *)
Definition connect_pairs `{Geometry} (enemies : list Enemy) (graph : Graph)
  : Graph :=
  fold_left
    (fun g pair =>
       let '(node1, node2) := pair in
       if is_legal_leg node1 node2 enemies
       then add_undirected_edge g node1 node2 (distance_to node1 node2)
       else g)
    (combinations (nodes graph)) graph.

Definition build_graph `{Geometry} (source target : Coordinate)
  (enemies : list Enemy) : Graph :=
  let graph := empty_graph in
  let graph := add_node graph source in
  let graph := add_node graph target in
  let graph := add_enemies_to_graph graph enemies in
  connect_pairs enemies graph.

Definition calculate_path `{Geometry} `{ShortestPath}
  (source target : Coordinate) (enemies : list Enemy)
  : outcome (list Coordinate * Graph) :=
  let graph := build_graph source target enemies in
  path <- except_NetworkXNoPath
            (shortest_path (fun dist => dist) graph source target) [] ;;
  Return (path, graph).

End Stage1.

(* ------------------------------------------------------------------ *)
(** * Stage 2: roadmap sampling inside radars ([solution_stage2.py]) *)

Module Stage2.

Definition SAMPLES : nat := 2000.
Definition EDGE_RADIUS : Q := 5.

(** [nx.DiGraph] with a [dist] attribute on each edge. *)
Definition Graph : Type := DiGraph Coordinate Q.

Definition add_enemies_to_graph `{Geometry} (graph : Graph) (enemies : list Enemy)
  : Graph :=
  fold_left
    (fun g enemy =>
       match enemy with
       | AsteroidsZone boundary => add_nodes_from g boundary
       | ObservationPost center radius =>
           add_nodes_from g (approximate_boundary center radius 20)
       | Radar center radius =>
           add_nodes_from g (approximate_boundary center radius 30)
       end)
    enemies graph.

Definition is_legal_leg `{Geometry} (start end_ : Coordinate)
  (enemies : list Enemy) : bool :=
  forallb (fun enemy => enemy_is_legal_leg enemy start end_) enemies.

(** Rejection sampling: two draws per round, until the point falls
    inside the polygon. *)
Fixpoint sample_in_polygon `{Geometry} (polygon_ : Polygon) (draws : Draws)
  : outcome (Coordinate * Draws) :=
  let '(left_, bottom, right_, top) := bounds polygon_ in
  match draws with
  | u1 :: u2 :: rest =>
      let x := uniform left_ right_ u1 in
      let y := uniform bottom top u2 in
      if contains polygon_ (coordinate x y)
      then Return (coordinate x y, rest)
      else sample_in_polygon polygon_ rest
  | _ => OutOfFuel
  end.

(** [[sample_in_polygon(polygon) for _ in range(n)]] *)
Fixpoint sample_many `{Geometry} (polygon_ : Polygon) (n : nat) (draws : Draws)
  : outcome (list Coordinate * Draws) :=
  match n with
  | O => Return ([], draws)
  | S n' =>
      '(node, draws) <- sample_in_polygon polygon_ draws ;;
      '(more, draws) <- sample_many polygon_ n' draws ;;
      Return (node :: more, draws)
  end.

(** [[enemy for enemy in enemies if isinstance(enemy, Radar)]], each
    radar by its center and radius. *)
Definition radars_of (enemies : list Enemy) : list (Coordinate * Q) :=
  flat_map (fun enemy => match enemy with
                         | Radar center radius => [(center, radius)]
                         | _ => []
                         end) enemies.

(** The loop [for radar in radars: new_nodes += [...]]. *)
Fixpoint sample_radars `{Geometry} (radars : list (Coordinate * Q))
  (samples_per_radar : nat) (draws : Draws)
  : outcome (list Coordinate * Draws) :=
  match radars with
  | [] => Return ([], draws)
  | (center, radius) :: rest =>
      '(new, draws) <- sample_many (Radar_.circle center radius)
                                   samples_per_radar draws ;;
      '(more, draws) <- sample_radars rest samples_per_radar draws ;;
      Return (new ++ more, draws)
  end.

(** One round of [for node in new_nodes]. *)
Definition connect_node `{Geometry} (enemies : list Enemy) (graph : Graph)
  (node : Coordinate) : Graph :=
  let graph := add_node graph node in
  fold_left
    (fun g other =>
       if eqb other node || Qlt_bool EDGE_RADIUS (distance_to node other)
       then g
       else
         let dist := distance_to node other in
         let g := if is_legal_leg other node enemies
                  then add_edge g other node dist else g in
         if is_legal_leg node other enemies
         then add_edge g node other dist else g)
    (nodes graph) graph.

Definition add_nodes_inside_radars `{Geometry} (graph : Graph)
  (enemies : list Enemy) (draws : Draws) : outcome (Graph * Draws) :=
  let radars := radars_of enemies in
  if Nat.eqb (length radars) 0 then Return (graph, draws)
  else
    let samples_per_radar := Nat.div SAMPLES (length radars) in
    '(new_nodes, draws) <- sample_radars radars samples_per_radar draws ;;
    Return (fold_left (connect_node enemies) new_nodes graph, draws).

(** The loop over [combinations(graph.nodes, 2)]. *)
Definition connect_pairs `{Geometry} (enemies : list Enemy) (graph : Graph)
  : Graph :=
  fold_left
    (fun g pair =>
       let '(node1, node2) := pair in
       if is_legal_leg node1 node2 enemies
       then
         let dist := distance_to node1 node2 in
         add_edge (add_edge g node1 node2 dist) node2 node1 dist
       else g)
    (combinations (nodes graph)) graph.

(** The nodes the pairs are drawn from. *)
Definition seed_graph `{Geometry} (source target : Coordinate)
  (enemies : list Enemy) : Graph :=
  let graph := empty_graph in
  let graph := add_node graph source in
  let graph := add_node graph target in
  add_enemies_to_graph graph enemies.

Definition calculate_path `{Geometry} `{ShortestPath}
  (source target : Coordinate) (enemies : list Enemy) (draws : Draws)
  : outcome (list Coordinate * Graph) :=
  let graph := seed_graph source target enemies in
  let graph := connect_pairs enemies graph in
  '(graph, _) <- add_nodes_inside_radars graph enemies draws ;;
  path <- except_NetworkXNoPath
            (shortest_path (fun dist => dist) graph source target) [] ;;
  Return (path, graph).

End Stage2.

(* ------------------------------------------------------------------ *)
(** * Stage 3: detection budget by layers ([solution_stage3.py]) *)

Module Stage3.

Definition SAMPLES : nat := 2000.
Definition EDGE_RADIUS : Q := 5.

(** The attributes [dist] and [detected] of an edge of the base graph. *)
Record Attr : Set := mkAttr { dist : Q; detected : bool }.

Definition Graph : Type := DiGraph Coordinate Attr.

(** A node [f'{node}_{layer}'] of the layers graph: the coordinate and
    the decimal form of the layer. *)
Definition LayeredKey : Set := (Coordinate * Qc)%type.

Definition layered (node : Coordinate) (layer : Q) : LayeredKey :=
  (node, Q2Qc layer).

(** The layers graph carries [dist] only. *)
Definition LayersGraph : Type := DiGraph LayeredKey Q.

Definition add_enemies_to_graph `{Geometry} (graph : Graph) (enemies : list Enemy)
  : Graph :=
  fold_left
    (fun g enemy =>
       match enemy with
       | AsteroidsZone boundary => add_nodes_from g boundary
       | ObservationPost center radius =>
           add_nodes_from g (approximate_boundary center radius 20)
       | Radar center radius =>
           add_nodes_from g (approximate_boundary center radius 30)
       end)
    enemies graph.

Definition is_legal_leg `{Geometry} (start end_ : Coordinate)
  (enemies : list Enemy) : bool :=
  forallb (fun enemy => enemy_is_legal_leg enemy start end_) enemies.

Definition is_leg_legal_only_no_entrances `{Geometry} (start end_ : Coordinate)
  (enemies : list Enemy) : bool :=
  forallb (fun enemy => enemy_is_legal_leg enemy start end_)
          (filter (fun enemy => negb (is_Radar enemy)) enemies).

Definition is_leg_legal_only_radars `{Geometry} (start end_ : Coordinate)
  (enemies : list Enemy) : bool :=
  forallb (fun enemy => enemy_is_legal_leg enemy start end_)
          (filter is_Radar enemies).

(** [sample_in_polygon] and the sampling loops are those of stage 2,
    line for line. *)
Definition sample_in_polygon `{Geometry} := Stage2.sample_in_polygon.
Definition sample_radars `{Geometry} := Stage2.sample_radars.
Definition radars_of := Stage2.radars_of.

(** One round of [for node in new_nodes]. *)
Definition connect_node `{Geometry} (enemies : list Enemy) (graph : Graph)
  (node : Coordinate) : Graph :=
  let graph := add_node graph node in
  fold_left
    (fun g other =>
       if eqb other node || Qlt_bool EDGE_RADIUS (distance_to node other)
       then g
       else if negb (is_leg_legal_only_no_entrances node other enemies)
       then g
       else
         let d := distance_to node other in
         let g := add_edge g other node
                    (mkAttr d (negb (is_leg_legal_only_radars other node enemies))) in
         add_edge g node other
           (mkAttr d (negb (is_leg_legal_only_radars node other enemies))))
    (nodes graph) graph.

Definition add_nodes_inside_radars `{Geometry} (graph : Graph)
  (enemies : list Enemy) (draws : Draws) : outcome (Graph * Draws) :=
  let radars := radars_of enemies in
  if Nat.eqb (length radars) 0 then Return (graph, draws)
  else
    let samples_per_radar := Nat.div SAMPLES (length radars) in
    '(new_nodes, draws) <- sample_radars radars samples_per_radar draws ;;
    Return (fold_left (connect_node enemies) new_nodes graph, draws).

(** Fuel for a [while layer + used <= max_detection] loop that steps by
    [quanta]: one more than the number of rounds it makes when
    [quanta > 0]. *)
Definition loop_fuel (room quanta : Q) : nat :=
  S (Z.to_nat (Qfloor (room / quanta) + 1)).

Fixpoint add_legal_edge_loop (fuel : nat) (graph : LayersGraph)
  (max_detection quanta : Q) (start end_ : Coordinate) (d : Q) (layer : Q)
  : outcome LayersGraph :=
  match fuel with
  | O => OutOfFuel
  | S fuel' =>
      if Qle_bool layer max_detection then
        add_legal_edge_loop fuel'
          (add_edge graph (layered start layer) (layered end_ layer) d)
          max_detection quanta start end_ d (layer + quanta)
      else Return graph
  end.

Definition add_legal_edge (graph : LayersGraph) (max_detection quanta : Q)
  (start end_ : Coordinate) (d : Q) : outcome LayersGraph :=
  add_legal_edge_loop (loop_fuel max_detection quanta) graph
    max_detection quanta start end_ d 0.

(** [detection] after the rounding up to a multiple of [quanta]. *)
Definition rounded_detection (quanta d : Q) : Q :=
  if Qlt_bool 0 (PyFloat.mod_ d quanta)
  then (PyFloat.floordiv d quanta + 1) * quanta
  else d.

Fixpoint add_detected_edge_loop (fuel : nat) (graph : LayersGraph)
  (max_detection quanta : Q) (start end_ : Coordinate) (d detection : Q)
  (layer : Q) : outcome LayersGraph :=
  match fuel with
  | O => OutOfFuel
  | S fuel' =>
      if Qle_bool (layer + detection) max_detection then
        add_detected_edge_loop fuel'
          (add_edge graph (layered start layer)
                    (layered end_ (layer + detection)) d)
          max_detection quanta start end_ d detection (layer + quanta)
      else Return graph
  end.

Definition add_detected_edge (graph : LayersGraph) (max_detection quanta : Q)
  (start end_ : Coordinate) (d : Q) : outcome LayersGraph :=
  let detection := rounded_detection quanta d in
  add_detected_edge_loop (loop_fuel (max_detection - detection) quanta) graph
    max_detection quanta start end_ d detection 0.

Definition add_target_edges (graph : LayersGraph) (layers : list Q)
  (target : Coordinate) : LayersGraph :=
  fold_left
    (fun g pair =>
       let '(layer, next_layer) := pair in
       add_edge g (layered target layer) (layered target next_layer) 0)
    (combine layers (tl layers)) graph.

(** [layers], from 0 to [max_detection] by steps of [quanta]. *)
Definition layers_of (max_detection quanta : Q) : list Q :=
  map (fun i => quanta * PyFloat.of_nat i)
      (PyFloat.range (PyFloat.int (PyFloat.floordiv max_detection quanta) + 1)).

(** The loop [for edge, attributes in graph.edges.items()]. *)
Fixpoint add_edges (es : list ((Coordinate * Coordinate) * Attr))
  (layers_graph : LayersGraph) (max_detection quanta : Q)
  : outcome LayersGraph :=
  match es with
  | [] => Return layers_graph
  | ((start, end_), attributes) :: rest =>
      layers_graph <-
        (if detected attributes
         then add_detected_edge layers_graph max_detection quanta
                                start end_ (dist attributes)
         else add_legal_edge layers_graph max_detection quanta
                             start end_ (dist attributes)) ;;
      add_edges rest layers_graph max_detection quanta
  end.

Definition build_layers_graph `{Geometry} (graph : Graph)
  (source target : Coordinate) (max_detection_percentage quanta : Q)
  : outcome (LayersGraph * LayeredKey * LayeredKey) :=
  let max_detection := distance_to source target * max_detection_percentage in
  if Qeq_bool quanta 0 then Raise ZeroDivisionError
  else
    let layers_graph : LayersGraph := empty_graph in
    let layers := layers_of max_detection quanta in
    let layers_graph :=
      fold_left
        (fun g layer =>
           add_nodes_from g (map (fun node => layered node layer) (nodes graph)))
        layers layers_graph in
    layers_graph <- add_edges (edges graph) layers_graph max_detection quanta ;;
    let layers_graph := add_target_edges layers_graph layers target in
    last_layer <- last_item layers ;;
    Return (layers_graph, layered source 0, layered target last_layer).

(** The loop [while path[-1] == path[-2]: path = path[:-1]], on the
    reversed list: its head is [path[-1]], the next item is [path[-2]],
    and indexing a list that is too short raises [IndexError]. *)
Fixpoint drop_repeated_end (reversed : list Coordinate)
  : outcome (list Coordinate) :=
  match reversed with
  | last1 :: ((last2 :: _) as shorter) =>
      if eqb last1 last2 then drop_repeated_end shorter
      else Return reversed
  | _ => Raise IndexError
  end.

Definition retrieve_path_from_layered_path (path : list LayeredKey)
  : outcome (list Coordinate) :=
  (* [s.split('_')[0]] and [Coordinate.from_str] *)
  let path := map fst path in
  reversed <- drop_repeated_end (rev path) ;;
  Return (rev reversed).

Definition default_max_detection_percentage : Q := 1 # 10.
Definition default_quanta : Q := 1 # 2.

(** The nodes the pairs are drawn from. *)
Definition seed_graph `{Geometry} (source target : Coordinate)
  (enemies : list Enemy) : Graph :=
  let graph := empty_graph in
  let graph := add_node graph source in
  let graph := add_node graph target in
  add_enemies_to_graph graph enemies.

(** The loop over [combinations(graph.nodes, 2)]. *)
Definition connect_pairs `{Geometry} (enemies : list Enemy) (graph : Graph)
  : Graph :=
  fold_left
    (fun g pair =>
       let '(node1, node2) := pair in
       if negb (is_legal_leg node1 node2 enemies) then g
       else
         let d := distance_to node1 node2 in
         add_edge (add_edge g node1 node2 (mkAttr d false))
                  node2 node1 (mkAttr d false))
    (combinations (nodes graph)) graph.

(** The base graph of [calculate_path], before the layers are built. *)
Definition build_graph `{Geometry} (source target : Coordinate)
  (enemies : list Enemy) (draws : Draws) : outcome Graph :=
  let graph := seed_graph source target enemies in
  let graph := connect_pairs enemies graph in
  '(graph, _) <- add_nodes_inside_radars graph enemies draws ;;
  Return graph.

(** The end of [calculate_path]: layers graph, shortest path, decoding.
    [calculate_path] calls [build_layers_graph] with its defaults. *)
Definition shortest_layered_path `{Geometry} `{ShortestPath} (graph : Graph)
  (source target : Coordinate) (max_detection_percentage quanta : Q)
  : outcome (list Coordinate) :=
  '(layers_graph, source', target') <-
    build_layers_graph graph source target max_detection_percentage quanta ;;
  except_NetworkXNoPath
    (path <- shortest_path (fun d => d) layers_graph source' target' ;;
     retrieve_path_from_layered_path path)
    [].

Definition calculate_path `{Geometry} `{ShortestPath}
  (source target : Coordinate) (enemies : list Enemy) (draws : Draws)
  : outcome (list Coordinate * Graph) :=
  graph <- build_graph source target enemies draws ;;
  path <- shortest_layered_path graph source target
            default_max_detection_percentage default_quanta ;;
  Return (path, graph).

End Stage3.

(* ------------------------------------------------------------------ *)
(** * A computable plane

    An instance of [Geometry] over rational numbers, to run the planner
    on concrete scenarios: every shape is its axis-parallel bounding box
    (a polygon with sides along the axes is exact), square roots are
    rounded up at a fixed precision and the circular functions are
    rational approximations. *)

Module BoxWorld.

Record Box : Set := mkBox { x_min : Q; y_min : Q; x_max : Q; y_max : Q }.

Definition qmin (a b : Q) : Q := if Qle_bool a b then a else b.
Definition qmax (a b : Q) : Q := if Qle_bool a b then b else a.

Definition point_box (p : Coordinate) : Box := mkBox (x p) (y p) (x p) (y p).

Definition join (b : Box) (p : Coordinate) : Box :=
  mkBox (qmin (x_min b) (x p)) (qmin (y_min b) (y p))
        (qmax (x_max b) (x p)) (qmax (y_max b) (y p)).

(** The box of no point at all is empty. *)
Definition box_of (vertices : list Coordinate) : Box :=
  match vertices with
  | [] => mkBox 0 0 (-1) (-1)
  | v :: rest => fold_left join rest (point_box v)
  end.

Definition grow (b : Box) (d : Q) : Box :=
  mkBox (x_min b - d) (y_min b - d) (x_max b + d) (y_max b + d).

(** The part [t0 <= t <= t1] of the leg [a + t * d] between [lo] and
    [hi] along one axis. *)
Definition clip_axis (lo hi a d : Q) (part : option (Q * Q)) : option (Q * Q) :=
  match part with
  | None => None
  | Some (t0, t1) =>
      if Qeq_bool d 0 then
        if Qle_bool lo a && Qle_bool a hi then Some (t0, t1) else None
      else
        let ta := (lo - a) / d in
        let tb := (hi - a) / d in
        let t0' := qmax t0 (qmin ta tb) in
        let t1' := qmin t1 (qmax ta tb) in
        if Qle_bool t0' t1' then Some (t0', t1') else None
  end.

Definition clip (b : Box) (p q : Coordinate) : option (Q * Q) :=
  clip_axis (y_min b) (y_max b) (y p) (y q - y p)
    (clip_axis (x_min b) (x_max b) (x p) (x q - x p) (Some (0, 1))).

Definition is_some {A : Type} (o : option A) : bool :=
  match o with Some _ => true | None => false end.

Definition box_intersects (b : Box) (p q : Coordinate) : bool :=
  is_some (clip b p q) || is_some (clip b q p).

Definition point_at (p q : Coordinate) (t : Q) : Coordinate :=
  coordinate (x p + t * (x q - x p)) (y p + t * (y q - y p)).

Definition box_intersection (p q : Coordinate) (b : Box)
  : option (Coordinate * Coordinate) :=
  match clip b p q with
  | Some (t0, t1) =>
      if Qlt_bool t0 t1 && negb (eqb p q)
      then Some (point_at p q t0, point_at p q t1)
      else None
  | None => None
  end.

Definition box_contains (b : Box) (p : Coordinate) : bool :=
  Qlt_bool (x_min b) (x p) && Qlt_bool (x p) (x_max b) &&
  Qlt_bool (y_min b) (y p) && Qlt_bool (y p) (y_max b).

(** The square root, rounded up to a multiple of [10^-6]. *)
Definition sqrt_up (a : Q) : Q :=
  Z.sqrt_up (Qceiling (a * inject_Z (10 ^ 12))) # (10 ^ 6).

Definition box_distance (a b : Coordinate) : Q :=
  sqrt_up ((x a - x b) * (x a - x b) + (y a - y b) * (y a - y b)).

(** Bhaskara's approximation of the sine. *)
Definition half_wave (r : Q) : Q :=
  16 * r * (PyFloat.pi - r) /
  (5 * PyFloat.pi * PyFloat.pi - 4 * r * (PyFloat.pi - r)).

Definition sin_approx (a : Q) : Q :=
  let r := PyFloat.mod_ a (2 * PyFloat.pi) in
  if Qle_bool r PyFloat.pi then half_wave r else - half_wave (r - PyFloat.pi).

Definition cos_approx (a : Q) : Q := sin_approx (a + PyFloat.pi / 2).

(** The arc tangent of a slope between -1 and 1. *)
Definition atan_unit (z : Q) : Q :=
  z * (PyFloat.pi / 4 + (273 # 1000) * (1 - Qabs z)).

Definition atan2_approx (dy dx : Q) : Q :=
  if Qeq_bool dx 0 && Qeq_bool dy 0 then 0
  else if Qle_bool (Qabs dy) (Qabs dx) then
    let a := atan_unit (dy / dx) in
    if Qlt_bool 0 dx then a
    else if Qle_bool 0 dy then a + PyFloat.pi else a - PyFloat.pi
  else
    let a := atan_unit (dx / dy) in
    if Qlt_bool 0 dy then PyFloat.pi / 2 - a else - (PyFloat.pi / 2) - a.

Definition box_direction (a b : Coordinate) : Q :=
  atan2_approx (y b - y a) (x b - x a).

#[export] Instance geometry : Geometry := {|
  distance_to := box_distance;
  direction_to := box_direction;
  math_sin := sin_approx;
  math_cos := cos_approx;
  Polygon := Box;
  polygon := box_of;
  point_buffer := fun center radius => grow (point_box center) radius;
  buffer := grow;
  intersects := box_intersects;
  intersection := box_intersection;
  bounds := fun b => (x_min b, y_min b, x_max b, y_max b);
  contains := box_contains
|}.

End BoxWorld.

(* ------------------------------------------------------------------ *)
(** * Vocabulary of the statements *)

(** The legs of a path: [zip(path, path[1:])]. *)
Definition legs {A : Type} (path : list A) : list (A * A) :=
  combine path (tl path).

(** [compute_path_length] of [submission_app.py]. *)
Definition path_length `{Geometry} (path : list Coordinate) : Q :=
  fold_right (fun leg total => distance_to (fst leg) (snd leg) + total)
             0 (legs path).

(** The leg is legal for every enemy that is not a radar. *)
Definition legal_for_no_entrances `{Geometry} (enemies : list Enemy)
  (leg : Coordinate * Coordinate) : Prop :=
  forall enemy, In enemy enemies -> is_Radar enemy = false ->
                enemy_is_legal_leg enemy (fst leg) (snd leg) = true.

(** The edge of the base graph under a leg carries [detected=True]. *)
Definition flagged_detected (graph : Stage3.Graph)
  (leg : Coordinate * Coordinate) : bool :=
  match get_edge graph (fst leg) (snd leg) with
  | Some attributes => Stage3.detected attributes
  | None => false
  end.

(** The total length of the legs whose edge is flagged detected. *)
Definition detected_length `{Geometry} (graph : Stage3.Graph)
  (path : list Coordinate) : Q :=
  fold_right
    (fun leg total =>
       (if flagged_detected graph leg
        then distance_to (fst leg) (snd leg) else 0) + total)
    0 (legs path).

(** The number of layers [0, quanta, 2 quanta, ...] that are at most
    [room]. *)
Definition layer_count (room quanta : Q) : nat :=
  Z.to_nat (Qfloor (room / quanta) + 1).

(** [ceil(d / quanta) * quanta] *)
Definition ceil_to_quanta (quanta d : Q) : Q :=
  inject_Z (Qceiling (d / quanta)) * quanta.

(** The edges the layers graph is meant to have: a copy of each legal
    edge inside every layer, a copy of each detected edge from a layer to
    the layer its rounded length leads to, as long as that stays within
    the budget, and the target linked from each layer to the next. *)
Inductive LayeredEdge (graph : Stage3.Graph) (max_detection quanta : Q)
  (target : Coordinate) : Stage3.LayeredKey -> Stage3.LayeredKey -> Q -> Prop :=
| legal_copy : forall u v d k,
    In ((u, v), Stage3.mkAttr d false) (edges graph) ->
    PyFloat.of_nat k * quanta <= max_detection ->
    LayeredEdge graph max_detection quanta target
      (Stage3.layered u (PyFloat.of_nat k * quanta))
      (Stage3.layered v (PyFloat.of_nat k * quanta)) d
| detected_copy : forall u v d k,
    In ((u, v), Stage3.mkAttr d true) (edges graph) ->
    PyFloat.of_nat k * quanta + ceil_to_quanta quanta d <= max_detection ->
    LayeredEdge graph max_detection quanta target
      (Stage3.layered u (PyFloat.of_nat k * quanta))
      (Stage3.layered v (PyFloat.of_nat k * quanta + ceil_to_quanta quanta d)) d
| target_step : forall k,
    PyFloat.of_nat (S k) * quanta <= max_detection ->
    LayeredEdge graph max_detection quanta target
      (Stage3.layered target (PyFloat.of_nat k * quanta))
      (Stage3.layered target (PyFloat.of_nat (S k) * quanta)) 0.

(** A base graph as [networkx] holds it and as [calculate_path] builds
    it: one entry per edge, no edge from a node to itself. *)
Definition well_formed (graph : Stage3.Graph) : Prop :=
  NoDup (map fst (edges graph)) /\
  forall u v a, In ((u, v), a) (edges graph) -> u <> v.

(** The same, as a check that can be run. *)
Fixpoint no_repeat {K : Type} `{EqDec K} (l : list K) : bool :=
  match l with
  | [] => true
  | a :: rest => negb (existsb (eqb a) rest) && no_repeat rest
  end.

Definition well_formedb (graph : Stage3.Graph) : bool :=
  no_repeat (map fst (edges graph)) &&
  forallb (fun e => negb (eqb (fst (fst e)) (snd (fst e)))) (edges graph).

Definition nonneg_distb (graph : Stage3.Graph) : bool :=
  forallb (fun e => Qle_bool 0 (Stage3.dist (snd e))) (edges graph).

(** A batch of [add_edge] calls. *)
Definition insert_all {N A : Type} `{EqDec N} (ops : list ((N * N) * A))
  (g : DiGraph N A) : DiGraph N A :=
  fold_left (fun g op => add_edge g (fst (fst op)) (snd (fst op)) (snd op))
            ops g.

(** The [add_edge] calls of [add_legal_edge], [add_detected_edge] and
    [add_target_edges], as lists. *)
Definition legal_copies (max_detection quanta : Q) (u v : Coordinate) (d : Q)
  : list ((Stage3.LayeredKey * Stage3.LayeredKey) * Q) :=
  map (fun k => ((Stage3.layered u (PyFloat.of_nat k * quanta),
                  Stage3.layered v (PyFloat.of_nat k * quanta)), d))
      (seq 0 (layer_count max_detection quanta)).

Definition detected_copies (max_detection quanta : Q) (u v : Coordinate) (d : Q)
  : list ((Stage3.LayeredKey * Stage3.LayeredKey) * Q) :=
  map (fun k => ((Stage3.layered u (PyFloat.of_nat k * quanta),
                  Stage3.layered v (PyFloat.of_nat k * quanta
                                    + ceil_to_quanta quanta d)), d))
      (seq 0 (layer_count (max_detection - ceil_to_quanta quanta d) quanta)).

Definition edge_copies (max_detection quanta : Q)
  (edge : (Coordinate * Coordinate) * Stage3.Attr)
  : list ((Stage3.LayeredKey * Stage3.LayeredKey) * Q) :=
  if Stage3.detected (snd edge)
  then detected_copies max_detection quanta (fst (fst edge)) (snd (fst edge))
                       (Stage3.dist (snd edge))
  else legal_copies max_detection quanta (fst (fst edge)) (snd (fst edge))
                    (Stage3.dist (snd edge)).

Definition target_links (max_detection quanta : Q) (target : Coordinate)
  : list ((Stage3.LayeredKey * Stage3.LayeredKey) * Q) :=
  map (fun k => ((Stage3.layered target (PyFloat.of_nat k * quanta),
                  Stage3.layered target (PyFloat.of_nat (S k) * quanta)), 0))
      (seq 0 (layer_count max_detection quanta - 1)).

(** The layers graph once its nodes are added. *)
Definition layer_nodes (graph : Stage3.Graph) (max_detection quanta : Q)
  : Stage3.LayersGraph :=
  fold_left
    (fun g layer =>
       add_nodes_from g (map (fun node => Stage3.layered node layer)
                             (nodes graph)))
    (Stage3.layers_of max_detection quanta) empty_graph.

(* ------------------------------------------------------------------ *)
(** * The checks of the submission service ([submission_app.py]) *)

Module Submission.

(** [any(any(not enemy.is_legal_leg(start, end) for enemy in enemies
    if not isinstance(enemy, Radar)) for start, end in zip(path, path[1:]))] *)
Definition path_crosses_no_entrance `{Geometry} (path : list Coordinate)
  (enemies : list Enemy) : bool :=
  existsb
    (fun leg =>
       existsb (fun enemy => negb (enemy_is_legal_leg enemy (fst leg) (snd leg)))
               (filter (fun enemy => negb (is_Radar enemy)) enemies))
    (legs path).

(** [sum(start.distance_to(end) for start, end in zip(path, path[1:])
    if any(not enemy.is_legal_leg(start, end) for enemy in enemies
    if isinstance(enemy, Radar)))] *)
Definition compute_radar_detection_distance `{Geometry}
  (path : list Coordinate) (enemies : list Enemy) : Q :=
  fold_left Qplus
    (map (fun leg => distance_to (fst leg) (snd leg))
         (filter
            (fun leg =>
               existsb
                 (fun enemy => negb (enemy_is_legal_leg enemy (fst leg) (snd leg)))
                 (filter is_Radar enemies))
            (legs path)))
    0.

(** The loop [total += coord1.distance_to(coord2)]. *)
Definition compute_path_length `{Geometry} (path : list Coordinate) : Q :=
  fold_left (fun total leg => total + distance_to (fst leg) (snd leg))
            (legs path) 0.

(** What [submit_button_clicked] answers once the path is parsed, up to
    the call of [save_path]. *)
Inductive Verdict : Type :=
| WrongSource
| WrongTarget
| CrossesNoEntrance
| UnderDetection (detection_distance : Q)
| Legal (path_length : Q).

(** [path[0]] *)
Definition first_item {A : Type} (l : list A) : outcome A :=
  match l with
  | a :: _ => Return a
  | [] => Raise IndexError
  end.

Definition check_path `{Geometry} (source target : Coordinate)
  (enemies : list Enemy) (path : list Coordinate) : outcome Verdict :=
  first <- first_item path ;;
  if negb (eqb source first) then Return WrongSource
  else
    last <- last_item path ;;
    if negb (eqb target last) then Return WrongTarget
    else if path_crosses_no_entrance path enemies then Return CrossesNoEntrance
    else
      let detection_distance := compute_radar_detection_distance path enemies in
      if Qlt_bool 0 detection_distance
      then Return (UnderDetection detection_distance)
      else Return (Legal (compute_path_length path)).

(** ** The submissions file *)

(** One value of the submissions dictionary, with its keys
    ['path_length'], ['submission_time'] and ['path']. *)
Record Entry : Set := mkEntry {
  path_length : Q;
  submission_time : Q;
  path : list (Qc * Qc)
}.

(** The dictionary, in the order of its keys. *)
Definition Submissions : Set := list (String.string * Entry).

(** The file of a scenario: [None] while [os.path.exists] is false. *)
Definition File : Set := option Submissions.

Definition load_submission_dict (file : File) : Submissions :=
  match file with
  | Some submissions => submissions
  | None => []
  end.

(** The comparison of the sort keys
    [(item[1]['path_length'], item[1]['submission_time'])], as tuples. *)
Definition key_lt (a b : Entry) : bool :=
  Qlt_bool (path_length a) (path_length b)
  || (Qeq_bool (path_length a) (path_length b)
      && Qlt_bool (submission_time a) (submission_time b)).

(** [sorted(..., key=...)] is stable: an item goes behind the items that
    are not larger than it. *)
Fixpoint insert_item (item : String.string * Entry) (sorted : Submissions)
  : Submissions :=
  match sorted with
  | [] => [item]
  | other :: rest =>
      if key_lt (snd item) (snd other) then item :: sorted
      else other :: insert_item item rest
  end.

Definition sorted_by_key (items : Submissions) : Submissions :=
  fold_left (fun sorted item => insert_item item sorted) items [].

Definition save_submission_dict (submissions : Submissions) : File :=
  Some (sorted_by_key submissions).

(** [username] is [request.authorization['username']] and [now] is
    [time.time()]; the result is the returned flag and the file after
    the call. *)
Definition save_path `{Geometry} (path_ : list Coordinate)
  (username : String.string) (now : Q) (file : File) : bool * File :=
  let submissions := load_submission_dict file in
  let path_length_ := compute_path_length path_ in
  let not_better :=
    match lookup submissions username with
    | Some previous => Qle_bool (path_length previous) path_length_
    | None => false
    end in
  if not_better then (false, file)
  else
    let submissions :=
      update submissions username
             (mkEntry path_length_ now (map (fun c => (x c, y c)) path_)) in
    (true, save_submission_dict submissions).

Definition extract_path_from_submissions_data (submission : Entry)
  : list Coordinate :=
  map (fun c => mkCoordinate (fst c) (snd c)) (path submission).

(** [list(submissions.values())[:5]] of [load_scenario_results]: the
    entries of the leaderboard table. *)
Definition leaderboard (file : File) : list Entry :=
  firstn 5 (map snd (load_submission_dict file)).

End Submission.

(* ------------------------------------------------------------------ *)
(** * Worked scenarios on the computable plane *)

Module Examples.

Definition origin : Coordinate := coordinate 0 0.
Definition goal : Coordinate := coordinate 10 0.

(** A base graph with a short detected edge between [entry] and
    [exit_], and a direct edge that is detected over its whole length. *)
Definition entry : Coordinate := coordinate (47 # 10) 0.
Definition exit_ : Coordinate := coordinate (54 # 10) 0.

Definition crossing : Stage3.Graph :=
  let g := add_node (add_node empty_graph origin) goal in
  let g := add_edge g origin entry (Stage3.mkAttr (47 # 10) false) in
  let g := add_edge g entry exit_ (Stage3.mkAttr (7 # 10) true) in
  let g := add_edge g exit_ goal (Stage3.mkAttr (46 # 10) false) in
  add_edge g origin goal (Stage3.mkAttr 10 true).

(** A wall between [origin] and [goal], with a way around it. *)
Definition wall : Enemy :=
  AsteroidsZone [coordinate 4 (-1); coordinate 6 (-1);
                 coordinate 6 1; coordinate 4 1].

(** A zone closed around [origin]: no leg leaves it. *)
Definition cage : Enemy :=
  AsteroidsZone [coordinate (-1) (-1); coordinate 1 (-1);
                 coordinate 1 1; coordinate (-1) 1].

(** A radar half way between [origin] and [goal]. *)
Definition radar : Enemy := Radar (coordinate 5 0) 2.

(** A submissions file with the best paths of two users. *)
Definition board : Submission.File :=
  Some [("avi"%string, Submission.mkEntry 12 100 []);
        ("dana"%string, Submission.mkEntry 15 50 [])].

End Examples.

(* ================================================================== *)
(** * Properties *)

(** ** Keys and graphs *)

#[global] Arguments eqb : simpl never.

Lemma eqb_refl {A} `{EqDec A} (a : A) : eqb a a = true.
Proof. now apply eqb_eq. Qed.

Lemma eqb_neq {A} `{EqDec A} (a b : A) : eqb a b = false <-> a <> b.
Proof.
  split.
  - intros E ->. rewrite eqb_refl in E. discriminate.
  - intros D. destruct (eqb a b) eqn:E; [|reflexivity].
    apply eqb_eq in E. contradiction.
Qed.

Lemma eq_dec {A} `{EqDec A} (a b : A) : {a = b} + {a <> b}.
Proof.
  destruct (eqb a b) eqn:E.
  - left. now apply eqb_eq.
  - right. now apply eqb_neq.
Qed.

Lemma Qlt_bool_iff (a b : Q) : Qlt_bool a b = true <-> a < b.
Proof.
  unfold Qlt_bool. rewrite negb_true_iff. split.
  - intros E. apply Qnot_le_lt. intros L. apply Qle_bool_iff in L. congruence.
  - intros L. destruct (Qle_bool b a) eqn:E; [|reflexivity].
    apply Qle_bool_iff in E. lra.
Qed.

Lemma Qlt_bool_false_iff (a b : Q) : Qlt_bool a b = false <-> b <= a.
Proof.
  unfold Qlt_bool. rewrite negb_false_iff. apply Qle_bool_iff.
Qed.

Lemma Qle_bool_false_iff (a b : Q) : Qle_bool a b = false <-> b < a.
Proof.
  rewrite <- Qlt_bool_iff. unfold Qlt_bool.
  destruct (Qle_bool a b); simpl; split; congruence.
Qed.

Section GraphFacts.

Context {N : Type} `{EqDec N} {A : Type}.
Implicit Types (g : DiGraph N A) (u v n : N) (a : A).

Lemma has_node_iff g n : has_node g n = true <-> In n (nodes g).
Proof.
  unfold has_node. rewrite existsb_exists. split.
  - intros (m & Hm & E). apply eqb_eq in E. now subst.
  - intros Hn. exists n. split; [assumption|apply eqb_refl].
Qed.

Lemma nodes_add_node g m n :
  In n (nodes (add_node g m)) <-> n = m \/ In n (nodes g).
Proof.
  unfold add_node. destruct (has_node g m) eqn:E.
  - apply has_node_iff in E. split; [now right|].
    intros [->|Hn]; assumption.
  - simpl. rewrite in_app_iff. simpl. intuition.
Qed.

Lemma edges_add_node g m : edges (add_node g m) = edges g.
Proof. unfold add_node. now destruct (has_node g m). Qed.

Lemma nodes_add_nodes_from ns : forall g n,
  In n (nodes (add_nodes_from g ns)) <-> In n ns \/ In n (nodes g).
Proof.
  unfold add_nodes_from. induction ns as [|m ns IH]; intros g n; simpl.
  - intuition.
  - rewrite IH, nodes_add_node. intuition.
Qed.

Lemma edges_add_nodes_from ns : forall g,
  edges (add_nodes_from g ns) = edges g.
Proof.
  unfold add_nodes_from. induction ns as [|m ns IH]; intros g; simpl.
  - reflexivity.
  - now rewrite IH, edges_add_node.
Qed.

Lemma find_edge_In es k a : find_edge es k = Some a -> In (k, a) es.
Proof.
  induction es as [|[k' a'] es IH]; simpl; [discriminate|].
  destruct (eqb k k') eqn:E.
  - apply eqb_eq in E. intros [= ->]. left. now subst.
  - intros F. right. now apply IH.
Qed.

Lemma find_edge_set_edge es k k' a :
  find_edge (set_edge es k a) k' =
  if eqb k' k then Some a else find_edge es k'.
Proof.
  induction es as [|[k0 a0] es IH]; simpl.
  - destruct (eqb k' k); reflexivity.
  - destruct (eqb k k0) eqn:E; simpl.
    + apply eqb_eq in E. subst k0.
      destruct (eqb k' k); reflexivity.
    + destruct (eqb k' k0) eqn:E0.
      * apply eqb_eq in E0. subst k0.
        destruct (eqb k' k) eqn:E1; [|reflexivity].
        apply eqb_eq in E1. subst k'. rewrite eqb_refl in E. discriminate.
      * apply IH.
Qed.

Lemma In_set_edge es k a k' a' :
  In (k', a') (set_edge es k a) -> (k' = k /\ a' = a) \/ In (k', a') es.
Proof.
  induction es as [|[k0 a0] es IH]; simpl.
  - intros [[= <- <-]|[]]. now left.
  - destruct (eqb k k0) eqn:E; simpl.
    + intros [[= <- <-]|Hin]; [now left|now right; right].
    + intros [E'|Hin]; [now right; left|].
      destruct (IH Hin); [now left|now right; right].
Qed.

Lemma In_edges_add_edge g u v a k' a' :
  In (k', a') (edges (add_edge g u v a)) ->
  (k' = (u, v) /\ a' = a) \/ In (k', a') (edges g).
Proof.
  unfold add_edge. simpl. rewrite !edges_add_node. apply In_set_edge.
Qed.

Lemma nodes_add_edge g u v a n :
  In n (nodes (add_edge g u v a)) <-> n = u \/ n = v \/ In n (nodes g).
Proof.
  unfold add_edge. simpl. rewrite !nodes_add_node. intuition.
Qed.

Lemma get_edge_add_edge g u v a u' v' :
  get_edge (add_edge g u v a) u' v' =
  if eqb (u', v') (u, v) then Some a else get_edge g u' v'.
Proof.
  unfold get_edge, add_edge. simpl. rewrite !edges_add_node.
  apply find_edge_set_edge.
Qed.

Lemma get_edge_add_node g m u v : get_edge (add_node g m) u v = get_edge g u v.
Proof. unfold get_edge. now rewrite edges_add_node. Qed.

Lemma get_edge_In g u v a : get_edge g u v = Some a -> In ((u, v), a) (edges g).
Proof. apply find_edge_In. Qed.

End GraphFacts.

(** ** Walks *)

Section WalkFacts.

Context {N : Type} `{EqDec N} {A : Type}.
Variable dist : A -> Q.
Variable g : DiGraph N A.

Lemma Walk_head s t p : Walk g s t p -> exists r, p = s :: r.
Proof. intros W. destruct W; eauto. Qed.

Lemma Walk_last s t p : Walk g s t p -> exists r, p = r ++ [t].
Proof.
  induction 1 as [s|s v t a p E W [r ->]].
  - now exists [].
  - now exists (s :: r).
Qed.

Lemma Walk_snoc s u v a p :
  Walk g s u p -> get_edge g u v = Some a -> Walk g s v (p ++ [v]).
Proof.
  induction 1 as [s|s w t b p E W IH]; intros F; simpl.
  - eapply Walk_step; [exact F|constructor].
  - eapply Walk_step; [exact E|now apply IH].
Qed.

Lemma walk_weight_cons u v r :
  walk_weight dist g (u :: v :: r) =
  edge_weight dist g u v + walk_weight dist g (v :: r).
Proof. reflexivity. Qed.

Lemma walk_weight_snoc s u v p :
  Walk g s u p ->
  walk_weight dist g (p ++ [v]) ==
  walk_weight dist g p + edge_weight dist g u v.
Proof.
  induction 1 as [s|s w t b p E W IH].
  - simpl. lra.
  - destruct (Walk_head W) as [r ->].
    change ((s :: w :: r) ++ [v]) with (s :: w :: (r ++ [v])).
    rewrite !walk_weight_cons.
    change (w :: r ++ [v]) with ((w :: r) ++ [v]).
    rewrite IH. lra.
Qed.

Lemma Walk_unsnoc s t p :
  Walk g s t p ->
  (p = [s] /\ s = t) \/
  exists p' u a, p = p' ++ [t] /\ Walk g s u p' /\ get_edge g u t = Some a.
Proof.
  induction 1 as [s|s v t a p E W IH].
  - now left.
  - right. destruct IH as [[-> ->]|(p' & u & b & -> & W' & F)].
    + exists [s], s, a. repeat split; [constructor|assumption].
    + exists (s :: p'), u, b. repeat split; [|assumption].
      eapply Walk_step; eassumption.
Qed.

Lemma Walk_split l1 : forall s t a l2,
  Walk g s t (l1 ++ a :: l2) ->
  Walk g s a (l1 ++ [a]) /\ Walk g a t (a :: l2).
Proof.
  induction l1 as [|b l1 IH]; intros s t a l2 W; simpl in *.
  - destruct (Walk_head W) as [r [= <- <-]]. split; [constructor|assumption].
  - inversion W as [|s' v t' c p E W' E1 E2]; subst.
    + destruct l1; discriminate.
    + destruct (IH _ _ _ _ W') as [W1 W2]. split; [|assumption].
      eapply Walk_step; eassumption.
Qed.

Lemma Walk_join l1 : forall s a t l2,
  Walk g s a (l1 ++ [a]) -> Walk g a t (a :: l2) ->
  Walk g s t (l1 ++ a :: l2).
Proof.
  induction l1 as [|b l1 IH]; intros s a t l2 W1 W2; simpl in *.
  - destruct (Walk_head W1) as [r [= <-]]. assumption.
  - inversion W1 as [|s' v t' c p E W' E1 E2]; subst.
    + destruct l1; discriminate.
    + eapply Walk_step; [eassumption|]. now apply IH.
Qed.

Lemma walk_weight_app l1 : forall a l2,
  walk_weight dist g (l1 ++ a :: l2) ==
  walk_weight dist g (l1 ++ [a]) + walk_weight dist g (a :: l2).
Proof.
  induction l1 as [|b l1 IH]; intros a l2.
  - simpl. lra.
  - destruct l1 as [|c l1].
    + simpl. lra.
    + change ((b :: c :: l1) ++ a :: l2) with (b :: c :: (l1 ++ a :: l2)).
      change ((b :: c :: l1) ++ [a]) with (b :: c :: (l1 ++ [a])).
      rewrite !walk_weight_cons.
      change (c :: l1 ++ a :: l2) with ((c :: l1) ++ a :: l2).
      change (c :: l1 ++ [a]) with ((c :: l1) ++ [a]).
      rewrite IH. lra.
Qed.

Lemma edge_weight_nonneg u v :
  nonneg_weights dist g -> 0 <= edge_weight dist g u v.
Proof.
  intros Hn. unfold edge_weight. destruct (get_edge g u v) as [a|] eqn:E.
  - apply get_edge_In in E. eapply Hn; eassumption.
  - lra.
Qed.

Lemma walk_weight_nonneg p :
  nonneg_weights dist g -> 0 <= walk_weight dist g p.
Proof.
  intros Hn. induction p as [|u [|v r] IH].
  - simpl. lra.
  - simpl. lra.
  - rewrite walk_weight_cons. pose proof (edge_weight_nonneg u v Hn). lra.
Qed.

Lemma repeated_item (l : list N) :
  ~ NoDup l -> exists a l1 l2 l3, l = l1 ++ a :: l2 ++ a :: l3.
Proof.
  induction l as [|b l IH]; intros ND.
  - exfalso. apply ND. constructor.
  - destruct (in_dec eq_dec b l) as [Hin|Hout].
    + apply in_split in Hin. destruct Hin as (l2 & l3 & ->).
      now exists b, [], l2, l3.
    + destruct IH as (a & l1 & l2 & l3 & ->).
      * intros ND'. apply ND. now constructor.
      * now exists a, (b :: l1), l2, l3.
Qed.

(** A walk can be cut down to one without a repeated node, and with
    non-negative weights that does not make it heavier. *)
Lemma Walk_without_cycle :
  nonneg_weights dist g ->
  forall n p s t, (length p <= n)%nat -> Walk g s t p ->
  exists p', Walk g s t p' /\ NoDup p' /\
             walk_weight dist g p' <= walk_weight dist g p.
Proof.
  intros Hn. induction n as [|n IH]; intros p s t L W.
  - destruct (Walk_head W) as [r ->]. simpl in L. lia.
  - destruct (ListDec.NoDup_dec eq_dec p) as [ND|ND].
    + exists p. repeat split; [assumption|assumption|lra].
    + destruct (repeated_item ND) as (a & l1 & l2 & l3 & ->).
      destruct (@Walk_split l1 s t a (l2 ++ a :: l3) W) as [W1 W2].
      change (a :: l2 ++ a :: l3) with ((a :: l2) ++ a :: l3) in W2.
      destruct (@Walk_split (a :: l2) a t a l3 W2) as [W3 W4].
      pose proof (@Walk_join l1 s a t l3 W1 W4) as W5.
      destruct (IH (l1 ++ a :: l3) s t) as (p' & Wp & NDp & Lp).
      * rewrite !length_app in *. simpl in *. rewrite length_app in L.
        simpl in L. lia.
      * assumption.
      * exists p'. repeat split; [assumption|assumption|].
        rewrite (walk_weight_app l1 a (l2 ++ a :: l3)).
        change (a :: l2 ++ a :: l3) with ((a :: l2) ++ a :: l3).
        rewrite (walk_weight_app (a :: l2) a l3).
        rewrite (walk_weight_app l1 a l3) in Lp.
        pose proof (walk_weight_nonneg ((a :: l2) ++ [a]) Hn). lra.
Qed.

End WalkFacts.

(** ** The reference solver meets the contract *)

Section BellmanFordFacts.

Context {N : Type} {E : EqDec N} {A : Type}.
Variable dist : A -> Q.
Variable g : DiGraph N A.
Variable s : N.

Lemma lookup_update {V : Type} (T : list (N * V)) k v k' :
  lookup (update T k v) k' = if eqb k' k then Some v else lookup T k'.
Proof.
  induction T as [|[k0 v0] T IH]; simpl.
  - destruct (eqb k' k); reflexivity.
  - destruct (eqb k k0) eqn:E0; simpl.
    + apply eqb_eq in E0. subst k0. destruct (eqb k' k); reflexivity.
    + destruct (eqb k' k0) eqn:E1.
      * apply eqb_eq in E1. subst k0.
        destruct (eqb k' k) eqn:E2; [|reflexivity].
        apply eqb_eq in E2. subst k'. rewrite eqb_refl in E0. discriminate.
      * apply IH.
Qed.

Lemma In_find_edge (es : list ((N * N) * A)) k a :
  In (k, a) es -> exists a', find_edge es k = Some a'.
Proof.
  induction es as [|[k0 a0] es IH]; simpl; [intros []|].
  intros [[= -> ->]|Hin].
  - rewrite eqb_refl. eauto.
  - destruct (eqb k k0); eauto.
Qed.

(** Every entry of the table is a walk from the source, with its weight. *)
Definition sound (T : @Table N) : Prop :=
  forall v d p, lookup T v = Some (d, p) ->
                Walk g s v p /\ walk_weight dist g p == d.

(** [T'] has an entry at least as good wherever [T] has one. *)
Definition improves (T T' : @Table N) : Prop :=
  forall v d p, lookup T v = Some (d, p) ->
                exists d' p', lookup T' v = Some (d', p') /\ d' <= d.

Lemma improves_refl T : improves T T.
Proof. intros v d p L. exists d, p. split; [assumption|lra]. Qed.

Lemma improves_trans T1 T2 T3 :
  improves T1 T2 -> improves T2 T3 -> improves T1 T3.
Proof.
  intros H12 H23 v d p L.
  destruct (H12 _ _ _ L) as (d' & p' & L' & Le).
  destruct (H23 _ _ _ L') as (d'' & p'' & L'' & Le').
  exists d'', p''. split; [assumption|lra].
Qed.

Lemma relax_sound T e : In e (edges g) -> sound T -> sound (relax dist g T e).
Proof.
  intros Hin HT. destruct e as [[u v] a]. unfold relax. simpl.
  destruct (lookup T u) as [[du pu]|] eqn:Lu; [|assumption].
  destruct (In_find_edge _ _ _ Hin) as [a' Fa].
  destruct (HT _ _ _ Lu) as [Wu Eu].
  assert (Hnew : forall w d p,
             lookup (update T v (du + edge_weight dist g u v, pu ++ [v])) w
             = Some (d, p) ->
             Walk g s w p /\ walk_weight dist g p == d).
  { intros w d p. rewrite lookup_update. destruct (eqb w v) eqn:Ew.
    - apply eqb_eq in Ew. subst w. intros [= <- <-]. split.
      + eapply Walk_snoc; eassumption.
      + rewrite (@walk_weight_snoc _ _ _ dist g s u v pu Wu). lra.
    - apply HT. }
  destruct (lookup T v) as [[dv pv]|] eqn:Lv.
  - destruct (Qlt_bool _ dv); [exact Hnew|assumption].
  - exact Hnew.
Qed.

Lemma relax_improves T e : improves T (relax dist g T e).
Proof.
  destruct e as [[u v] a]. unfold relax. simpl.
  destruct (lookup T u) as [[du pu]|] eqn:Lu; [|apply improves_refl].
  assert (Hnew : forall dv pv,
             lookup T v = Some (dv, pv) ->
             du + edge_weight dist g u v < dv ->
             improves T (update T v (du + edge_weight dist g u v, pu ++ [v]))).
  { intros dv pv Lv Lt w d p L. rewrite lookup_update.
    destruct (eqb w v) eqn:Ew.
    - apply eqb_eq in Ew. subst w. rewrite Lv in L. injection L as <- <-.
      eexists _, _. split; [reflexivity|lra].
    - exists d, p. split; [assumption|lra]. }
  destruct (lookup T v) as [[dv pv]|] eqn:Lv.
  - destruct (Qlt_bool _ dv) eqn:Lt; [|apply improves_refl].
    apply Qlt_bool_iff in Lt. eapply Hnew; eauto.
  - intros w d p L. rewrite lookup_update. destruct (eqb w v) eqn:Ew.
    + apply eqb_eq in Ew. subst w. congruence.
    + exists d, p. split; [assumption|lra].
Qed.

Lemma relax_edge T u v a du pu :
  lookup T u = Some (du, pu) ->
  exists d' p', lookup (relax dist g T ((u, v), a)) v = Some (d', p') /\
                d' <= du + edge_weight dist g u v.
Proof.
  intros Lu. unfold relax. simpl. rewrite Lu.
  destruct (lookup T v) as [[dv pv]|] eqn:Lv.
  - destruct (Qlt_bool _ dv) eqn:Lt.
    + rewrite lookup_update, eqb_refl. eexists _, _. split; [reflexivity|lra].
    + apply Qlt_bool_false_iff in Lt. exists dv, pv. split; assumption.
  - rewrite lookup_update, eqb_refl. eexists _, _. split; [reflexivity|lra].
Qed.

Lemma fold_relax_sound es : forall T,
  incl es (edges g) -> sound T -> sound (fold_left (relax dist g) es T).
Proof.
  induction es as [|e es IH]; intros T Hi HT; simpl; [assumption|].
  apply IH.
  - intros e' He'. apply Hi. now right.
  - apply relax_sound; [apply Hi; now left|assumption].
Qed.

Lemma fold_relax_improves es : forall T,
  improves T (fold_left (relax dist g) es T).
Proof.
  induction es as [|e es IH]; intros T; simpl; [apply improves_refl|].
  eapply improves_trans; [apply relax_improves|apply IH].
Qed.

Lemma fold_relax_edge es : forall T u v a du pu,
  In ((u, v), a) es ->
  lookup T u = Some (du, pu) ->
  exists d' p', lookup (fold_left (relax dist g) es T) v = Some (d', p') /\
                d' <= du + edge_weight dist g u v.
Proof.
  induction es as [|e es IH]; intros T u v a du pu Hin Lu; simpl.
  - destruct Hin.
  - destruct Hin as [->|Hin].
    + destruct (@relax_edge T u v a du pu Lu) as (d1 & p1 & L1 & Le1).
      destruct (@fold_relax_improves es _ _ _ _ L1) as (d2 & p2 & L2 & Le2).
      exists d2, p2. split; [assumption|lra].
    + destruct (@relax_improves T e _ _ _ Lu) as (d1 & p1 & L1 & Le1).
      destruct (IH _ _ _ _ _ _ Hin L1) as (d2 & p2 & L2 & Le2).
      exists d2, p2. split; [assumption|lra].
Qed.

Lemma rounds_sound n T : sound T -> sound (rounds dist g n T).
Proof.
  intros HT. induction n as [|n IH]; simpl; [assumption|].
  apply fold_relax_sound; [apply incl_refl|assumption].
Qed.

Lemma rounds_improves n T : improves T (rounds dist g n T).
Proof.
  induction n as [|n IH]; simpl; [apply improves_refl|].
  eapply improves_trans; [exact IH|apply fold_relax_improves].
Qed.

Lemma start_sound : sound [(s, (0, [s]))].
Proof.
  intros v d p. simpl. destruct (eqb v s) eqn:Ev; [|discriminate].
  apply eqb_eq in Ev. subst v. intros [= <- <-]. split; [constructor|].
  simpl. lra.
Qed.

(** After [k] rounds the table is at least as good as every walk of at
    most [k] edges. *)
Lemma rounds_optimal k : forall v q,
  Walk g s v q -> (length q <= S k)%nat ->
  exists d p, lookup (rounds dist g k [(s, (0, [s]))]) v = Some (d, p) /\
              d <= walk_weight dist g q.
Proof.
  assert (Hstart : forall k,
             exists d p, lookup (rounds dist g k [(s, (0, [s]))]) s = Some (d, p)
                         /\ d <= 0).
  { intros k'. apply (@rounds_improves k' [(s, (0, [s]))] s 0 [s]).
    simpl. now rewrite eqb_refl. }
  induction k as [|k IH]; intros v q W L.
  - destruct (Walk_unsnoc W) as [[-> ->]|(p' & u & a & -> & W' & F)].
    + apply (Hstart 0%nat).
    + destruct (Walk_head W') as [r ->]. rewrite length_app in L.
      simpl in L. lia.
  - destruct (Walk_unsnoc W) as [[-> ->]|(p' & u & a & -> & W' & F)].
    + apply (Hstart (S k)).
    + rewrite length_app in L. simpl in L.
      destruct (IH u p' W') as (du & pu & Lu & Le); [lia|].
      simpl. unfold relax_all.
      destruct (@fold_relax_edge (edges g) _ u v a du pu
                  (get_edge_In _ _ _ F) Lu) as (d' & p'' & L' & Le').
      exists d', p''. split; [assumption|].
      rewrite (@walk_weight_snoc _ _ _ dist g s u v p' W'). lra.
Qed.

Lemma In_distinct (l : list N) a : In a (distinct l) <-> In a l.
Proof.
  induction l as [|b l IH]; simpl; [tauto|].
  destruct (existsb (eqb b) l) eqn:Ex.
  - rewrite IH. split; [now right|].
    intros [<-|Hin]; [|assumption].
    apply existsb_exists in Ex. destruct Ex as (c & Hc & Ec).
    apply eqb_eq in Ec. now subst.
  - simpl. rewrite IH. tauto.
Qed.

Lemma Walk_targets t p :
  Walk g s t p ->
  incl (tl p) (map (fun e => snd (fst e)) (edges g)).
Proof.
  induction 1 as [s0|s0 v t a p F W IH]; simpl.
  - intros x [].
  - destruct (Walk_head W) as [r ->]. simpl in IH.
    intros n [En|Hn].
    + subst n. apply get_edge_In in F. apply in_map_iff.
      now exists ((s0, v), a).
    + now apply IH.
Qed.

Lemma simple_walk_length t p :
  Walk g s t p -> NoDup p -> (length p <= S (enough_rounds g))%nat.
Proof.
  intros W ND. destruct (Walk_head W) as [r ->].
  apply Walk_targets in W. simpl in *. apply le_n_S.
  unfold enough_rounds. apply NoDup_incl_length.
  - now inversion ND.
  - intros x Hx. apply In_distinct. now apply W.
Qed.

Lemma bellman_ford_optimal t q :
  nonneg_weights dist g -> Walk g s t q ->
  exists d p, lookup (rounds dist g (enough_rounds g) [(s, (0, [s]))]) t
              = Some (d, p) /\ d <= walk_weight dist g q.
Proof.
  intros Hn W.
  destruct (Walk_without_cycle Hn (le_n (length q)) W) as (q' & W' & ND & Le).
  destruct (rounds_optimal W' (simple_walk_length W' ND)) as (d & p & L & Le').
  exists d, p. split; [assumption|lra].
Qed.

Lemma bellman_ford_reaches t q :
  Walk g s t q ->
  exists d p, lookup (rounds dist g (enough_rounds g) [(s, (0, [s]))]) t
              = Some (d, p).
Proof.
  intros W.
  assert (Hn : nonneg_weights (fun _ : A => 0) g) by (intros k a _; lra).
  destruct (Walk_without_cycle Hn (le_n (length q)) W) as (q' & W' & ND & _).
  destruct (rounds_optimal W' (simple_walk_length W' ND)) as (d & p & L & _).
  eauto.
Qed.

End BellmanFordFacts.

Lemma reference_solver_laws : ShortestPathLaws reference_solver.
Proof.
  constructor; unfold shortest_path, reference_solver, bellman_ford.
  - intros N E A w g s t Hno.
    destruct (has_node g s && has_node g t) eqn:Hn; [|reflexivity].
    exfalso. apply Hno. apply andb_true_iff in Hn.
    now rewrite <- !has_node_iff.
  - intros N E A w g s Hs. apply has_node_iff in Hs. rewrite Hs. simpl.
    now rewrite eqb_refl.
  - intros N E A w g s t Hs Ht Hnone.
    apply has_node_iff in Hs, Ht. rewrite Hs, Ht. simpl.
    destruct (eqb s t) eqn:Est.
    + apply eqb_eq in Est. subst t. exfalso. apply (Hnone [s]). constructor.
    + destruct (lookup _ t) as [[d p]|] eqn:L; [|reflexivity].
      exfalso. apply (Hnone p).
      eapply (@rounds_sound N E A w g s); [apply start_sound|exact L].
  - intros N E A w g s t q Hs Ht W.
    apply has_node_iff in Hs, Ht. rewrite Hs, Ht. simpl.
    destruct (eqb s t); [eauto|].
    destruct (@bellman_ford_reaches N E A w g s t q W) as (d & p & ->). eauto.
  - intros N E A w g s t p.
    destruct (has_node g s && has_node g t); [|discriminate].
    destruct (eqb s t) eqn:Est.
    + apply eqb_eq in Est. subst t. intros [= <-]. constructor.
    + destruct (lookup _ t) as [[d p']|] eqn:L; [|discriminate].
      intros [= <-].
      eapply (@rounds_sound N E A w g s); [apply start_sound|exact L].
  - intros N E A w g s t p q Hn.
    destruct (has_node g s && has_node g t); [|discriminate].
    destruct (eqb s t) eqn:Est.
    + intros [= <-] W. simpl. now apply walk_weight_nonneg.
    + destruct (lookup _ t) as [[d p']|] eqn:L; [|discriminate].
      intros [= <-] W.
      destruct (@bellman_ford_optimal N E A w g s t q Hn W)
        as (d' & p'' & L' & Le).
      rewrite L in L'. injection L' as <- <-.
      destruct (@rounds_sound N E A w g s (enough_rounds g) _
                  (@start_sound N E A w g s) _ _ _ L) as [_ Ew].
      lra.
Qed.

(** ** The computable plane meets the laws of the geometry *)

Lemma sqrt_up_nonneg (a : Q) : 0 <= BoxWorld.sqrt_up a.
Proof.
  unfold BoxWorld.sqrt_up.
  pose proof (Z.sqrt_up_nonneg (Qceiling (a * inject_Z (10 ^ 12)))) as Hs.
  revert Hs. generalize (Z.sqrt_up (Qceiling (a * inject_Z (10 ^ 12)))).
  intros z Hz. unfold Qle. cbn [Qnum Qden]. lia.
Qed.

Lemma sqrt_up_comp (a b : Q) : a == b -> BoxWorld.sqrt_up a = BoxWorld.sqrt_up b.
Proof.
  intros E. unfold BoxWorld.sqrt_up.
  assert (Hc : Qceiling (a * inject_Z (10 ^ 12)) =
               Qceiling (b * inject_Z (10 ^ 12))).
  { apply Qceiling_comp. now rewrite E. }
  now rewrite Hc.
Qed.

Lemma sqrt_up_zero : BoxWorld.sqrt_up 0 == 0.
Proof. reflexivity. Qed.

Lemma sqrt_up_pos (a : Q) : 0 < a -> 0 < BoxWorld.sqrt_up a.
Proof.
  intros Ha. unfold BoxWorld.sqrt_up.
  assert (Hc : (0 < Qceiling (a * inject_Z (10 ^ 12)))%Z).
  { pose proof (Qle_ceiling (a * inject_Z (10 ^ 12))) as Hle.
    assert (Hs : 0 < a * inject_Z (10 ^ 12)).
    { apply Qmult_lt_0_compat; [assumption|reflexivity]. }
    assert (Hi : inject_Z 0 < inject_Z (Qceiling (a * inject_Z (10 ^ 12)))).
    { change (inject_Z 0) with 0. lra. }
    now rewrite <- Zlt_Qlt in Hi. }
  pose proof (Z.sqrt_up_pos (Qceiling (a * inject_Z (10 ^ 12)))) as Hp.
  apply Hp in Hc. revert Hc.
  generalize (Z.sqrt_up (Qceiling (a * inject_Z (10 ^ 12)))).
  intros z Hz. unfold Qlt. cbn [Qnum Qden]. lia.
Qed.

Lemma square_pos (d : Q) : ~ d == 0 -> 0 < d * d.
Proof.
  intros Hd. destruct (Qlt_le_dec 0 d) as [Hp|Hn].
  - now apply Qmult_lt_0_compat.
  - assert (Hlt : d < 0).
    { apply Qle_lteq in Hn. destruct Hn as [Hn|Hn]; [assumption|].
      exfalso. apply Hd. assumption. }
    assert (H0 : 0 < (- d) * (- d)) by (apply Qmult_lt_0_compat; lra).
    assert (E : (- d) * (- d) == d * d) by ring.
    lra.
Qed.

Lemma square_nonneg (d : Q) : 0 <= d * d.
Proof.
  destruct (Qeq_dec d 0) as [E|D].
  - rewrite E. lra.
  - apply Qlt_le_weak. now apply square_pos.
Qed.

Lemma Coordinate_neq (a b : Coordinate) :
  a <> b -> ~ (x a - x b == 0) \/ ~ (y a - y b == 0).
Proof.
  intros D. destruct (Qeq_dec (x a) (x b)) as [Ex|Dx].
  - right. intros Ey. apply D. destruct a as [a1 a2], b as [b1 b2].
    simpl in *. f_equal; apply Qc_is_canon; lra.
  - left. lra.
Qed.

Lemma BoxWorld_laws : GeometryLaws BoxWorld.geometry.
Proof.
  constructor; simpl; unfold BoxWorld.box_distance.
  - intros a b. apply sqrt_up_nonneg.
  - intros a. rewrite (@sqrt_up_comp _ 0); [apply sqrt_up_zero|ring].
  - intros a b D. apply sqrt_up_pos.
    pose proof (square_nonneg (x a - x b)).
    pose proof (square_nonneg (y a - y b)).
    destruct (Coordinate_neq D) as [Hx|Hy].
    + pose proof (square_pos Hx). lra.
    + pose proof (square_pos Hy). lra.
  - intros a b. rewrite (@sqrt_up_comp _
      ((x b - x a) * (x b - x a) + (y b - y a) * (y b - y a)));
      [reflexivity|ring].
  - intros P a b. unfold BoxWorld.box_intersects. apply orb_comm.
Qed.

(** ** Floors, ceilings and Python's float operators *)

Lemma floor_le_iff (z : Z) (a : Q) : (z <= Qfloor a)%Z <-> inject_Z z <= a.
Proof.
  split.
  - intros L. apply Qle_trans with (inject_Z (Qfloor a)).
    + now rewrite <- Zle_Qle.
    + apply Qfloor_le.
  - intros L. pose proof (Qlt_floor a) as Hf.
    assert (Hz : inject_Z z < inject_Z (Qfloor a + 1)) by lra.
    rewrite <- Zlt_Qlt in Hz. lia.
Qed.

Lemma ceiling_le_iff (z : Z) (a : Q) : (Qceiling a <= z)%Z <-> a <= inject_Z z.
Proof.
  split.
  - intros L. apply Qle_trans with (inject_Z (Qceiling a)).
    + apply Qle_ceiling.
    + now rewrite <- Zle_Qle.
  - intros L. pose proof (Qceiling_lt a) as Hc.
    assert (Hz : inject_Z (Qceiling a - 1) < inject_Z z) by lra.
    rewrite <- Zlt_Qlt in Hz. lia.
Qed.

Lemma mult_div_cancel (a q : Q) : 0 < q -> a / q * q == a.
Proof. intros Hq. field. lra. Qed.

Lemma div_ge_iff (a r q : Q) : 0 < q -> (a <= r / q <-> a * q <= r).
Proof.
  intros Hq. split.
  - intros L. rewrite <- (mult_div_cancel r Hq).
    apply Qmult_le_compat_r; lra.
  - intros L. now apply Qle_shift_div_l.
Qed.

Lemma div_lt_iff (a r q : Q) : 0 < q -> (r / q < a <-> r < a * q).
Proof.
  intros Hq. split.
  - intros L. rewrite <- (mult_div_cancel r Hq).
    apply Qmult_lt_compat_r; assumption.
  - intros L. now apply Qlt_shift_div_r.
Qed.

Lemma div_le_iff (a r q : Q) : 0 < q -> (r / q <= a <-> r <= a * q).
Proof.
  intros Hq. split.
  - intros L. rewrite <- (mult_div_cancel r Hq).
    apply Qmult_le_compat_r; lra.
  - intros L. now apply Qle_shift_div_r.
Qed.

Lemma inject_Z_succ (z : Z) : inject_Z (z + 1) == inject_Z z + 1.
Proof. rewrite inject_Z_plus. reflexivity. Qed.

Lemma inject_Z_pred (z : Z) : inject_Z (z - 1) == inject_Z z - 1.
Proof.
  unfold Z.sub. rewrite inject_Z_plus, inject_Z_opp. reflexivity.
Qed.

Lemma mod_range (a m : Q) :
  0 < m -> 0 <= PyFloat.mod_ a m /\ PyFloat.mod_ a m < m.
Proof.
  intros Hm. unfold PyFloat.mod_, PyFloat.floordiv.
  pose proof (Qfloor_le (a / m)) as Hlo.
  pose proof (Qlt_floor (a / m)) as Hhi.
  rewrite inject_Z_succ in Hhi.
  apply (div_ge_iff _ _ Hm) in Hlo.
  apply (div_lt_iff _ _ Hm) in Hhi.
  split; lra.
Qed.

Lemma ceiling_unique (z : Z) (a : Q) :
  inject_Z z - 1 < a -> a <= inject_Z z -> Qceiling a = z.
Proof.
  intros Hlo Hhi.
  apply ceiling_le_iff in Hhi.
  pose proof (Qle_ceiling a) as Hc.
  assert (Hz : inject_Z (z - 1) < inject_Z (Qceiling a)).
  { rewrite inject_Z_pred. lra. }
  rewrite <- Zlt_Qlt in Hz. lia.
Qed.

(** The rounding up of [add_detected_edge] is [ceil(d/quanta)*quanta]. *)
Lemma rounded_detection_ceiling (quanta d : Q) :
  0 < quanta ->
  Stage3.rounded_detection quanta d == inject_Z (Qceiling (d / quanta)) * quanta.
Proof.
  intros Hq. unfold Stage3.rounded_detection.
  pose proof (mod_range d Hq) as [Hlo Hhi].
  pose proof (Qfloor_le (d / quanta)) as Hfl.
  pose proof (Qlt_floor (d / quanta)) as Hfh.
  rewrite inject_Z_succ in Hfh.
  pose proof (mult_div_cancel d Hq) as Hd.
  unfold PyFloat.mod_, PyFloat.floordiv in *.
  destruct (Qlt_bool 0 _) eqn:Hpos.
  - apply Qlt_bool_iff in Hpos.
    assert (Hc : Qceiling (d / quanta) = (Qfloor (d / quanta) + 1)%Z).
    { apply ceiling_unique.
      - rewrite inject_Z_succ.
        apply Qnot_le_lt. intros Hle.
        apply (div_le_iff _ _ Hq) in Hle. lra.
      - rewrite inject_Z_succ. lra. }
    rewrite Hc, inject_Z_succ. reflexivity.
  - apply Qlt_bool_false_iff in Hpos.
    assert (He : d / quanta == inject_Z (Qfloor (d / quanta))).
    { apply Qle_antisym; [|assumption].
      apply (div_le_iff _ _ Hq). lra. }
    assert (Hc : Qceiling (d / quanta) = Qfloor (d / quanta)).
    { rewrite He at 1. apply Qceiling_Z. }
    rewrite Hc, <- He. lra.
Qed.

(** ** The radar *)

Lemma pi_pos : 0 < PyFloat.pi.
Proof. reflexivity. Qed.

Lemma radians_45 : PyFloat.radians 45 == PyFloat.pi / 4.
Proof. unfold PyFloat.radians. field. Qed.

Lemma radians_90 : PyFloat.radians 90 == PyFloat.pi / 2.
Proof. unfold PyFloat.radians. field. Qed.

(** The folded difference lies between 0 and 90 degrees. *)
Lemma direction_diff_range (direction1 direction2 : Q) :
  0 <= Radar_._compute_direction_diff direction1 direction2 /\
  Radar_._compute_direction_diff direction1 direction2 <= PyFloat.radians 90.
Proof.
  rewrite radians_90. unfold Radar_._compute_direction_diff.
  pose proof pi_pos as Hpi.
  assert (H2pi : 0 < 2 * PyFloat.pi) by lra.
  destruct (mod_range (direction1 - direction2) H2pi) as [Hlo Hhi].
  revert Hlo Hhi.
  generalize (PyFloat.mod_ (direction1 - direction2) (2 * PyFloat.pi)).
  intros r Hlo Hhi. cbv zeta.
  assert (Eh : PyFloat.pi / 2 == (1 # 2) * PyFloat.pi) by field.
  assert (Et : 3 * PyFloat.pi / 2 == (3 # 2) * PyFloat.pi) by field.
  revert Eh Et. generalize (PyFloat.pi / 2) (3 * PyFloat.pi / 2).
  intros h t Eh Et.
  destruct (Qle_bool r h) eqn:C1.
  { apply Qle_bool_iff in C1. split; lra. }
  apply Qle_bool_false_iff in C1.
  destruct (Qle_bool r PyFloat.pi) eqn:C2.
  { apply Qle_bool_iff in C2. split; lra. }
  apply Qle_bool_false_iff in C2.
  destruct (Qle_bool r t) eqn:C3.
  { apply Qle_bool_iff in C3. split; lra. }
  apply Qle_bool_false_iff in C3. split; lra.
Qed.

Lemma undetected_at_false `{Geometry} (center : Coordinate)
  (movement_direction : Q) (ps : list Coordinate) :
  Radar_.undetected_at center movement_direction ps = false <->
  exists p, In p ps /\
            Radar_._compute_direction_diff movement_direction
              (direction_to p center) < PyFloat.radians 45.
Proof.
  induction ps as [|p ps IH]; simpl.
  - split; [discriminate|intros (p & [] & _)].
  - destruct (Qlt_bool _ (PyFloat.radians 45)) eqn:C.
    + apply Qlt_bool_iff in C. split; [|reflexivity].
      intros _. exists p. split; [now left|assumption].
    + apply Qlt_bool_false_iff in C. rewrite IH. split.
      * intros (p' & Hin & Hlt). exists p'. split; [now right|assumption].
      * intros (p' & [<-|Hin] & Hlt); [lra|]. exists p'. now split.
Qed.


(** ** Roadmap sampling *)

Lemma fold_left_invariant {S T : Type} (P : S -> Prop) (f : S -> T -> S)
  (l : list T) : forall s0,
  P s0 -> (forall s a, In a l -> P s -> P (f s a)) -> P (fold_left f l s0).
Proof.
  induction l as [|a l IH]; intros s0 H0 Hstep; simpl; [assumption|].
  apply IH.
  - apply Hstep; [now left|assumption].
  - intros s b Hb. apply Hstep. now right.
Qed.

Lemma sample_in_polygon_contains `{Geometry} (polygon_ : Polygon) :
  forall n (draws : Draws) c rest,
    (length draws <= n)%nat ->
    Stage2.sample_in_polygon polygon_ draws = Return (c, rest) ->
    contains polygon_ c = true.
Proof.
  induction n as [|n IH]; intros draws c rest L.
  - destruct draws; [|simpl in L; lia].
    simpl. destruct (bounds polygon_) as [[[l b] r] t]. discriminate.
  - destruct draws as [|u1 [|u2 draws]]; simpl;
      destruct (bounds polygon_) as [[[l b] r] t] eqn:Eb; try discriminate.
    destruct (contains polygon_ (coordinate (uniform l r u1) (uniform b t u2)))
      eqn:C.
    + intros [= <- <-]. assumption.
    + intros S. apply (IH draws c rest); [simpl in L; lia|].
      destruct draws as [|v1 [|v2 draws']]; simpl in *; rewrite ?Eb in *;
        assumption.
Qed.

Lemma sample_many_contains `{Geometry} (polygon_ : Polygon) :
  forall n (draws : Draws) new rest,
    Stage2.sample_many polygon_ n draws = Return (new, rest) ->
    forall c, In c new -> contains polygon_ c = true.
Proof.
  induction n as [|n IH]; intros draws new rest; simpl.
  - intros [= <- <-] c [].
  - destruct (Stage2.sample_in_polygon polygon_ draws) as [[c0 d0]| |] eqn:S0;
      simpl; try discriminate.
    destruct (Stage2.sample_many polygon_ n d0) as [[more d1]| |] eqn:S1;
      simpl; try discriminate.
    intros [= <- <-] c [<-|Hin].
    + eapply sample_in_polygon_contains; [apply le_n|eassumption].
    + eapply IH; eassumption.
Qed.

Lemma sample_radars_contains `{Geometry} (n : nat) :
  forall radars (draws : Draws) new rest,
    Stage2.sample_radars radars n draws = Return (new, rest) ->
    forall c, In c new ->
    exists center radius,
      In (center, radius) radars /\
      contains (Radar_.circle center radius) c = true.
Proof.
  induction radars as [|[center radius] radars IH]; intros draws new rest;
    simpl.
  - intros [= <- <-] c [].
  - destruct (Stage2.sample_many _ n draws) as [[new0 d0]| |] eqn:S0;
      simpl; try discriminate.
    destruct (Stage2.sample_radars radars n d0) as [[more d1]| |] eqn:S1;
      simpl; try discriminate.
    intros [= <- <-] c Hin. apply in_app_or in Hin. destruct Hin as [Hin|Hin].
    + exists center, radius. split; [now left|].
      eapply sample_many_contains; eassumption.
    + destruct (IH _ _ _ S1 c Hin) as (c' & r' & Hr & Hc).
      exists c', r'. split; [now right|assumption].
Qed.

Lemma In_radars_of (enemies : list Enemy) center radius :
  In (center, radius) (Stage2.radars_of enemies) <->
  In (Radar center radius) enemies.
Proof.
  unfold Stage2.radars_of. rewrite in_flat_map. split.
  - intros (e & He & Hin). destruct e; simpl in Hin; try contradiction.
    destruct Hin as [[= <- <-]|[]]. assumption.
  - intros Hin. exists (Radar center radius). split; [assumption|now left].
Qed.

Lemma Stage2_connect_node_nodes `{Geometry} enemies (graph : Stage2.Graph) node n :
  In n (nodes (Stage2.connect_node enemies graph node)) ->
  n = node \/ In n (nodes graph).
Proof.
  unfold Stage2.connect_node. revert n.
  apply fold_left_invariant
    with (P := fun g : Stage2.Graph =>
                 forall n, In n (nodes g) -> n = node \/ In n (nodes graph)).
  - intros n Hn. now apply nodes_add_node in Hn.
  - intros g other Hother Hg n.
    apply nodes_add_node in Hother.
    destruct (eqb other node || Qlt_bool _ _); [apply Hg|].
    assert (Hg' : forall n,
               In n (nodes (if Stage2.is_legal_leg other node enemies
                            then add_edge g other node (distance_to node other)
                            else g)) ->
               n = node \/ In n (nodes graph)).
    { intros m. destruct (Stage2.is_legal_leg other node enemies); [|apply Hg].
      rewrite nodes_add_edge. intros [->|[->|Hm]]; auto. }
    destruct (Stage2.is_legal_leg node other enemies); [|apply Hg'].
    rewrite nodes_add_edge. intros [->|[->|Hm]]; auto.
Qed.

Lemma Stage3_connect_node_nodes `{Geometry} enemies (graph : Stage3.Graph) node n :
  In n (nodes (Stage3.connect_node enemies graph node)) ->
  n = node \/ In n (nodes graph).
Proof.
  unfold Stage3.connect_node. revert n.
  apply fold_left_invariant
    with (P := fun g : Stage3.Graph =>
                 forall n, In n (nodes g) -> n = node \/ In n (nodes graph)).
  - intros n Hn. now apply nodes_add_node in Hn.
  - intros g other Hother Hg n.
    apply nodes_add_node in Hother.
    destruct (eqb other node || Qlt_bool _ _); [apply Hg|].
    destruct (negb _); [apply Hg|].
    rewrite !nodes_add_edge. intros [->|[->|[->|[->|Hm]]]]; auto.
Qed.

(** C10. A coordinate returned by [sample_in_polygon] is contained in the
    polygon it was sampled in, and every node that
    [add_nodes_inside_radars] adds to the graph is such a sample, inside
    the circle of one of the radars of the scenario. *)
Theorem sampled_nodes_inside_radar `{Geometry} :
  (forall polygon_ (draws : Draws) c rest,
      Stage2.sample_in_polygon polygon_ draws = Return (c, rest) ->
      contains polygon_ c = true) /\
  (forall (graph graph' : Stage2.Graph) enemies (draws rest : Draws),
      Stage2.add_nodes_inside_radars graph enemies draws = Return (graph', rest) ->
      forall n, In n (nodes graph') ->
      In n (nodes graph) \/
      exists center radius,
        In (Radar center radius) enemies /\
        contains (Radar_.circle center radius) n = true) /\
  (forall (graph graph' : Stage3.Graph) enemies (draws rest : Draws),
      Stage3.add_nodes_inside_radars graph enemies draws = Return (graph', rest) ->
      forall n, In n (nodes graph') ->
      In n (nodes graph) \/
      exists center radius,
        In (Radar center radius) enemies /\
        contains (Radar_.circle center radius) n = true).
Proof.
  split; [|split].
  - intros polygon_ draws c rest. now apply sample_in_polygon_contains with (n := length draws).
  - intros graph graph' enemies draws rest.
    unfold Stage2.add_nodes_inside_radars.
    destruct (Nat.eqb _ 0); [intros [= <- <-] n Hn; now left|].
    destruct (Stage2.sample_radars _ _ draws) as [[new d0]| |] eqn:S0;
      simpl; try discriminate.
    intros [= <- <-].
    apply fold_left_invariant
      with (P := fun g : Stage2.Graph =>
                   forall n, In n (nodes g) ->
                   In n (nodes graph) \/
                   exists center radius,
                     In (Radar center radius) enemies /\
                     contains (Radar_.circle center radius) n = true).
    + intros n Hn. now left.
    + intros g node Hnode Hg n Hn.
      apply Stage2_connect_node_nodes in Hn. destruct Hn as [->|Hn]; [|auto].
      right. destruct (sample_radars_contains _ _ _ S0 _ Hnode)
        as (center & radius & Hr & Hc).
      exists center, radius. split; [now apply In_radars_of|assumption].
  - intros graph graph' enemies draws rest.
    unfold Stage3.add_nodes_inside_radars, Stage3.sample_radars,
      Stage3.radars_of.
    destruct (Nat.eqb _ 0); [intros [= <- <-] n Hn; now left|].
    destruct (Stage2.sample_radars _ _ draws) as [[new d0]| |] eqn:S0;
      simpl; try discriminate.
    intros [= <- <-].
    apply fold_left_invariant
      with (P := fun g : Stage3.Graph =>
                   forall n, In n (nodes g) ->
                   In n (nodes graph) \/
                   exists center radius,
                     In (Radar center radius) enemies /\
                     contains (Radar_.circle center radius) n = true).
    + intros n Hn. now left.
    + intros g node Hnode Hg n Hn.
      apply Stage3_connect_node_nodes in Hn. destruct Hn as [->|Hn]; [|auto].
      right. destruct (sample_radars_contains _ _ _ S0 _ Hnode)
        as (center & radius & Hr & Hc).
      exists center, radius. split; [now apply In_radars_of|assumption].
Qed.

(** ** The layers graph, call by call *)

Lemma layered_eq node (a b : Q) :
  a == b -> Stage3.layered node a = Stage3.layered node b.
Proof. intros E. unfold Stage3.layered. f_equal. now apply Q2Qc_eq_iff. Qed.

Lemma layered_inj node node' (a b : Q) :
  Stage3.layered node a = Stage3.layered node' b -> node = node' /\ a == b.
Proof.
  unfold Stage3.layered. intros E. split.
  - exact (f_equal fst E).
  - apply Q2Qc_eq_iff. exact (f_equal snd E).
Qed.

Lemma of_nat_succ k : PyFloat.of_nat (S k) == PyFloat.of_nat k + 1.
Proof.
  unfold PyFloat.of_nat. rewrite Nat2Z.inj_succ. unfold Z.succ.
  apply inject_Z_succ.
Qed.

Lemma of_nat_nonneg k : 0 <= PyFloat.of_nat k.
Proof.
  unfold PyFloat.of_nat. change 0 with (inject_Z 0). rewrite <- Zle_Qle. lia.
Qed.

Lemma layer_count_spec (room quanta : Q) (k : nat) :
  0 < quanta ->
  (k < layer_count room quanta)%nat <-> PyFloat.of_nat k * quanta <= room.
Proof.
  intros Hq. unfold layer_count, PyFloat.of_nat.
  rewrite <- (div_ge_iff _ _ Hq), <- floor_le_iff. lia.
Qed.

Lemma insert_all_app {N A : Type} `{EqDec N} (a b : list ((N * N) * A)) g :
  insert_all (a ++ b) g = insert_all b (insert_all a g).
Proof. unfold insert_all. apply fold_left_app. Qed.

Lemma add_legal_edge_loop_closed (max_detection quanta : Q) u v d :
  0 < quanta ->
  forall n fuel g layer,
    (n < fuel)%nat ->
    (forall j, (j < n)%nat <->
               layer + PyFloat.of_nat j * quanta <= max_detection) ->
    Stage3.add_legal_edge_loop fuel g max_detection quanta u v d layer =
    Return (insert_all
              (map (fun j =>
                      ((Stage3.layered u (layer + PyFloat.of_nat j * quanta),
                        Stage3.layered v (layer + PyFloat.of_nat j * quanta)), d))
                   (seq 0 n)) g).
Proof.
  intros Hq. induction n as [|n IH]; intros fuel g layer Hf Hn.
  - destruct fuel as [|fuel]; [lia|]. simpl.
    destruct (Qle_bool layer max_detection) eqn:C; [|reflexivity].
    apply Qle_bool_iff in C. exfalso.
    assert (H0 : (0 < 0)%nat); [|lia].
    apply Hn. change (PyFloat.of_nat 0) with 0. lra.
  - destruct fuel as [|fuel]; [lia|]. simpl.
    assert (C : Qle_bool layer max_detection = true).
    { apply Qle_bool_iff. assert (H0 : (0 < S n)%nat) by lia.
      apply Hn in H0. change (PyFloat.of_nat 0) with 0 in H0. lra. }
    rewrite C. rewrite (IH fuel _ (layer + quanta)); [|lia|].
    + f_equal. unfold insert_all. simpl.
      rewrite <- seq_shift, map_map.
      rewrite (layered_eq u (a := layer + PyFloat.of_nat 0 * quanta) (b := layer));
        [|change (PyFloat.of_nat 0) with 0; lra].
      rewrite (layered_eq v (a := layer + PyFloat.of_nat 0 * quanta) (b := layer));
        [|change (PyFloat.of_nat 0) with 0; lra].
      f_equal. apply map_ext. intros j.
      rewrite (layered_eq u (a := layer + quanta + PyFloat.of_nat j * quanta)
                 (b := layer + PyFloat.of_nat (S j) * quanta));
        [|rewrite of_nat_succ; lra].
      rewrite (layered_eq v (a := layer + quanta + PyFloat.of_nat j * quanta)
                 (b := layer + PyFloat.of_nat (S j) * quanta));
        [|rewrite of_nat_succ; lra].
      reflexivity.
    + intros j. specialize (Hn (S j)). rewrite of_nat_succ in Hn.
      split; intros Hj.
      * assert (Hs : (S j < S n)%nat) by lia. apply Hn in Hs. lra.
      * assert (Hs : (S j < S n)%nat); [|lia]. apply Hn. lra.
Qed.

Lemma add_detected_edge_loop_closed (max_detection quanta : Q) u v d detection :
  0 < quanta ->
  forall n fuel g layer,
    (n < fuel)%nat ->
    (forall j, (j < n)%nat <->
               layer + PyFloat.of_nat j * quanta + detection <= max_detection) ->
    Stage3.add_detected_edge_loop fuel g max_detection quanta u v d detection
      layer =
    Return (insert_all
              (map (fun j =>
                      ((Stage3.layered u (layer + PyFloat.of_nat j * quanta),
                        Stage3.layered v (layer + PyFloat.of_nat j * quanta
                                          + detection)), d))
                   (seq 0 n)) g).
Proof.
  intros Hq. induction n as [|n IH]; intros fuel g layer Hf Hn.
  - destruct fuel as [|fuel]; [lia|]. simpl.
    destruct (Qle_bool (layer + detection) max_detection) eqn:C; [|reflexivity].
    apply Qle_bool_iff in C. exfalso.
    assert (H0 : (0 < 0)%nat); [|lia].
    apply Hn. change (PyFloat.of_nat 0) with 0. lra.
  - destruct fuel as [|fuel]; [lia|]. simpl.
    assert (C : Qle_bool (layer + detection) max_detection = true).
    { apply Qle_bool_iff. assert (H0 : (0 < S n)%nat) by lia.
      apply Hn in H0. change (PyFloat.of_nat 0) with 0 in H0. lra. }
    rewrite C. rewrite (IH fuel _ (layer + quanta)); [|lia|].
    + f_equal. unfold insert_all. simpl.
      rewrite <- seq_shift, map_map.
      rewrite (layered_eq u (a := layer + PyFloat.of_nat 0 * quanta) (b := layer));
        [|change (PyFloat.of_nat 0) with 0; lra].
      rewrite (layered_eq v
                 (a := layer + PyFloat.of_nat 0 * quanta + detection)
                 (b := layer + detection));
        [|change (PyFloat.of_nat 0) with 0; lra].
      f_equal. apply map_ext. intros j.
      rewrite (layered_eq u (a := layer + quanta + PyFloat.of_nat j * quanta)
                 (b := layer + PyFloat.of_nat (S j) * quanta));
        [|rewrite of_nat_succ; lra].
      rewrite (layered_eq v
                 (a := layer + quanta + PyFloat.of_nat j * quanta + detection)
                 (b := layer + PyFloat.of_nat (S j) * quanta + detection));
        [|rewrite of_nat_succ; lra].
      reflexivity.
    + intros j. specialize (Hn (S j)). rewrite of_nat_succ in Hn.
      split; intros Hj.
      * assert (Hs : (S j < S n)%nat) by lia. apply Hn in Hs. lra.
      * assert (Hs : (S j < S n)%nat); [|lia]. apply Hn. lra.
Qed.

Lemma add_legal_edge_closed g (max_detection quanta : Q) u v d :
  0 < quanta ->
  Stage3.add_legal_edge g max_detection quanta u v d =
  Return (insert_all (legal_copies max_detection quanta u v d) g).
Proof.
  intros Hq. unfold Stage3.add_legal_edge, Stage3.loop_fuel.
  fold (layer_count max_detection quanta).
  rewrite (@add_legal_edge_loop_closed max_detection quanta u v d Hq
             (layer_count max_detection quanta)).
  - f_equal. unfold legal_copies. f_equal. apply map_ext. intros j.
    rewrite (layered_eq u (a := 0 + PyFloat.of_nat j * quanta)
               (b := PyFloat.of_nat j * quanta)) by lra.
    rewrite (layered_eq v (a := 0 + PyFloat.of_nat j * quanta)
               (b := PyFloat.of_nat j * quanta)) by lra.
    reflexivity.
  - lia.
  - intros j. rewrite (layer_count_spec _ _ Hq). split; intros; lra.
Qed.

Lemma layer_count_comp (a b quanta : Q) :
  a == b -> layer_count a quanta = layer_count b quanta.
Proof.
  intros E. unfold layer_count.
  assert (Hf : Qfloor (a / quanta) = Qfloor (b / quanta)).
  { apply Qfloor_comp. now rewrite E. }
  now rewrite Hf.
Qed.

Lemma add_detected_edge_closed g (max_detection quanta : Q) u v d :
  0 < quanta ->
  Stage3.add_detected_edge g max_detection quanta u v d =
  Return (insert_all (detected_copies max_detection quanta u v d) g).
Proof.
  intros Hq. unfold Stage3.add_detected_edge, Stage3.loop_fuel.
  cbv zeta.
  pose proof (rounded_detection_ceiling d Hq) as Hr.
  fold (ceil_to_quanta quanta d) in Hr.
  fold (layer_count (max_detection - Stage3.rounded_detection quanta d) quanta).
  rewrite (@add_detected_edge_loop_closed max_detection quanta u v d
             (Stage3.rounded_detection quanta d) Hq
             (layer_count (max_detection - Stage3.rounded_detection quanta d)
                          quanta)).
  - f_equal. unfold detected_copies.
    rewrite (@layer_count_comp
               (max_detection - Stage3.rounded_detection quanta d)
               (max_detection - ceil_to_quanta quanta d)) by lra.
    f_equal. apply map_ext. intros j.
    rewrite (layered_eq u (a := 0 + PyFloat.of_nat j * quanta)
               (b := PyFloat.of_nat j * quanta)) by lra.
    rewrite (layered_eq v
               (a := 0 + PyFloat.of_nat j * quanta
                     + Stage3.rounded_detection quanta d)
               (b := PyFloat.of_nat j * quanta + ceil_to_quanta quanta d))
      by lra.
    reflexivity.
  - lia.
  - intros j. rewrite (layer_count_spec _ _ Hq). split; intros; lra.
Qed.

Lemma add_edges_closed (max_detection quanta : Q) :
  0 < quanta ->
  forall es g,
    Stage3.add_edges es g max_detection quanta =
    Return (insert_all (flat_map (edge_copies max_detection quanta) es) g).
Proof.
  intros Hq. induction es as [|[[u v] [d det]] es IH]; intros g.
  - reflexivity.
  - cbn [Stage3.add_edges flat_map Stage3.detected Stage3.dist].
    rewrite insert_all_app. destruct det.
    + change (edge_copies max_detection quanta (u, v, Stage3.mkAttr d true))
        with (detected_copies max_detection quanta u v d).
      rewrite (@add_detected_edge_closed g max_detection quanta u v d Hq).
      simpl. apply IH.
    + change (edge_copies max_detection quanta (u, v, Stage3.mkAttr d false))
        with (legal_copies max_detection quanta u v d).
      rewrite (@add_legal_edge_closed g max_detection quanta u v d Hq).
      simpl. apply IH.
Qed.

Lemma int_inject_Z (z : Z) : PyFloat.int (inject_Z z) = z.
Proof.
  unfold PyFloat.int. destruct (Qle_bool 0 (inject_Z z)).
  - apply Qfloor_Z.
  - apply Qceiling_Z.
Qed.

Lemma layers_of_closed (max_detection quanta : Q) :
  Stage3.layers_of max_detection quanta =
  map (fun i => quanta * PyFloat.of_nat i)
      (seq 0 (layer_count max_detection quanta)).
Proof.
  unfold Stage3.layers_of, PyFloat.range, PyFloat.floordiv, layer_count.
  now rewrite int_inject_Z.
Qed.

Lemma combine_with_tail {A B : Type} (f : A -> B) (l : list A) (d : A) :
  combine (map f l) (tl (map f l)) =
  map (fun p => (f (fst p), f (snd p))) (combine l (tl l)).
Proof.
  destruct l as [|a l]; [reflexivity|]. simpl.
  revert a. induction l as [|b l IH]; intros a; simpl; [reflexivity|].
  now rewrite IH.
Qed.

Lemma combine_seq_tail (n a : nat) :
  combine (seq a n) (tl (seq a n)) = map (fun k => (k, S k)) (seq a (n - 1)).
Proof.
  revert a. induction n as [|n IH]; intros a; [reflexivity|].
  destruct n as [|n]; [reflexivity|].
  change (seq a (S (S n))) with (a :: seq (S a) (S n)).
  change (tl (a :: seq (S a) (S n))) with (seq (S a) (S n)).
  change (seq (S a) (S n)) with (S a :: seq (S (S a)) n) at 1.
  cbn [combine].
  specialize (IH (S a)).
  change (seq (S a) (S n)) with (S a :: seq (S (S a)) n) in IH at 1.
  change (tl (seq (S a) (S n))) with (seq (S (S a)) n) in IH.
  change (seq (S a) (S n)) with (S a :: seq (S (S a)) n).
  cbn [combine] in IH.
  replace (S (S n) - 1)%nat with (S n) by lia.
  replace (S n - 1)%nat with n in IH by lia.
  cbn [seq map]. f_equal.
  destruct n as [|n]; [reflexivity|].
  cbn [seq combine tl] in *. exact IH.
Qed.

Lemma add_target_edges_closed g (max_detection quanta : Q) target :
  Stage3.add_target_edges g (Stage3.layers_of max_detection quanta) target =
  insert_all (target_links max_detection quanta target) g.
Proof.
  unfold Stage3.add_target_edges, insert_all, target_links.
  rewrite layers_of_closed, (combine_with_tail _ _ 0%nat), combine_seq_tail.
  rewrite !map_map. generalize (seq 0 (layer_count max_detection quanta - 1)).
  intros l. revert g. induction l as [|k l IH]; intros g; simpl; [reflexivity|].
  rewrite <- IH. f_equal. f_equal; apply layered_eq; lra.
Qed.

Lemma last_item_layers (max_detection quanta : Q) :
  last_item (Stage3.layers_of max_detection quanta) =
  match layer_count max_detection quanta with
  | O => Raise IndexError
  | S m => Return (quanta * PyFloat.of_nat m)
  end.
Proof.
  rewrite layers_of_closed. unfold last_item.
  destruct (layer_count max_detection quanta) as [|m]; [reflexivity|].
  rewrite seq_S, map_app, rev_app_distr. reflexivity.
Qed.

(** [build_layers_graph] as a batch of [add_edge] calls. *)
Lemma build_layers_graph_closed `{Geometry} (graph : Stage3.Graph)
  (source target : Coordinate) (max_detection_percentage quanta : Q) :
  0 < quanta ->
  let max_detection := distance_to source target * max_detection_percentage in
  Stage3.build_layers_graph graph source target max_detection_percentage quanta
  = match layer_count max_detection quanta with
    | O => Raise IndexError
    | S m =>
        Return (insert_all
                  (flat_map (edge_copies max_detection quanta) (edges graph)
                   ++ target_links max_detection quanta target)
                  (layer_nodes graph max_detection quanta),
                Stage3.layered source 0,
                Stage3.layered target (PyFloat.of_nat m * quanta))
    end.
Proof.
  intros Hq max_detection. unfold Stage3.build_layers_graph.
  fold max_detection.
  assert (Hz : Qeq_bool quanta 0 = false).
  { destruct (Qeq_bool quanta 0) eqn:E; [|reflexivity].
    apply Qeq_bool_eq in E. lra. }
  rewrite Hz. fold (layer_nodes graph max_detection quanta).
  rewrite (add_edges_closed _ Hq). simpl.
  rewrite add_target_edges_closed, last_item_layers, insert_all_app.
  destruct (layer_count max_detection quanta) as [|m]; [reflexivity|]. simpl.
  rewrite (layered_eq target (a := quanta * PyFloat.of_nat m)
             (b := PyFloat.of_nat m * quanta)) by lra.
  reflexivity.
Qed.

Section InsertAll.

Context {N A : Type} `{EqDec N}.
Implicit Types (g : DiGraph N A) (ops : list ((N * N) * A)).

Lemma get_edge_insert_all ops : forall g u v a,
  get_edge (insert_all ops g) u v = Some a ->
  In ((u, v), a) ops \/ get_edge g u v = Some a.
Proof.
  unfold insert_all. induction ops as [|[[u0 v0] a0] ops IH]; intros g u v a;
    simpl.
  - now right.
  - intros F. destruct (IH _ _ _ _ F) as [Hin|F'].
    + left. now right.
    + rewrite get_edge_add_edge in F'.
      destruct (eqb (u, v) (u0, v0)) eqn:E.
      * apply eqb_eq in E. injection E as <- <-. injection F' as <-.
        left. now left.
      * now right.
Qed.

Lemma get_edge_insert_all_kept ops : forall g u v a,
  get_edge g u v = Some a ->
  exists a', get_edge (insert_all ops g) u v = Some a' /\
             (a' = a \/ In ((u, v), a') ops).
Proof.
  unfold insert_all. induction ops as [|[[u0 v0] a0] ops IH]; intros g u v a F;
    simpl.
  - exists a. split; [assumption|now left].
  - destruct (eqb (u, v) (u0, v0)) eqn:E.
    + destruct (IH (add_edge g u0 v0 a0) u v a0) as (a' & F' & Ha').
      * now rewrite get_edge_add_edge, E.
      * exists a'. split; [assumption|]. right.
        apply eqb_eq in E. injection E as <- <-.
        destruct Ha' as [->|Hin]; [now left|now right].
    + destruct (IH (add_edge g u0 v0 a0) u v a) as (a' & F' & Ha').
      * now rewrite get_edge_add_edge, E.
      * exists a'. split; [assumption|].
        destruct Ha' as [->|Hin]; [now left|right; now right].
Qed.

Lemma In_insert_all ops : forall g u v a,
  In ((u, v), a) ops ->
  exists a', get_edge (insert_all ops g) u v = Some a' /\ In ((u, v), a') ops.
Proof.
  induction ops as [|[[u0 v0] a0] ops IH]; intros g u v a; simpl; [intros []|].
  intros [[= -> -> ->]|Hin].
  - destruct (@get_edge_insert_all_kept ops (add_edge g u v a) u v a)
      as (a' & F' & Ha').
    + now rewrite get_edge_add_edge, eqb_refl.
    + exists a'. split; [exact F'|].
      destruct Ha' as [->|Hin]; [now left|now right].
  - destruct (IH (add_edge g u0 v0 a0) u v a Hin) as (a' & F' & Hin').
    exists a'. split; [exact F'|now right].
Qed.

Lemma nodes_insert_all ops : forall g n,
  In n (nodes g) -> In n (nodes (insert_all ops g)).
Proof.
  unfold insert_all. induction ops as [|op ops IH]; intros g n Hn; simpl.
  - assumption.
  - apply IH. apply nodes_add_edge. auto.
Qed.

Lemma unique_attribute (es : list ((N * N) * A)) k a a' :
  NoDup (map fst es) -> In (k, a) es -> In (k, a') es -> a = a'.
Proof.
  induction es as [|[k0 a0] es IH]; simpl; [intros _ []|].
  intros ND. inversion ND as [|x l Hout ND']; subst.
  intros [[= -> ->]|Hin] [[= <-]|Hin'].
  - reflexivity.
  - exfalso. apply Hout. apply in_map_iff. now exists (k, a').
  - exfalso. apply Hout. apply in_map_iff. now exists (k0, a).
  - now apply IH.
Qed.

End InsertAll.

(** ** The edges of the layers graph *)

Lemma In_legal_copies (max_detection quanta : Q) u v d k1 k2 w :
  0 < quanta ->
  In ((k1, k2), w) (legal_copies max_detection quanta u v d) <->
  exists k, PyFloat.of_nat k * quanta <= max_detection /\
            k1 = Stage3.layered u (PyFloat.of_nat k * quanta) /\
            k2 = Stage3.layered v (PyFloat.of_nat k * quanta) /\ w = d.
Proof.
  intros Hq. unfold legal_copies. rewrite in_map_iff. split.
  - intros (k & [= <- <- <-] & Hk). apply in_seq in Hk. exists k.
    repeat split. apply (layer_count_spec _ _ Hq). lia.
  - intros (k & Hk & -> & -> & ->). exists k. split; [reflexivity|].
    apply in_seq. apply (layer_count_spec _ _ Hq) in Hk. lia.
Qed.

Lemma In_detected_copies (max_detection quanta : Q) u v d k1 k2 w :
  0 < quanta ->
  In ((k1, k2), w) (detected_copies max_detection quanta u v d) <->
  exists k, PyFloat.of_nat k * quanta + ceil_to_quanta quanta d
            <= max_detection /\
            k1 = Stage3.layered u (PyFloat.of_nat k * quanta) /\
            k2 = Stage3.layered v (PyFloat.of_nat k * quanta
                                   + ceil_to_quanta quanta d) /\ w = d.
Proof.
  intros Hq. unfold detected_copies. rewrite in_map_iff. split.
  - intros (k & [= <- <- <-] & Hk). apply in_seq in Hk. exists k.
    repeat split.
    assert (Hc : (k < layer_count (max_detection - ceil_to_quanta quanta d)
                                  quanta)%nat) by lia.
    apply (layer_count_spec _ _ Hq) in Hc. lra.
  - intros (k & Hk & -> & -> & ->). exists k. split; [reflexivity|].
    apply in_seq.
    assert (Hc : (k < layer_count (max_detection - ceil_to_quanta quanta d)
                                  quanta)%nat).
    { apply (layer_count_spec _ _ Hq). lra. }
    lia.
Qed.

Lemma In_target_links (max_detection quanta : Q) target k1 k2 w :
  0 < quanta ->
  In ((k1, k2), w) (target_links max_detection quanta target) <->
  exists k, PyFloat.of_nat (S k) * quanta <= max_detection /\
            k1 = Stage3.layered target (PyFloat.of_nat k * quanta) /\
            k2 = Stage3.layered target (PyFloat.of_nat (S k) * quanta) /\
            w = 0.
Proof.
  intros Hq. unfold target_links. rewrite in_map_iff. split.
  - intros (k & [= <- <- <-] & Hk). apply in_seq in Hk. exists k.
    repeat split. apply (layer_count_spec _ _ Hq). lia.
  - intros (k & Hk & -> & -> & ->). exists k. split; [reflexivity|].
    apply in_seq. apply (layer_count_spec _ _ Hq) in Hk. lia.
Qed.

(** The batch of [build_layers_graph] holds the edges of [LayeredEdge]
    and no other. *)
Lemma In_all_copies (graph : Stage3.Graph) (max_detection quanta : Q)
  target k1 k2 w :
  0 < quanta ->
  In ((k1, k2), w)
     (flat_map (edge_copies max_detection quanta) (edges graph)
      ++ target_links max_detection quanta target) <->
  LayeredEdge graph max_detection quanta target k1 k2 w.
Proof.
  intros Hq. rewrite in_app_iff, in_flat_map. split.
  - intros [([[u v] [d det]] & He & Hin)|Hin].
    + unfold edge_copies in Hin. simpl in Hin. destruct det.
      * apply (In_detected_copies _ _ _ _ _ _ _ Hq) in Hin.
        destruct Hin as (k & Hk & -> & -> & ->). now constructor.
      * apply (In_legal_copies _ _ _ _ _ _ _ Hq) in Hin.
        destruct Hin as (k & Hk & -> & -> & ->). now constructor.
    + apply (In_target_links _ _ _ _ _ Hq) in Hin.
      destruct Hin as (k & Hk & -> & -> & ->). now constructor.
  - intros L. destruct L as [u v d k He Hk|u v d k He Hk|k Hk].
    + left. exists ((u, v), Stage3.mkAttr d false). split; [assumption|].
      unfold edge_copies. simpl. apply (In_legal_copies _ _ _ _ _ _ _ Hq).
      now exists k.
    + left. exists ((u, v), Stage3.mkAttr d true). split; [assumption|].
      unfold edge_copies. simpl. apply (In_detected_copies _ _ _ _ _ _ _ Hq).
      now exists k.
    + right. apply (In_target_links _ _ _ _ _ Hq). now exists k.
Qed.

Lemma build_layers_graph_inv `{Geometry} (graph : Stage3.Graph)
  (source target : Coordinate) (max_detection_percentage quanta : Q)
  lg source' target' :
  0 < quanta ->
  Stage3.build_layers_graph graph source target max_detection_percentage quanta
  = Return (lg, source', target') ->
  let max_detection := distance_to source target * max_detection_percentage in
  exists m,
    layer_count max_detection quanta = S m /\
    lg = insert_all
           (flat_map (edge_copies max_detection quanta) (edges graph)
            ++ target_links max_detection quanta target)
           (layer_nodes graph max_detection quanta) /\
    source' = Stage3.layered source 0 /\
    target' = Stage3.layered target (PyFloat.of_nat m * quanta).
Proof.
  intros Hq B max_detection.
  rewrite (build_layers_graph_closed graph source target
             max_detection_percentage Hq) in B.
  fold max_detection in B.
  destruct (layer_count max_detection quanta) as [|m]; [discriminate|].
  injection B as <- <- <-. exists m. repeat split.
Qed.

Lemma edges_layer_nodes (graph : Stage3.Graph) (max_detection quanta : Q) :
  edges (layer_nodes graph max_detection quanta) = [].
Proof.
  unfold layer_nodes.
  apply fold_left_invariant
    with (P := fun g : Stage3.LayersGraph => edges g = []).
  - reflexivity.
  - intros g layer _ Hg. now rewrite edges_add_nodes_from.
Qed.

Lemma nodes_layer_nodes (graph : Stage3.Graph) (max_detection quanta : Q)
  node k :
  In node (nodes graph) ->
  (k < layer_count max_detection quanta)%nat ->
  In (Stage3.layered node (PyFloat.of_nat k * quanta))
     (nodes (layer_nodes graph max_detection quanta)).
Proof.
  intros Hn Hk. unfold layer_nodes. rewrite layers_of_closed.
  assert (Hin : In (quanta * PyFloat.of_nat k)
                   (map (fun i => quanta * PyFloat.of_nat i)
                        (seq 0 (layer_count max_detection quanta)))).
  { apply in_map_iff. exists k. split; [reflexivity|]. apply in_seq. lia. }
  revert Hin.
  generalize (map (fun i => quanta * PyFloat.of_nat i)
                  (seq 0 (layer_count max_detection quanta))).
  intros layers. generalize (@empty_graph Stage3.LayeredKey Q).
  induction layers as [|layer layers IH]; intros g; simpl; [intros []|].
  intros [->|Hin].
  - apply fold_left_invariant
      with (P := fun g' : Stage3.LayersGraph =>
                   In (Stage3.layered node (PyFloat.of_nat k * quanta))
                      (nodes g')).
    + apply nodes_add_nodes_from. left. apply in_map_iff. exists node.
      split; [apply layered_eq; lra|assumption].
    + intros g' layer' _ Hg'. apply nodes_add_nodes_from. now right.
  - now apply IH.
Qed.

Section LayersGraphEdges.

Context `{Geometry}.
Variables (graph : Stage3.Graph) (source target : Coordinate).
Variables (max_detection_percentage quanta : Q).
Variables (lg : Stage3.LayersGraph) (source' target' : Stage3.LayeredKey).

Let max_detection := distance_to source target * max_detection_percentage.

Hypothesis quanta_pos : 0 < quanta.
Hypothesis built :
  Stage3.build_layers_graph graph source target max_detection_percentage quanta
  = Return (lg, source', target').

Lemma layers_graph_edges_sound k1 k2 w :
  get_edge lg k1 k2 = Some w ->
  LayeredEdge graph max_detection quanta target k1 k2 w.
Proof.
  destruct (build_layers_graph_inv _ _ _ _ quanta_pos built)
    as (m & _ & Elg & _ & _).
  rewrite Elg. intros F. apply get_edge_insert_all in F. destruct F as [Hin|F].
  - now apply In_all_copies.
  - unfold get_edge in F. rewrite edges_layer_nodes in F. discriminate.
Qed.

Lemma LayeredEdge_functional k1 k2 w w' :
  well_formed graph ->
  LayeredEdge graph max_detection quanta target k1 k2 w ->
  LayeredEdge graph max_detection quanta target k1 k2 w' ->
  w = w'.
Proof.
  clear built quanta_pos. intros [ND Hloop] L L'.
  inversion L as [u v d k He Hk E1 E2 E3|u v d k He Hk E1 E2 E3|k Hk E1 E2 E3];
    inversion L' as [u' v' d' k' He' Hk' E1' E2' E3'
                    |u' v' d' k' He' Hk' E1' E2' E3'
                    |k' Hk' E1' E2' E3']; subst;
    try (apply layered_inj in E1'; destruct E1' as [Eu _];
         apply layered_inj in E2'; destruct E2' as [Ev _]; subst).
  - pose proof (@unique_attribute _ _ _ _ _ _ ND He He') as Ea. congruence.
  - pose proof (@unique_attribute _ _ _ _ _ _ ND He He') as Ea. congruence.
  - exfalso. now apply (Hloop _ _ _ He).
  - pose proof (@unique_attribute _ _ _ _ _ _ ND He He') as Ea. congruence.
  - pose proof (@unique_attribute _ _ _ _ _ _ ND He He') as Ea. congruence.
  - exfalso. now apply (Hloop _ _ _ He).
  - exfalso. now apply (Hloop _ _ _ He').
  - exfalso. now apply (Hloop _ _ _ He').
  - reflexivity.
Qed.

Lemma layers_graph_edges_complete k1 k2 w :
  well_formed graph ->
  LayeredEdge graph max_detection quanta target k1 k2 w ->
  get_edge lg k1 k2 = Some w.
Proof.
  intros Hwf L.
  destruct (build_layers_graph_inv _ _ _ _ quanta_pos built)
    as (m & _ & Elg & _ & _).
  rewrite Elg. pose proof L as Hin. apply (In_all_copies _ _ _ _ _ _ quanta_pos) in Hin.
  destruct (In_insert_all _ (layer_nodes graph max_detection quanta) _ _ _ Hin)
    as (w' & F & Hin').
  apply (In_all_copies _ _ _ _ _ _ quanta_pos) in Hin'.
  now rewrite (LayeredEdge_functional Hwf L Hin').
Qed.

(** The target is linked from each layer to the next, whatever else the
    graph holds: these edges are added last. *)
Lemma layers_graph_target_step k :
  PyFloat.of_nat (S k) * quanta <= max_detection ->
  get_edge lg (Stage3.layered target (PyFloat.of_nat k * quanta))
              (Stage3.layered target (PyFloat.of_nat (S k) * quanta)) = Some 0.
Proof.
  intros Hk.
  destruct (build_layers_graph_inv _ _ _ _ quanta_pos built)
    as (m & _ & Elg & _ & _).
  rewrite Elg, insert_all_app.
  assert (Hin : In ((Stage3.layered target (PyFloat.of_nat k * quanta),
                     Stage3.layered target (PyFloat.of_nat (S k) * quanta)), 0)
                   (target_links max_detection quanta target)).
  { apply (In_target_links _ _ _ _ _ quanta_pos). now exists k. }
  destruct (In_insert_all _
              (insert_all (flat_map (edge_copies max_detection quanta)
                                    (edges graph))
                          (layer_nodes graph max_detection quanta))
              _ _ _ Hin) as (w' & F & Hin').
  apply (In_target_links _ _ _ _ _ quanta_pos) in Hin'.
  destruct Hin' as (k' & _ & _ & _ & ->). exact F.
Qed.

End LayersGraphEdges.

(** ** The budget along the edges of the layers graph *)

Unset Implicit Arguments.

Lemma layer_value (node : Coordinate) (a : Q) :
  (snd (Stage3.layered node a) : Q) == a.
Proof. unfold Stage3.layered. simpl. apply Qred_correct. Qed.

Lemma ceil_to_quanta_ge (quanta d : Q) : 0 < quanta -> d <= ceil_to_quanta quanta d.
Proof.
  intros Hq. unfold ceil_to_quanta.
  pose proof (Qle_ceiling (d / quanta)) as Hc.
  apply (div_le_iff _ _ Hq) in Hc. exact Hc.
Qed.

Lemma ceil_to_quanta_nonneg (quanta d : Q) :
  0 < quanta -> 0 <= d -> 0 <= ceil_to_quanta quanta d.
Proof.
  intros Hq Hd. pose proof (ceil_to_quanta_ge quanta d Hq). lra.
Qed.

Lemma LayeredEdge_budget (graph : Stage3.Graph) (max_detection quanta : Q)
  target k1 k2 w :
  0 < quanta ->
  (forall k a, In (k, a) (edges graph) -> 0 <= Stage3.dist a) ->
  LayeredEdge graph max_detection quanta target k1 k2 w ->
  (snd k1 : Q) <= (snd k2 : Q).
Proof.
  intros Hq Hn L. destruct L as [u v d k He Hk|u v d k He Hk|k Hk];
    rewrite !layer_value.
  - lra.
  - apply Hn in He. simpl in He.
    pose proof (ceil_to_quanta_nonneg quanta d Hq He). lra.
  - rewrite of_nat_succ. lra.
Qed.


Lemma Walk_budget {N A : Type} `{EqDec N} (g : DiGraph N A) (budget : N -> Q) :
  (forall k1 k2 w, get_edge g k1 k2 = Some w -> budget k1 <= budget k2) ->
  forall a b p, Walk g a b p ->
  StronglySorted (fun k1 k2 => budget k1 <= budget k2) p.
Proof.
  intros Hle a b p W. induction W as [s|s v t e p F W IH].
  - constructor; constructor.
  - constructor; [assumption|].
    destruct (Walk_head W) as [r ->].
    apply Hle in F. inversion IH as [|x l Hs Hf]; subst.
    constructor; [assumption|].
    eapply Forall_impl; [|exact Hf]. simpl. intros k Hk. lra.
Qed.

(** C4. Every edge of the layers graph leads to a layer that is not
    lower, so the budget never decreases along a walk.  The edges that
    [add_target_edges] adds go from the target in layer k * quanta to
    the target in the next layer, k * quanta + quanta, at no cost; each
    pair of consecutive layers is linked that way and no edge leads from
    the target in a layer back to the target one quantum below. *)
Theorem budget_never_decreases `{Geometry} (graph : Stage3.Graph)
  (source target : Coordinate) (max_detection_percentage quanta : Q)
  (lg : Stage3.LayersGraph) (source' target' : Stage3.LayeredKey) :
  0 < quanta ->
  (forall k a, In (k, a) (edges graph) -> 0 <= Stage3.dist a) ->
  Stage3.build_layers_graph graph source target max_detection_percentage quanta
  = Return (lg, source', target') ->
  let max_detection := distance_to source target * max_detection_percentage in
  (forall k1 k2 w, get_edge lg k1 k2 = Some w -> (snd k1 : Q) <= (snd k2 : Q)) /\
  (forall a b p,
      Walk lg a b p ->
      StronglySorted
        (fun k1 k2 : Stage3.LayeredKey => (snd k1 : Q) <= (snd k2 : Q)) p) /\
  (forall (g : Stage3.LayersGraph) k1 k2 w,
      get_edge (Stage3.add_target_edges
                  g (Stage3.layers_of max_detection quanta) target) k1 k2
      = Some w ->
      get_edge g k1 k2 = Some w \/
      (w = 0 /\
       exists k : nat,
         k1 = Stage3.layered target (PyFloat.of_nat k * quanta) /\
         k2 = Stage3.layered target (PyFloat.of_nat k * quanta + quanta) /\
         PyFloat.of_nat k * quanta + quanta <= max_detection)) /\
  (forall k : nat,
      PyFloat.of_nat k * quanta + quanta <= max_detection ->
      get_edge lg (Stage3.layered target (PyFloat.of_nat k * quanta))
                  (Stage3.layered target (PyFloat.of_nat k * quanta + quanta))
      = Some 0) /\
  (forall (L : Q) w,
      get_edge lg (Stage3.layered target (L + quanta))
                  (Stage3.layered target L) <> Some w).
Proof.
  intros Hq Hn B max_detection.
  assert (Hedge : forall k1 k2 w,
             get_edge lg k1 k2 = Some w -> (snd k1 : Q) <= (snd k2 : Q)).
  { intros k1 k2 w F.
    eapply layers_graph_edges_sound in F; [|exact Hq|exact B].
    eapply LayeredEdge_budget; eassumption. }
  split; [exact Hedge|]. split; [|split; [|split]].
  - intros a b p W.
    exact (Walk_budget lg (fun k : Stage3.LayeredKey => (snd k : Q)) Hedge a b p W).
  - intros g k1 k2 w. rewrite add_target_edges_closed. intros F.
    apply get_edge_insert_all in F. destruct F as [Hin|F]; [|now left].
    right. apply In_target_links in Hin; [|exact Hq].
    destruct Hin as (k & Hk & -> & -> & ->). split; [reflexivity|].
    exists k. rewrite of_nat_succ in Hk. repeat split.
    + apply layered_eq. rewrite of_nat_succ. lra.
    + lra.
  - intros k Hk.
    rewrite (layered_eq target (a := PyFloat.of_nat k * quanta + quanta)
               (b := PyFloat.of_nat (S k) * quanta))
      by (rewrite of_nat_succ; lra).
    eapply layers_graph_target_step; [exact Hq|exact B|].
    rewrite of_nat_succ. fold max_detection. lra.
  - intros L w F. apply Hedge in F. rewrite !layer_value in F. lra.
Qed.

(** ** Checks that can be run *)

Lemma no_repeat_NoDup {K : Type} `{EqDec K} (l : list K) :
  no_repeat l = true -> NoDup l.
Proof.
  induction l as [|a l IH]; simpl; [constructor|].
  rewrite andb_true_iff, negb_true_iff. intros [Hout Hl].
  constructor; [|now apply IH].
  intros Hin. assert (Hex : existsb (eqb a) l = true); [|congruence].
  apply existsb_exists. exists a. split; [assumption|apply eqb_refl].
Qed.

Lemma well_formedb_correct (graph : Stage3.Graph) :
  well_formedb graph = true -> well_formed graph.
Proof.
  unfold well_formedb, well_formed. rewrite andb_true_iff.
  intros [Hk Hl]. split; [now apply no_repeat_NoDup|].
  intros u v a Hin. rewrite forallb_forall in Hl.
  specialize (Hl _ Hin). simpl in Hl. apply negb_true_iff in Hl.
  now apply eqb_neq.
Qed.

Lemma nonneg_distb_correct (graph : Stage3.Graph) :
  nonneg_distb graph = true ->
  forall k a, In (k, a) (edges graph) -> 0 <= Stage3.dist a.
Proof.
  unfold nonneg_distb. rewrite forallb_forall. intros Hall k a Hin.
  specialize (Hall _ Hin). now apply Qle_bool_iff in Hall.
Qed.


Lemma budget_never_decreases_witness :
  exists lg source' target',
    Stage3.build_layers_graph (H := BoxWorld.geometry) Examples.crossing
      Examples.origin Examples.goal (1 # 10) (1 # 2)
    = Return (lg, source', target') /\
    (forall k1 k2 w, get_edge lg k1 k2 = Some w -> (snd k1 : Q) <= (snd k2 : Q)) /\
    (forall (L : Q) w,
        get_edge lg (Stage3.layered Examples.goal (L + (1 # 2)))
                    (Stage3.layered Examples.goal L) <> Some w).
Proof.
  eexists. eexists. eexists. split; [vm_compute; reflexivity|].
  pose proof (@budget_never_decreases BoxWorld.geometry Examples.crossing
                Examples.origin Examples.goal (1 # 10) (1 # 2) _ _ _
                (eq_refl : 0 < 1 # 2)
                (nonneg_distb_correct Examples.crossing eq_refl)
                eq_refl) as (Hedge & _ & _ & _ & Hback).
  split; [exact Hedge|exact Hback].
Defined.

(** ** Source and target stay in the graph *)

Lemma Stage1_source_target_nodes `{Geometry} source target enemies :
  In source (nodes (Stage1.build_graph source target enemies)) /\
  In target (nodes (Stage1.build_graph source target enemies)).
Proof.
  unfold Stage1.build_graph, Stage1.connect_pairs, Stage1.add_enemies_to_graph.
  cbv zeta.
  apply fold_left_invariant
    with (P := fun g : Stage1.Graph => In source (nodes g) /\ In target (nodes g)).
  - apply fold_left_invariant
      with (P := fun g : Stage1.Graph =>
                   In source (nodes g) /\ In target (nodes g)).
    + rewrite !nodes_add_node. tauto.
    + intros g enemy _ [Hs Ht].
      destruct enemy; rewrite ?nodes_add_nodes_from; tauto.
  - intros g [n1 n2] _ [Hs Ht].
    destruct (Stage1.is_legal_leg n1 n2 enemies); [|tauto].
    unfold add_undirected_edge. rewrite !nodes_add_edge. tauto.
Qed.

Lemma Stage2_seed_nodes `{Geometry} source target enemies :
  In source (nodes (Stage2.seed_graph source target enemies)) /\
  In target (nodes (Stage2.seed_graph source target enemies)).
Proof.
  unfold Stage2.seed_graph, Stage2.add_enemies_to_graph.
  apply fold_left_invariant
    with (P := fun g : Stage2.Graph => In source (nodes g) /\ In target (nodes g)).
  - rewrite !nodes_add_node. tauto.
  - intros g enemy _ [Hs Ht].
    destruct enemy; rewrite ?nodes_add_nodes_from; tauto.
Qed.

Lemma Stage2_connect_pairs_nodes `{Geometry} enemies (graph : Stage2.Graph) n :
  In n (nodes graph) -> In n (nodes (Stage2.connect_pairs enemies graph)).
Proof.
  intros Hn. unfold Stage2.connect_pairs.
  apply fold_left_invariant
    with (P := fun g : Stage2.Graph => In n (nodes g)); [assumption|].
  intros g [n1 n2] _ Hg.
  destruct (Stage2.is_legal_leg n1 n2 enemies); [|assumption].
  rewrite !nodes_add_edge. tauto.
Qed.

Lemma Stage2_connect_node_keeps `{Geometry} enemies (graph : Stage2.Graph) node n :
  In n (nodes graph) -> In n (nodes (Stage2.connect_node enemies graph node)).
Proof.
  intros Hn. unfold Stage2.connect_node.
  apply fold_left_invariant
    with (P := fun g : Stage2.Graph => In n (nodes g)).
  - apply nodes_add_node. now right.
  - intros g other _ Hg.
    destruct (eqb other node || Qlt_bool _ _); [assumption|].
    assert (Hg' : In n (nodes (if Stage2.is_legal_leg other node enemies
                                then add_edge g other node (distance_to node other)
                                else g))).
    { destruct (Stage2.is_legal_leg other node enemies); [|assumption].
      rewrite nodes_add_edge. tauto. }
    destruct (Stage2.is_legal_leg node other enemies); [|assumption].
    rewrite nodes_add_edge. tauto.
Qed.

Lemma Stage2_add_nodes_inside_radars_keeps `{Geometry} (graph graph' : Stage2.Graph)
  enemies (draws rest : Draws) n :
  Stage2.add_nodes_inside_radars graph enemies draws = Return (graph', rest) ->
  In n (nodes graph) -> In n (nodes graph').
Proof.
  unfold Stage2.add_nodes_inside_radars.
  destruct (Nat.eqb _ 0); [now intros [= <- <-]|].
  destruct (Stage2.sample_radars _ _ draws) as [[new d0]| |]; simpl;
    try discriminate.
  intros [= <- <-] Hn.
  apply fold_left_invariant
    with (P := fun g : Stage2.Graph => In n (nodes g)); [assumption|].
  intros g node _ Hg. now apply Stage2_connect_node_keeps.
Qed.

Lemma Stage3_seed_nodes `{Geometry} source target enemies :
  In source (nodes (Stage3.seed_graph source target enemies)) /\
  In target (nodes (Stage3.seed_graph source target enemies)).
Proof.
  unfold Stage3.seed_graph, Stage3.add_enemies_to_graph.
  apply fold_left_invariant
    with (P := fun g : Stage3.Graph => In source (nodes g) /\ In target (nodes g)).
  - rewrite !nodes_add_node. tauto.
  - intros g enemy _ [Hs Ht].
    destruct enemy; rewrite ?nodes_add_nodes_from; tauto.
Qed.

Lemma Stage3_connect_pairs_nodes `{Geometry} enemies (graph : Stage3.Graph) n :
  In n (nodes graph) -> In n (nodes (Stage3.connect_pairs enemies graph)).
Proof.
  intros Hn. unfold Stage3.connect_pairs.
  apply fold_left_invariant
    with (P := fun g : Stage3.Graph => In n (nodes g)); [assumption|].
  intros g [n1 n2] _ Hg.
  destruct (negb (Stage3.is_legal_leg n1 n2 enemies)); [assumption|].
  rewrite !nodes_add_edge. tauto.
Qed.

Lemma Stage3_connect_node_keeps `{Geometry} enemies (graph : Stage3.Graph) node n :
  In n (nodes graph) -> In n (nodes (Stage3.connect_node enemies graph node)).
Proof.
  intros Hn. unfold Stage3.connect_node.
  apply fold_left_invariant
    with (P := fun g : Stage3.Graph => In n (nodes g)).
  - apply nodes_add_node. now right.
  - intros g other _ Hg.
    destruct (eqb other node || Qlt_bool _ _); [assumption|].
    destruct (negb _); [assumption|].
    rewrite !nodes_add_edge. tauto.
Qed.

Lemma Stage3_add_nodes_inside_radars_keeps `{Geometry} (graph graph' : Stage3.Graph)
  enemies (draws rest : Draws) n :
  Stage3.add_nodes_inside_radars graph enemies draws = Return (graph', rest) ->
  In n (nodes graph) -> In n (nodes graph').
Proof.
  unfold Stage3.add_nodes_inside_radars, Stage3.sample_radars.
  destruct (Nat.eqb _ 0); [now intros [= <- <-]|].
  destruct (Stage2.sample_radars _ _ draws) as [[new d0]| |]; simpl;
    try discriminate.
  intros [= <- <-] Hn.
  apply fold_left_invariant
    with (P := fun g : Stage3.Graph => In n (nodes g)); [assumption|].
  intros g node _ Hg. now apply Stage3_connect_node_keeps.
Qed.

Lemma Stage3_build_graph_inv `{Geometry} source target enemies (draws : Draws)
  (graph : Stage3.Graph) :
  Stage3.build_graph source target enemies draws = Return graph ->
  exists rest,
    Stage3.add_nodes_inside_radars
      (Stage3.connect_pairs enemies (Stage3.seed_graph source target enemies))
      enemies draws = Return (graph, rest).
Proof.
  unfold Stage3.build_graph.
  destruct (Stage3.add_nodes_inside_radars _ enemies draws) as [[g rest]| |];
    simpl; try discriminate.
  intros [= <-]. now exists rest.
Qed.

Lemma Stage3_source_target_nodes `{Geometry} source target enemies
  (draws : Draws) (graph : Stage3.Graph) :
  Stage3.build_graph source target enemies draws = Return graph ->
  In source (nodes graph) /\ In target (nodes graph).
Proof.
  intros B. apply Stage3_build_graph_inv in B. destruct B as [rest B].
  destruct (Stage3_seed_nodes source target enemies) as [Hs Ht].
  split; eapply Stage3_add_nodes_inside_radars_keeps; try exact B;
    now apply Stage3_connect_pairs_nodes.
Qed.

(** ** No path: the empty result *)

Lemma no_walk_when_solver_raises `{SP : ShortestPath} {SPL : ShortestPathLaws SP}
  {N A : Type} `{EqDec N} (w : A -> Q) (g : DiGraph N A) (s t : N) :
  In s (nodes g) -> In t (nodes g) ->
  shortest_path w g s t = Raise NetworkXNoPath ->
  forall p, ~ Walk g s t p.
Proof.
  intros Hs Ht R p W.
  assert (Hex : exists q, shortest_path w g s t = Return q)
    by (eapply sp_found; eassumption).
  destruct Hex as [q Hq]. congruence.
Qed.

(** C9. When the graph that [calculate_path] builds has no walk from
    the source to the target, [calculate_path] returns the empty list
    as the path, with the graph, and raises nothing: in stage 1, in
    stage 2 (once the sampling has returned) and in stage 3, where the
    graph searched is the layers graph. *)
Theorem no_path_gives_empty_path `{Geometry} `{SP : ShortestPath}
  {SPL : ShortestPathLaws SP} (source target : Coordinate)
  (enemies : list Enemy) :
  ((forall p, ~ Walk (Stage1.build_graph source target enemies)
                     source target p) ->
   Stage1.calculate_path source target enemies
   = Return ([], Stage1.build_graph source target enemies)) /\
  (forall (draws rest : Draws) (graph : Stage2.Graph),
      Stage2.add_nodes_inside_radars
        (Stage2.connect_pairs enemies (Stage2.seed_graph source target enemies))
        enemies draws = Return (graph, rest) ->
      (forall p, ~ Walk graph source target p) ->
      Stage2.calculate_path source target enemies draws = Return ([], graph)) /\
  (forall (draws : Draws) (graph : Stage3.Graph) (lg : Stage3.LayersGraph)
          (source' target' : Stage3.LayeredKey),
      Stage3.build_graph source target enemies draws = Return graph ->
      Stage3.build_layers_graph graph source target
        Stage3.default_max_detection_percentage Stage3.default_quanta
      = Return (lg, source', target') ->
      (forall p, ~ Walk lg source' target' p) ->
      Stage3.calculate_path source target enemies draws = Return ([], graph)).
Proof.
  split; [|split].
  - intros Hno. unfold Stage1.calculate_path.
    destruct (Stage1_source_target_nodes source target enemies) as [Hs Ht].
    assert (E : shortest_path (fun dist : Q => dist)
                  (Stage1.build_graph source target enemies) source target
                = Raise NetworkXNoPath) by (apply sp_no_path; assumption).
    rewrite E. reflexivity.
  - intros draws rest graph S Hno. unfold Stage2.calculate_path.
    rewrite S. simpl.
    destruct (Stage2_seed_nodes source target enemies) as [Hs Ht].
    assert (Hs' : In source (nodes graph)).
    { eapply Stage2_add_nodes_inside_radars_keeps; [exact S|].
      now apply Stage2_connect_pairs_nodes. }
    assert (Ht' : In target (nodes graph)).
    { eapply Stage2_add_nodes_inside_radars_keeps; [exact S|].
      now apply Stage2_connect_pairs_nodes. }
    assert (E : shortest_path (fun dist : Q => dist) graph source target
                = Raise NetworkXNoPath) by (apply sp_no_path; assumption).
    rewrite E. reflexivity.
  - intros draws graph lg source' target' B L Hno.
    unfold Stage3.calculate_path, Stage3.shortest_layered_path.
    rewrite B. simpl. rewrite L. simpl.
    destruct (Stage3_source_target_nodes _ _ _ _ _ B) as [Hs Ht].
    assert (Hq : 0 < Stage3.default_quanta) by reflexivity.
    destruct (build_layers_graph_inv _ _ _ _ Hq L)
      as (m & Hm & Elg & Es & Et).
    assert (Hs' : In source' (nodes lg)).
    { rewrite Elg, Es. apply nodes_insert_all.
      rewrite (layered_eq source (a := 0)
                 (b := PyFloat.of_nat 0 * Stage3.default_quanta))
        by (change (PyFloat.of_nat 0) with 0; lra).
      apply nodes_layer_nodes; [assumption|]. rewrite Hm. lia. }
    assert (Ht' : In target' (nodes lg)).
    { rewrite Elg, Et. apply nodes_insert_all.
      apply nodes_layer_nodes; [assumption|]. rewrite Hm. lia. }
    assert (E : shortest_path (fun d : Q => d) lg source' target'
                = Raise NetworkXNoPath) by (apply sp_no_path; assumption).
    rewrite E. reflexivity.
Qed.

Lemma no_path_gives_empty_path_witness :
  Stage1.calculate_path (H := BoxWorld.geometry) (H0 := reference_solver)
    Examples.origin Examples.goal [Examples.cage]
  = Return ([], Stage1.build_graph (H := BoxWorld.geometry)
                  Examples.origin Examples.goal [Examples.cage]).
Proof.
  pose proof (@no_path_gives_empty_path BoxWorld.geometry reference_solver
                reference_solver_laws Examples.origin Examples.goal
                [Examples.cage]) as [Hstage1 _].
  apply Hstage1.
  apply (@no_walk_when_solver_raises reference_solver reference_solver_laws
           _ _ _ (fun d : Q => d)).
  - refine (proj1 (has_node_iff _ _) _). vm_compute. reflexivity.
  - refine (proj1 (has_node_iff _ _) _). vm_compute. reflexivity.
  - vm_compute. reflexivity.
Defined.

(** ** Source equal to target *)

(** C8, on the code.  With the source equal to the target, stages 1 and
    2 return the path of that single coordinate, but stage 3 raises
    [IndexError]: the layers graph has the single layer 0, the shortest
    path is the single node (source, 0), and
    [retrieve_path_from_layered_path] reads [path[-2]] of a list of one
    item. *)
Theorem same_point_path `{G : Geometry} {GL : GeometryLaws G}
  `{SP : ShortestPath} {SPL : ShortestPathLaws SP}
  (source : Coordinate) (enemies : list Enemy) :
  Stage1.calculate_path source source enemies
  = Return ([source], Stage1.build_graph source source enemies) /\
  (forall (draws rest : Draws) (graph : Stage2.Graph),
      Stage2.add_nodes_inside_radars
        (Stage2.connect_pairs enemies (Stage2.seed_graph source source enemies))
        enemies draws = Return (graph, rest) ->
      Stage2.calculate_path source source enemies draws
      = Return ([source], graph)) /\
  (forall (draws : Draws) (graph : Stage3.Graph),
      Stage3.build_graph source source enemies draws = Return graph ->
      Stage3.calculate_path source source enemies draws = Raise IndexError).
Proof.
  split; [|split].
  - unfold Stage1.calculate_path.
    destruct (Stage1_source_target_nodes source source enemies) as [Hs _].
    assert (E : shortest_path (fun dist : Q => dist)
                  (Stage1.build_graph source source enemies) source source
                = Return [source]) by (apply sp_same_node; assumption).
    rewrite E. reflexivity.
  - intros draws rest graph S. unfold Stage2.calculate_path.
    rewrite S. simpl.
    destruct (Stage2_seed_nodes source source enemies) as [Hs _].
    assert (Hs' : In source (nodes graph)).
    { eapply Stage2_add_nodes_inside_radars_keeps; [exact S|].
      now apply Stage2_connect_pairs_nodes. }
    assert (E : shortest_path (fun dist : Q => dist) graph source source
                = Return [source]) by (apply sp_same_node; assumption).
    rewrite E. reflexivity.
  - intros draws graph B.
    unfold Stage3.calculate_path, Stage3.shortest_layered_path.
    rewrite B. simpl.
    destruct (Stage3_source_target_nodes _ _ _ _ _ B) as [Hs _].
    assert (Hq : 0 < Stage3.default_quanta) by reflexivity.
    rewrite (build_layers_graph_closed graph source source
               Stage3.default_max_detection_percentage Hq).
    assert (Hc : layer_count
                   (distance_to source source
                    * Stage3.default_max_detection_percentage)
                   Stage3.default_quanta = 1%nat).
    { rewrite (@layer_count_comp
                 (distance_to source source
                  * Stage3.default_max_detection_percentage)
                 0 Stage3.default_quanta); [reflexivity|].
      rewrite distance_self. lra. }
    rewrite Hc. simpl.
    rewrite (layered_eq source
               (a := PyFloat.of_nat 0 * Stage3.default_quanta) (b := 0))
      by (change (PyFloat.of_nat 0) with 0; lra).
    set (lg := insert_all _ _).
    assert (Hin : In (Stage3.layered source 0) (nodes lg)).
    { apply nodes_insert_all.
      rewrite (layered_eq source (a := 0)
                 (b := PyFloat.of_nat 0 * Stage3.default_quanta))
        by (change (PyFloat.of_nat 0) with 0; lra).
      apply nodes_layer_nodes; [assumption|]. rewrite Hc. lia. }
    assert (E : shortest_path (fun d : Q => d) lg (Stage3.layered source 0)
                  (Stage3.layered source 0)
                = Return [Stage3.layered source 0])
      by (apply sp_same_node; assumption).
    rewrite E. reflexivity.
Qed.

Lemma same_point_path_witness :
  Stage1.calculate_path (H := BoxWorld.geometry) (H0 := reference_solver)
    Examples.origin Examples.origin []
  = Return ([Examples.origin],
            Stage1.build_graph (H := BoxWorld.geometry)
              Examples.origin Examples.origin []) /\
  Stage3.calculate_path (H := BoxWorld.geometry) (H0 := reference_solver)
    Examples.origin Examples.origin [] []
  = Raise IndexError.
Proof.
  pose proof (@same_point_path BoxWorld.geometry BoxWorld_laws
                reference_solver reference_solver_laws Examples.origin [])
    as (Hstage1 & _ & Hstage3).
  split; [exact Hstage1|].
  refine (Hstage3 [] _ _). vm_compute. reflexivity.
Defined.

(** ** Pairs of seed nodes *)

Lemma In_combinations {A : Type} (l : list A) a b :
  In (a, b) (combinations l) -> In a l /\ In b l.
Proof.
  induction l as [|c l IH]; simpl; [intros []|].
  rewrite in_app_iff, in_map_iff. intros [(d & [= <- <-] & Hd)|Hin].
  - auto.
  - destruct (IH Hin). auto.
Qed.

Lemma combinations_one_way {A : Type} (l : list A) a b :
  NoDup l -> In (a, b) (combinations l) ->
  a <> b /\ ~ In (b, a) (combinations l).
Proof.
  induction l as [|c l IH]; simpl; [intros _ []|].
  intros ND. inversion ND as [|c' l' Hout ND']; subst.
  rewrite !in_app_iff, !in_map_iff.
  intros [(d & [= <- <-] & Hd)|Hin].
  - split; [intros ->; contradiction|].
    intros [(e & [= <- <-] & He)|Hin]; [contradiction|].
    apply In_combinations in Hin. destruct Hin. contradiction.
  - destruct (IH ND' Hin) as [Hneq Hrev]. split; [assumption|].
    intros [(e & [= <- <-] & He)|Hin']; [|contradiction].
    apply In_combinations in Hin. destruct Hin. contradiction.
Qed.

Lemma combinations_covers {A : Type} (l : list A) a b :
  In a l -> In b l -> a <> b ->
  In (a, b) (combinations l) \/ In (b, a) (combinations l).
Proof.
  induction l as [|c l IH]; simpl; [intros []|].
  rewrite !in_app_iff, !in_map_iff.
  intros [->|Ha] [->|Hb] Hneq.
  - contradiction.
  - left. left. now exists b.
  - right. left. now exists a.
  - destruct (IH Ha Hb Hneq); [left|right]; now right.
Qed.

Lemma NoDup_map_pair {A : Type} (c : A) (l : list A) :
  NoDup l -> NoDup (map (pair c) l).
Proof.
  induction 1 as [|a l Hout ND IH]; simpl; constructor; [|assumption].
  rewrite in_map_iff. intros (d & [= ->] & Hd). contradiction.
Qed.

Lemma NoDup_combinations {A : Type} (l : list A) :
  NoDup l -> NoDup (combinations l).
Proof.
  induction l as [|c l IH]; simpl; [constructor|].
  intros ND. inversion ND as [|c' l' Hout ND']; subst.
  apply NoDup_app.
  - now apply NoDup_map_pair.
  - now apply IH.
  - intros [a b] Hin Hin'. apply in_map_iff in Hin.
    destruct Hin as (d & [= <- <-] & Hd).
    apply In_combinations in Hin'. destruct Hin'. contradiction.
Qed.

Section ConnectPairs.

Context {N A : Type} `{EqDec N}.
Variable legal : N -> N -> bool.
Variable attr : N -> N -> A.

(** The loop over pairs, whatever the attributes put on the edges. *)
Definition connect (ps : list (N * N)) (g : DiGraph N A) : DiGraph N A :=
  fold_left
    (fun g pair =>
       if legal (fst pair) (snd pair)
       then add_edge (add_edge g (fst pair) (snd pair)
                               (attr (fst pair) (snd pair)))
                     (snd pair) (fst pair) (attr (fst pair) (snd pair))
       else g)
    ps g.

Lemma connect_untouched ps : forall g u v,
  ~ In (u, v) ps -> ~ In (v, u) ps ->
  get_edge (connect ps g) u v = get_edge g u v.
Proof.
  unfold connect. induction ps as [|[a b] ps IH]; intros g u v H1 H2; simpl.
  - reflexivity.
  - rewrite IH by (simpl in *; tauto). simpl in H1, H2.
    destruct (legal a b); [|reflexivity].
    rewrite !get_edge_add_edge.
    destruct (eqb (u, v) (b, a)) eqn:E1.
    { apply eqb_eq in E1. injection E1 as -> ->. tauto. }
    destruct (eqb (u, v) (a, b)) eqn:E2.
    { apply eqb_eq in E2. injection E2 as -> ->. tauto. }
    reflexivity.
Qed.

Lemma connect_tested ps : forall g u v,
  NoDup ps ->
  (forall a b, In (a, b) ps -> a <> b /\ ~ In (b, a) ps) ->
  (forall a b, In (a, b) ps ->
               get_edge g a b = None /\ get_edge g b a = None) ->
  In (u, v) ps ->
  if legal u v
  then get_edge (connect ps g) u v = Some (attr u v) /\
       get_edge (connect ps g) v u = Some (attr u v)
  else get_edge (connect ps g) u v = None /\
       get_edge (connect ps g) v u = None.
Proof.
  induction ps as [|[a b] ps IH]; intros g u v ND Hone Hnone Hin;
    [destruct Hin|].
  inversion ND as [|p l Hout ND']; subst.
  destruct (Hone a b (or_introl eq_refl)) as [Hab Hba].
  assert (Hba' : ~ In (b, a) ps) by (intros Hx; apply Hba; now right).
  destruct Hin as [[= <- <-]|Hin].
  - change (connect ((a, b) :: ps) g)
      with (connect ps (if legal a b
                        then add_edge (add_edge g a b (attr a b)) b a (attr a b)
                        else g)).
    rewrite !connect_untouched by assumption.
    destruct (Hnone a b (or_introl eq_refl)) as [Hn1 Hn2].
    destruct (legal a b) eqn:L; [|now split].
    rewrite !get_edge_add_edge, !eqb_refl.
    destruct (eqb (a, b) (b, a)) eqn:E.
    { apply eqb_eq in E. injection E as ->. contradiction. }
    now split.
  - change (connect ((a, b) :: ps) g)
      with (connect ps (if legal a b
                        then add_edge (add_edge g a b (attr a b)) b a (attr a b)
                        else g)).
    apply IH; [assumption| | |assumption].
    + intros c d Hcd. destruct (Hone c d (or_intror Hcd)) as [Hneq Hrev].
      split; [assumption|]. intros Hx. apply Hrev. now right.
    + intros c d Hcd. destruct (Hnone c d (or_intror Hcd)) as [Hn1 Hn2].
      destruct (Hone c d (or_intror Hcd)) as [Hneq Hrev].
      destruct (legal a b); [|now split].
      rewrite !get_edge_add_edge.
      assert (E1 : eqb (c, d) (b, a) = false).
      { apply eqb_neq. intros [= -> ->]. contradiction. }
      assert (E2 : eqb (c, d) (a, b) = false).
      { apply eqb_neq. intros [= -> ->]. contradiction. }
      assert (E3 : eqb (d, c) (b, a) = false).
      { apply eqb_neq. intros [= -> ->]. contradiction. }
      assert (E4 : eqb (d, c) (a, b) = false).
      { apply eqb_neq. intros [= -> ->]. apply Hrev. now left. }
      rewrite E1, E2, E3, E4. now split.
Qed.

End ConnectPairs.

(** ** The nodes of a graph are distinct *)

Section NodesDistinct.

Context {N A : Type} `{EqDec N}.
Implicit Types (g : DiGraph N A).

Lemma NoDup_nodes_add_node g n :
  NoDup (nodes g) -> NoDup (nodes (add_node g n)).
Proof.
  intros ND. unfold add_node. destruct (has_node g n) eqn:E; [assumption|].
  simpl. apply NoDup_app; [assumption|repeat constructor; intros []|].
  intros a Ha [<-|[]].
  apply has_node_iff in Ha. congruence.
Qed.

Lemma NoDup_nodes_add_nodes_from ns : forall g,
  NoDup (nodes g) -> NoDup (nodes (add_nodes_from g ns)).
Proof.
  unfold add_nodes_from. induction ns as [|n ns IH]; intros g ND; simpl.
  - assumption.
  - apply IH. now apply NoDup_nodes_add_node.
Qed.

Lemma NoDup_nodes_add_edge g u v a :
  NoDup (nodes g) -> NoDup (nodes (add_edge g u v a)).
Proof.
  intros ND. unfold add_edge. simpl.
  now apply NoDup_nodes_add_node, NoDup_nodes_add_node.
Qed.

Lemma nodes_add_edge_same g u v a :
  In u (nodes g) -> In v (nodes g) -> nodes (add_edge g u v a) = nodes g.
Proof.
  intros Hu Hv. unfold add_edge, add_node. simpl.
  apply has_node_iff in Hu. rewrite Hu.
  apply has_node_iff in Hv. rewrite Hv. reflexivity.
Qed.

End NodesDistinct.

Lemma Stage2_seed_NoDup `{Geometry} source target enemies :
  NoDup (nodes (Stage2.seed_graph source target enemies)) /\
  edges (Stage2.seed_graph source target enemies) = [].
Proof.
  unfold Stage2.seed_graph, Stage2.add_enemies_to_graph.
  apply fold_left_invariant
    with (P := fun g : Stage2.Graph => NoDup (nodes g) /\ edges g = []).
  - split.
    + apply NoDup_nodes_add_node, NoDup_nodes_add_node. constructor.
    + now rewrite !edges_add_node.
  - intros g enemy _ [ND He].
    destruct enemy; rewrite ?edges_add_nodes_from;
      (split; [now apply NoDup_nodes_add_nodes_from|assumption]).
Qed.

Lemma Stage3_seed_NoDup `{Geometry} source target enemies :
  NoDup (nodes (Stage3.seed_graph source target enemies)) /\
  edges (Stage3.seed_graph source target enemies) = [].
Proof.
  unfold Stage3.seed_graph, Stage3.add_enemies_to_graph.
  apply fold_left_invariant
    with (P := fun g : Stage3.Graph => NoDup (nodes g) /\ edges g = []).
  - split.
    + apply NoDup_nodes_add_node, NoDup_nodes_add_node. constructor.
    + now rewrite !edges_add_node.
  - intros g enemy _ [ND He].
    destruct enemy; rewrite ?edges_add_nodes_from;
      (split; [now apply NoDup_nodes_add_nodes_from|assumption]).
Qed.

Lemma Stage2_connect_pairs_connect `{Geometry} enemies (graph : Stage2.Graph) :
  Stage2.connect_pairs enemies graph =
  connect (fun a b => Stage2.is_legal_leg a b enemies) distance_to
          (combinations (nodes graph)) graph.
Proof.
  unfold Stage2.connect_pairs, connect.
  generalize (combinations (nodes graph)). intros ps. revert graph.
  induction ps as [|[a b] ps IH]; intros g; simpl; [reflexivity|apply IH].
Qed.

Lemma Stage3_connect_pairs_connect `{Geometry} enemies (graph : Stage3.Graph) :
  Stage3.connect_pairs enemies graph =
  connect (fun a b => Stage3.is_legal_leg a b enemies)
          (fun a b => Stage3.mkAttr (distance_to a b) false)
          (combinations (nodes graph)) graph.
Proof.
  unfold Stage3.connect_pairs, connect.
  generalize (combinations (nodes graph)). intros ps. revert graph.
  induction ps as [|[a b] ps IH]; intros g; simpl; [reflexivity|].
  destruct (Stage3.is_legal_leg a b enemies); simpl; apply IH.
Qed.

(** X1. The loop over [combinations(graph.nodes, 2)] of stages 2 and 3
    meets every pair of distinct seed nodes once, in one orientation
    (u, v) only; it calls [is_legal_leg] on that orientation and, when
    the call passes, adds both directed edges u -> v and v -> u, each
    with [dist = u.distance_to(v)] (and [detected=False] in stage 3);
    when it fails it adds neither. *)
Theorem pairs_tested_once `{Geometry} (source target : Coordinate)
  (enemies : list Enemy) :
  let seeds2 := Stage2.seed_graph source target enemies in
  let seeds3 := Stage3.seed_graph source target enemies in
  (forall u v, In u (nodes seeds2) -> In v (nodes seeds2) -> u <> v ->
      (In (u, v) (combinations (nodes seeds2)) /\
       ~ In (v, u) (combinations (nodes seeds2))) \/
      (In (v, u) (combinations (nodes seeds2)) /\
       ~ In (u, v) (combinations (nodes seeds2)))) /\
  (forall u v, In (u, v) (combinations (nodes seeds2)) ->
      if Stage2.is_legal_leg u v enemies
      then get_edge (Stage2.connect_pairs enemies seeds2) u v
           = Some (distance_to u v) /\
           get_edge (Stage2.connect_pairs enemies seeds2) v u
           = Some (distance_to u v)
      else get_edge (Stage2.connect_pairs enemies seeds2) u v = None /\
           get_edge (Stage2.connect_pairs enemies seeds2) v u = None) /\
  (forall u v, In (u, v) (combinations (nodes seeds3)) ->
      if Stage3.is_legal_leg u v enemies
      then get_edge (Stage3.connect_pairs enemies seeds3) u v
           = Some (Stage3.mkAttr (distance_to u v) false) /\
           get_edge (Stage3.connect_pairs enemies seeds3) v u
           = Some (Stage3.mkAttr (distance_to u v) false)
      else get_edge (Stage3.connect_pairs enemies seeds3) u v = None /\
           get_edge (Stage3.connect_pairs enemies seeds3) v u = None).
Proof.
  intros seeds2 seeds3.
  destruct (Stage2_seed_NoDup source target enemies) as [ND2 E2].
  destruct (Stage3_seed_NoDup source target enemies) as [ND3 E3].
  fold seeds2 in ND2, E2. fold seeds3 in ND3, E3.
  split; [|split].
  - intros u v Hu Hv Hneq.
    destruct (combinations_covers (nodes seeds2) u v Hu Hv Hneq) as [Hin|Hin].
    + left. split; [assumption|].
      now apply (combinations_one_way (nodes seeds2) u v ND2).
    + right. split; [assumption|].
      now apply (combinations_one_way (nodes seeds2) v u ND2).
  - intros u v Hin. rewrite Stage2_connect_pairs_connect.
    apply (connect_tested (fun a b => Stage2.is_legal_leg a b enemies)
             distance_to (combinations (nodes seeds2)) seeds2 u v).
    + now apply NoDup_combinations.
    + intros a b. now apply combinations_one_way.
    + intros a b _. unfold get_edge. rewrite E2. now split.
    + assumption.
  - intros u v Hin. rewrite Stage3_connect_pairs_connect.
    apply (connect_tested (fun a b => Stage3.is_legal_leg a b enemies)
             (fun a b => Stage3.mkAttr (distance_to a b) false)
             (combinations (nodes seeds3)) seeds3 u v).
    + now apply NoDup_combinations.
    + intros a b. now apply combinations_one_way.
    + intros a b _. unfold get_edge. rewrite E3. now split.
    + assumption.
Qed.

(** ** More on the layers graph *)



Lemma layer_count_zero (room quanta : Q) :
  0 < quanta -> (layer_count room quanta = 0%nat <-> room < 0).
Proof.
  intros Hq. split.
  - intros E. apply Qnot_le_lt. intros Hr.
    assert (H0 : (0 < layer_count room quanta)%nat); [|lia].
    apply layer_count_spec; [assumption|].
    change (PyFloat.of_nat 0) with 0. lra.
  - intros Hr. destruct (layer_count room quanta) as [|m] eqn:E; [reflexivity|].
    assert (H0 : (0 < layer_count room quanta)%nat) by lia.
    apply layer_count_spec in H0; [|assumption].
    change (PyFloat.of_nat 0) with 0 in H0. lra.
Qed.


Lemma mod_negative_range (a m : Q) :
  m < 0 -> m < PyFloat.mod_ a m /\ PyFloat.mod_ a m <= 0.
Proof.
  intros Hm. unfold PyFloat.mod_, PyFloat.floordiv.
  pose proof (Qfloor_le (a / m)) as Hlo.
  pose proof (Qlt_floor (a / m)) as Hhi.
  rewrite inject_Z_succ in Hhi.
  assert (Ea : a == - (a / m * (- m))) by (field; lra).
  assert (Hn : 0 < - m) by lra.
  apply (Qmult_le_compat_r _ _ (- m)) in Hlo; [|lra].
  apply (Qmult_lt_compat_r _ _ (- m)) in Hhi; [|assumption].
  revert Ea Hlo Hhi. generalize (a / m) (inject_Z (Qfloor (a / m))).
  intros x f Ea Hlo Hhi.
  assert (E1 : f * - m == - (m * f)) by ring.
  assert (E2 : (f + 1) * - m == - (m * f) - m) by ring.
  split; lra.
Qed.

Lemma add_legal_edge_loop_never_ends (max_detection quanta : Q) u v d :
  quanta <= 0 ->
  forall fuel g layer,
    layer <= max_detection ->
    Stage3.add_legal_edge_loop fuel g max_detection quanta u v d layer
    = OutOfFuel.
Proof.
  intros Hq. induction fuel as [|fuel IH]; intros g layer Hl; simpl.
  - reflexivity.
  - assert (C : Qle_bool layer max_detection = true) by now apply Qle_bool_iff.
    rewrite C. apply IH. lra.
Qed.

Lemma add_detected_edge_loop_never_ends (max_detection quanta : Q) u v d
  detection :
  quanta <= 0 ->
  forall fuel g layer,
    layer + detection <= max_detection ->
    Stage3.add_detected_edge_loop fuel g max_detection quanta u v d detection
      layer = OutOfFuel.
Proof.
  intros Hq. induction fuel as [|fuel IH]; intros g layer Hl; simpl.
  - reflexivity.
  - assert (C : Qle_bool (layer + detection) max_detection = true)
      by now apply Qle_bool_iff.
    rewrite C. apply IH. lra.
Qed.

(** X4. A quantum that is not positive makes the layer loops run for
    ever: with [quanta <= 0] and [max_detection >= 0] the loop of
    [add_legal_edge] never leaves [while layer <= max_detection]; with
    [quanta < 0] the rounding of [add_detected_edge] keeps the length
    as it is ([detection % quanta] is never positive) and, when that
    length fits the budget, its loop never ends either.  No amount of
    fuel lets the loops return. *)
Theorem nonpositive_quanta_never_ends (max_detection quanta : Q)
  (u v : Coordinate) (d : Q) :
  (quanta <= 0 -> 0 <= max_detection ->
   forall fuel g,
     Stage3.add_legal_edge_loop fuel g max_detection quanta u v d 0
     = OutOfFuel) /\
  (quanta < 0 ->
   Stage3.rounded_detection quanta d = d /\
   (d <= max_detection ->
    forall fuel g,
      Stage3.add_detected_edge_loop fuel g max_detection quanta u v d
        (Stage3.rounded_detection quanta d) 0
      = OutOfFuel)).
Proof.
  split.
  - intros Hq Hmax fuel g. now apply add_legal_edge_loop_never_ends.
  - intros Hq.
    assert (Hr : Stage3.rounded_detection quanta d = d).
    { unfold Stage3.rounded_detection.
      destruct (mod_negative_range d quanta Hq) as [_ Hle].
      destruct (Qlt_bool 0 (PyFloat.mod_ d quanta)) eqn:C; [|reflexivity].
      apply Qlt_bool_iff in C. lra. }
    split; [exact Hr|].
    intros Hd fuel g. rewrite Hr.
    apply add_detected_edge_loop_never_ends; lra.
Qed.

(** ** Decoding a path of the layers graph *)

Lemma drop_repeated_end_cons a b rest :
  Stage3.drop_repeated_end (a :: b :: rest) =
  if eqb a b then Stage3.drop_repeated_end (b :: rest)
  else Return (a :: b :: rest).
Proof. reflexivity. Qed.

Lemma drop_repeated_end_Return r : forall r',
  Stage3.drop_repeated_end r = Return r' ->
  exists k a b rest,
    r' = a :: b :: rest /\ a <> b /\ r = repeat a k ++ r'.
Proof.
  induction r as [|a r IH]; intros r'; [discriminate|].
  destruct r as [|b rest]; [discriminate|].
  rewrite drop_repeated_end_cons. destruct (eqb a b) eqn:E.
  - apply eqb_eq in E. subst b. intros D.
    destruct (IH _ D) as (k & a' & b' & rest' & -> & Hneq & Er).
    exists (S k), a', b', rest'. repeat split; [assumption|].
    destruct k as [|k]; simpl in Er; injection Er as Ea Er; subst;
      reflexivity.
  - apply eqb_neq in E. intros [= <-].
    exists 0%nat, a, b, rest. now repeat split.
Qed.

Lemma drop_repeated_end_uniform r :
  (forall c c', In c r -> In c' r -> c = c') ->
  Stage3.drop_repeated_end r = Raise IndexError.
Proof.
  induction r as [|a r IH]; intros Hall; [reflexivity|].
  destruct r as [|b rest]; [reflexivity|].
  rewrite drop_repeated_end_cons.
  assert (E : eqb a b = true).
  { apply eqb_eq. apply Hall; simpl; auto. }
  rewrite E. apply IH. intros c c' Hc Hc'. apply Hall; now right.
Qed.

Lemma drop_repeated_end_Raise r e :
  Stage3.drop_repeated_end r = Raise e ->
  e = IndexError /\ forall c c', In c r -> In c' r -> c = c'.
Proof.
  induction r as [|a r IH].
  - intros [= <-]. split; [reflexivity|intros c c' []].
  - destruct r as [|b rest].
    + intros [= <-]. split; [reflexivity|].
      intros c c' [<-|[]] [<-|[]]. reflexivity.
    + rewrite drop_repeated_end_cons. destruct (eqb a b) eqn:E; [|discriminate].
      apply eqb_eq in E. subst b. intros D.
      destruct (IH D) as [-> Hall]. split; [reflexivity|].
      intros c c' [<-|Hc] [<-|Hc']; try reflexivity.
      * apply Hall; simpl; auto.
      * apply Hall; simpl; auto.
      * now apply Hall.
Qed.

Lemma drop_repeated_end_fuel r : Stage3.drop_repeated_end r <> OutOfFuel.
Proof.
  induction r as [|a r IH]; [discriminate|].
  destruct r as [|b rest]; [discriminate|].
  rewrite drop_repeated_end_cons. destruct (eqb a b); [assumption|discriminate].
Qed.

Lemma drop_repeated_end_repeat a b rest k :
  a <> b ->
  Stage3.drop_repeated_end (repeat a k ++ a :: b :: rest)
  = Return (a :: b :: rest).
Proof.
  intros Hneq. induction k as [|k IH]; simpl.
  - apply eqb_neq in Hneq. now rewrite Hneq.
  - destruct (repeat a k ++ a :: b :: rest) as [|c l] eqn:El.
    + destruct k; discriminate.
    + assert (Ec : c = a).
      { destruct k; simpl in El; now injection El as <- _. }
      subst c. now rewrite eqb_refl.
Qed.

Lemma rev_repeat {A : Type} (a : A) k : rev (repeat a k) = repeat a k.
Proof.
  induction k as [|k IH]; [reflexivity|].
  simpl. rewrite IH. clear IH.
  induction k as [|k IH]; [reflexivity|].
  simpl. now rewrite IH.
Qed.

(** X5. [retrieve_path_from_layered_path] strips the layers and cuts
    the repeated coordinates at the end of the path down to one.  When
    it returns, the result ends with two different coordinates and the
    stripped path is the result followed by copies of its last
    coordinate.  It raises [IndexError] exactly when all the nodes of
    the path have the same coordinate (an empty path and a path of one
    node included), and it always ends.  Read the other way: a path
    whose last two coordinates differ, laid over any layers and
    followed by any number of copies of its last coordinate, is decoded
    to itself. *)
Theorem retrieve_path_spec (path : list Stage3.LayeredKey) :
  (forall result,
      Stage3.retrieve_path_from_layered_path path = Return result ->
      exists k a b front,
        result = front ++ [b; a] /\ a <> b /\
        map fst path = result ++ repeat a k) /\
  (Stage3.retrieve_path_from_layered_path path = Raise IndexError <->
   forall c c', In c (map fst path) -> In c' (map fst path) -> c = c') /\
  Stage3.retrieve_path_from_layered_path path <> OutOfFuel /\
  (forall front a b (layers : list Qc) (more : list Qc),
      a <> b ->
      length layers = length (front ++ [b; a]) ->
      path = combine (front ++ [b; a]) layers ++ map (pair a) more ->
      Stage3.retrieve_path_from_layered_path path
      = Return (front ++ [b; a])).
Proof.
  unfold Stage3.retrieve_path_from_layered_path. split; [|split; [|split]].
  - intros result.
    destruct (Stage3.drop_repeated_end (rev (map fst path))) as [r| |] eqn:D;
      simpl; try discriminate.
    intros [= <-].
    destruct (drop_repeated_end_Return _ _ D)
      as (k & a & b & rest & -> & Hneq & Er).
    exists k, a, b, (rev rest). split; [|split; [assumption|]].
    + simpl. now rewrite <- app_assoc.
    + rewrite <- (rev_involutive (map fst path)), Er, rev_app_distr.
      now rewrite rev_repeat.
  - split.
    + destruct (Stage3.drop_repeated_end (rev (map fst path))) as [r| |] eqn:D;
        simpl; try discriminate.
      intros _. destruct (drop_repeated_end_Raise _ _ D) as [_ Hall].
      intros c c' Hc Hc'. apply Hall; now apply -> in_rev.
    + intros Hall. rewrite drop_repeated_end_uniform; [reflexivity|].
      intros c c' Hc Hc'. apply Hall; now apply in_rev.
  - pose proof (drop_repeated_end_fuel (rev (map fst path))) as Hf.
    destruct (Stage3.drop_repeated_end (rev (map fst path))); simpl;
      congruence.
  - intros front a b layers more Hneq Hlen ->.
    rewrite map_app, map_map. simpl.
    assert (E1 : map fst (combine (front ++ [b; a]) layers) = front ++ [b; a]).
    { revert Hlen. generalize (front ++ [b; a]). intros l. revert layers.
      induction l as [|c l IH]; intros [|y ys]; simpl; try discriminate.
      - reflexivity.
      - intros [= Hl]. now rewrite IH. }
    assert (E2 : map (fun _ : Qc => a) more = repeat a (length more)).
    { induction more as [|y ys IH]; simpl; [reflexivity|now rewrite IH]. }
    rewrite E1, E2, rev_app_distr, rev_repeat, rev_app_distr. simpl.
    rewrite drop_repeated_end_repeat by assumption. simpl.
    rewrite rev_involutive, <- app_assoc. reflexivity.
Qed.

(** ** The checks of the submission server *)

Lemma fold_left_Qplus_shift (l : list Q) (a : Q) :
  fold_left Qplus l a == a + fold_left Qplus l 0.
Proof.
  revert a. induction l as [|x l IH]; intros a; simpl; [lra|].
  rewrite (IH (a + x)), (IH (0 + x)). lra.
Qed.

Lemma fold_left_Qplus_nonneg (l : list Q) :
  (forall x, In x l -> 0 <= x) -> 0 <= fold_left Qplus l 0.
Proof.
  induction l as [|x l IH]; intros Hl; simpl; [lra|].
  rewrite fold_left_Qplus_shift.
  assert (0 <= x) by (apply Hl; now left).
  assert (0 <= fold_left Qplus l 0) by (apply IH; intros; apply Hl; now right).
  lra.
Qed.

Lemma fold_left_Qplus_zero (l : list Q) :
  (forall x, In x l -> 0 <= x) ->
  (fold_left Qplus l 0 <= 0 <-> forall x, In x l -> x == 0).
Proof.
  induction l as [|x l IH]; intros Hl; simpl.
  - split; [intros _ y []|intros _; lra].
  - assert (Hx : 0 <= x) by (apply Hl; now left).
    assert (Hl' : forall y, In y l -> 0 <= y) by (intros; apply Hl; now right).
    pose proof (fold_left_Qplus_nonneg l Hl') as Hs.
    rewrite fold_left_Qplus_shift. split.
    + intros Hle y [<-|Hy]; [lra|].
      apply (proj1 (IH Hl')); [lra|assumption].
    + intros Hz.
      assert (x == 0) by (apply Hz; now left).
      assert (fold_left Qplus l 0 <= 0).
      { apply (proj2 (IH Hl')). intros; apply Hz; now right. }
      lra.
Qed.

Lemma compute_path_length_sum `{Geometry} (path : list Coordinate) :
  Submission.compute_path_length path
  = fold_left Qplus
      (map (fun leg => distance_to (fst leg) (snd leg)) (legs path)) 0.
Proof.
  unfold Submission.compute_path_length. generalize 0. generalize (legs path).
  induction l as [|leg l IH]; intros a; simpl; [reflexivity|apply IH].
Qed.

Lemma legs_cons {A : Type} (a b : A) (rest : list A) :
  legs (a :: b :: rest) = (a, b) :: legs (b :: rest).
Proof. reflexivity. Qed.

Lemma legs_app {A : Type} (front : list A) (a : A) (back : list A) :
  legs (front ++ a :: back) = legs (front ++ [a]) ++ legs (a :: back).
Proof.
  induction front as [|b front IH]; [reflexivity|].
  destruct front as [|c front].
  - simpl. destruct back; reflexivity.
  - change ((b :: c :: front) ++ a :: back)
      with (b :: c :: (front ++ a :: back)).
    change ((b :: c :: front) ++ [a]) with (b :: c :: (front ++ [a])).
    rewrite !legs_cons. simpl. f_equal. exact IH.
Qed.

Lemma fold_left_Qplus_app (l l' : list Q) :
  fold_left Qplus (l ++ l') 0
  == fold_left Qplus l 0 + fold_left Qplus l' 0.
Proof.
  rewrite fold_left_app.
  rewrite (fold_left_Qplus_shift l' (fold_left Qplus l 0)). lra.
Qed.

(** X6. The two measures of the submission server: the length under
    radar detection is never negative and never more than the length of
    the path, it is zero when the scenario has no radar, and the length
    of a path is the sum of the lengths of its two parts when it is cut
    at one of its points.  A path of fewer than two points crosses
    nothing. *)
Theorem submission_measures `{G : Geometry} {GL : GeometryLaws G}
  (path : list Coordinate) (enemies : list Enemy) :
  0 <= Submission.compute_radar_detection_distance path enemies /\
  Submission.compute_radar_detection_distance path enemies
  <= Submission.compute_path_length path /\
  (filter is_Radar enemies = [] ->
   Submission.compute_radar_detection_distance path enemies == 0) /\
  (forall front a back,
      path = front ++ a :: back ->
      Submission.compute_path_length path
      == Submission.compute_path_length (front ++ [a])
         + Submission.compute_path_length (a :: back)) /\
  ((length path < 2)%nat ->
   Submission.path_crosses_no_entrance path enemies = false /\
   Submission.compute_path_length path == 0).
Proof.
  rewrite compute_path_length_sum.
  unfold Submission.compute_radar_detection_distance.
  set (seen := fun leg : Coordinate * Coordinate =>
                 existsb (fun enemy =>
                            negb (enemy_is_legal_leg enemy (fst leg) (snd leg)))
                         (filter is_Radar enemies)).
  set (len := fun leg : Coordinate * Coordinate =>
                distance_to (fst leg) (snd leg)).
  assert (Hlen : forall l x, In x (map len l) -> 0 <= x).
  { intros l x Hx. apply in_map_iff in Hx. destruct Hx as (leg & <- & _).
    apply distance_nonneg. }
  split; [|split; [|split; [|split]]].
  - apply fold_left_Qplus_nonneg, Hlen.
  - induction (legs path) as [|leg l IH]; simpl; [lra|].
    destruct (seen leg); simpl.
    + rewrite (fold_left_Qplus_shift _ (0 + len leg)).
      rewrite (fold_left_Qplus_shift (map len l) (0 + len leg)). lra.
    + rewrite (fold_left_Qplus_shift (map len l) (0 + len leg)).
      assert (0 <= len leg) by apply distance_nonneg. lra.
  - intros Hnone.
    assert (E : filter seen (legs path) = []).
    { induction (legs path) as [|leg l IH]; [reflexivity|].
      simpl. unfold seen at 1. rewrite Hnone. simpl. exact IH. }
    rewrite E. simpl. lra.
  - intros front a back ->.
    rewrite !compute_path_length_sum, legs_app, map_app.
    apply fold_left_Qplus_app.
  - intros Hshort.
    assert (E : legs path = []).
    { destruct path as [|a [|b rest]]; try reflexivity. simpl in Hshort. lia. }
    unfold Submission.path_crosses_no_entrance. rewrite E. simpl.
    split; [reflexivity|lra].
Qed.

Lemma submission_measures_witness :
  0 <= Submission.compute_radar_detection_distance (H := BoxWorld.geometry)
         [Examples.origin; Examples.goal] [Examples.radar] /\
  Submission.compute_radar_detection_distance (H := BoxWorld.geometry)
    [Examples.origin; Examples.goal] [Examples.radar]
  <= Submission.compute_path_length (H := BoxWorld.geometry)
       [Examples.origin; Examples.goal].
Proof.
  pose proof (@submission_measures BoxWorld.geometry BoxWorld_laws
                [Examples.origin; Examples.goal] [Examples.radar])
    as (H0 & H1 & _).
  split; [exact H0|exact H1].
Defined.

Lemma existsb_false_iff {A : Type} (f : A -> bool) (l : list A) :
  existsb f l = false <-> forall a, In a l -> f a = false.
Proof.
  induction l as [|b l IH]; simpl.
  - split; [intros _ a []|reflexivity].
  - rewrite orb_false_iff, IH. split.
    + intros [Hb Hl] a [<-|Ha]; auto.
    + intros Hall. split; [|intros a Ha]; apply Hall; auto.
Qed.

Lemma path_crosses_no_entrance_false `{Geometry} path enemies :
  Submission.path_crosses_no_entrance path enemies = false <->
  forall leg, In leg (legs path) -> legal_for_no_entrances enemies leg.
Proof.
  unfold Submission.path_crosses_no_entrance, legal_for_no_entrances.
  rewrite existsb_false_iff. split.
  - intros Hall leg Hleg enemy He Hr.
    specialize (Hall leg Hleg). rewrite existsb_false_iff in Hall.
    apply negb_false_iff. apply Hall. apply filter_In. split; [exact He|].
    now rewrite Hr.
  - intros Hall leg Hleg. rewrite existsb_false_iff. intros enemy He.
    apply filter_In in He. destruct He as [He Hr].
    apply negb_false_iff. apply Hall; [assumption..|].
    now apply negb_true_iff.
Qed.

Lemma no_detection_distance `{G : Geometry} {GL : GeometryLaws G}
  path enemies :
  Submission.compute_radar_detection_distance path enemies <= 0 <->
  forall leg enemy,
    In leg (legs path) -> In enemy enemies -> is_Radar enemy = true ->
    enemy_is_legal_leg enemy (fst leg) (snd leg) = false ->
    fst leg = snd leg.
Proof.
  unfold Submission.compute_radar_detection_distance.
  rewrite fold_left_Qplus_zero.
  2:{ intros x Hx. apply in_map_iff in Hx. destruct Hx as (leg & <- & _).
      apply distance_nonneg. }
  split.
  - intros Hall leg enemy Hleg He Hr Hl.
    destruct (eq_dec (fst leg) (snd leg)) as [E|N]; [exact E|exfalso].
    pose proof (distance_pos N) as Hpos.
    assert (Hz : distance_to (fst leg) (snd leg) == 0).
    { apply Hall. apply in_map_iff. exists leg. split; [reflexivity|].
      apply filter_In. split; [exact Hleg|].
      apply existsb_exists. exists enemy. split.
      - apply filter_In. now split.
      - now rewrite Hl. }
    lra.
  - intros Hall x Hx. apply in_map_iff in Hx.
    destruct Hx as (leg & <- & Hleg). apply filter_In in Hleg.
    destruct Hleg as [Hleg Hseen]. apply existsb_exists in Hseen.
    destruct Hseen as (enemy & He & Hl). apply filter_In in He.
    destruct He as [He Hr]. apply negb_true_iff in Hl.
    rewrite (Hall leg enemy Hleg He Hr Hl). apply distance_self.
Qed.

(** X7. What the submission server accepts.  [submit_button_clicked]
    goes on to [save_path] with the length of the path exactly when the
    path starts at the source, ends at the target, every leg is legal
    for every enemy that is not a radar, and a leg that some radar
    refuses has its two end points equal (it has no length).  An empty
    path raises [IndexError] at [path[0]]. *)
Theorem accepted_path `{G : Geometry} {GL : GeometryLaws G}
  (source target : Coordinate) (enemies : list Enemy)
  (path : list Coordinate) (len : Q) :
  (Submission.check_path source target enemies path
   = Return (Submission.Legal len) <->
   (exists rest, path = source :: rest) /\
   (exists front, path = front ++ [target]) /\
   (forall leg enemy,
       In leg (legs path) -> In enemy enemies ->
       enemy_is_legal_leg enemy (fst leg) (snd leg) = true \/
       (is_Radar enemy = true /\ fst leg = snd leg)) /\
   len = Submission.compute_path_length path) /\
  Submission.check_path source target enemies [] = Raise IndexError.
Proof.
  split; [|reflexivity].
  unfold Submission.check_path.
  destruct path as [|first rest].
  { simpl. split; [discriminate|]. intros [[r Hr] _]. discriminate. }
  remember (first :: rest) as path eqn:Epath.
  assert (Efirst : Submission.first_item path = Return first)
    by (now subst path).
  rewrite Efirst. simpl.
  assert (Elast : exists front last, path = front ++ [last] /\
                                     last_item path = Return last).
  { unfold last_item. destruct (rev path) as [|z zs] eqn:Erev.
    - apply (f_equal (@rev _)) in Erev. rewrite rev_involutive in Erev.
      subst path. discriminate.
    - exists (rev zs), z. split; [|reflexivity].
      apply (f_equal (@rev _)) in Erev. now rewrite rev_involutive in Erev. }
  destruct Elast as (front & last & Efront & Elast). rewrite Elast. simpl.
  assert (Hlegal :
    (forall leg enemy,
        In leg (legs path) -> In enemy enemies ->
        enemy_is_legal_leg enemy (fst leg) (snd leg) = true \/
        (is_Radar enemy = true /\ fst leg = snd leg)) <->
    Submission.path_crosses_no_entrance path enemies = false /\
    Submission.compute_radar_detection_distance path enemies <= 0).
  { rewrite path_crosses_no_entrance_false, no_detection_distance.
    unfold legal_for_no_entrances. split.
    - intros Hall. split.
      + intros leg Hleg enemy He Hr.
        destruct (Hall leg enemy Hleg He) as [Hl|[Hr' _]]; congruence.
      + intros leg enemy Hleg He Hr Hl.
        destruct (Hall leg enemy Hleg He) as [Hl'|[_ E]]; congruence.
    - intros [Hno Hdet] leg enemy Hleg He.
      destruct (enemy_is_legal_leg enemy (fst leg) (snd leg)) eqn:Hl;
        [now left|right].
      destruct (is_Radar enemy) eqn:Hr.
      + split; [reflexivity|]. now apply (Hdet leg enemy).
      + rewrite (Hno leg Hleg enemy He Hr) in Hl. discriminate. }
  rewrite Hlegal. clear Hlegal.
  destruct (eqb source first) eqn:Es; simpl.
  2:{ apply eqb_neq in Es. split; [discriminate|].
      intros [[r Hr] _]. rewrite Epath in Hr. congruence. }
  apply eqb_eq in Es. subst first.
  destruct (eqb target last) eqn:Et; simpl.
  2:{ apply eqb_neq in Et. split; [discriminate|].
      intros (_ & [f Hf] & _). rewrite Efront in Hf.
      apply app_inj_tail in Hf. destruct Hf as [_ Hf]. congruence. }
  apply eqb_eq in Et. subst last.
  destruct (Submission.path_crosses_no_entrance path enemies) eqn:Ec.
  { split; [discriminate|]. intros (_ & _ & [Hc _] & _). discriminate. }
  destruct (Qlt_bool 0 (Submission.compute_radar_detection_distance
                          path enemies)) eqn:Ed.
  { split; [discriminate|]. intros (_ & _ & [_ Hd] & _).
    apply Qlt_bool_iff in Ed. lra. }
  apply Qlt_bool_false_iff in Ed. split.
  - intros [= <-]. repeat split; eauto.
  - intros (_ & _ & _ & ->). reflexivity.
Qed.

Lemma accepted_path_witness :
  Submission.check_path (H := BoxWorld.geometry) Examples.origin Examples.goal
    [Examples.wall]
    [Examples.origin; coordinate 5 2; Examples.goal]
  = Return (Submission.Legal
              (Submission.compute_path_length (H := BoxWorld.geometry)
                 [Examples.origin; coordinate 5 2; Examples.goal])).
Proof.
  apply (proj1 (@accepted_path BoxWorld.geometry BoxWorld_laws
                  Examples.origin Examples.goal [Examples.wall]
                  [Examples.origin; coordinate 5 2; Examples.goal] _)).
  split; [eexists; reflexivity|].
  split; [exists [Examples.origin; coordinate 5 2]; reflexivity|].
  split; [|reflexivity].
  intros leg enemy Hleg [<-|[]]. left.
  destruct Hleg as [<-|[<-|[]]]; vm_compute; reflexivity.
Defined.

(** ** What the edges of the visibility graphs have in common *)

Section EdgeInvariant.

Context {N : Type} `{EqDec N} {A : Type}.
Variable P : N -> N -> A -> Prop.

Definition edges_satisfy (g : DiGraph N A) : Prop :=
  forall u v a, In ((u, v), a) (edges g) -> P u v a.

Lemma edges_satisfy_add_node g n :
  edges_satisfy g -> edges_satisfy (add_node g n).
Proof. unfold edges_satisfy. now rewrite edges_add_node. Qed.

Lemma edges_satisfy_add_nodes_from g ns :
  edges_satisfy g -> edges_satisfy (add_nodes_from g ns).
Proof. unfold edges_satisfy. now rewrite edges_add_nodes_from. Qed.

Lemma edges_satisfy_add_edge g u v a :
  P u v a -> edges_satisfy g -> edges_satisfy (add_edge g u v a).
Proof.
  intros Hp Hg u' v' a' Hin. apply In_edges_add_edge in Hin.
  destruct Hin as [[[= -> ->] ->]|Hin]; [assumption|now apply Hg].
Qed.

Lemma Walk_legs g s t p :
  Walk g s t p -> edges_satisfy g ->
  forall leg, In leg (legs p) ->
              exists a, get_edge g (fst leg) (snd leg) = Some a /\
                        P (fst leg) (snd leg) a.
Proof.
  intros W Hg. induction W as [s|s v t a p E W IH]; [intros leg []|].
  destruct (Walk_head W) as [r ->]. rewrite legs_cons.
  intros leg [<-|Hleg]; [|now apply IH].
  exists a. split; [exact E|]. apply Hg. now apply get_edge_In.
Qed.

Lemma In_keys_set_edge (es : list ((N * N) * A)) k a k' :
  In k' (map fst (set_edge es k a)) -> k' = k \/ In k' (map fst es).
Proof.
  intros Hin. apply in_map_iff in Hin. destruct Hin as ([k0 a0] & <- & Hin).
  apply In_set_edge in Hin. destruct Hin as [[-> _]|Hin]; [now left|right].
  apply in_map_iff. now exists (k0, a0).
Qed.

Lemma NoDup_keys_set_edge (es : list ((N * N) * A)) k a :
  NoDup (map fst es) -> NoDup (map fst (set_edge es k a)).
Proof.
  induction es as [|[k0 a0] es IH]; simpl; intros ND.
  - repeat constructor. intros [].
  - inversion ND as [|x l Hout ND']; subst.
    destruct (eqb k k0) eqn:E; simpl.
    + apply eqb_eq in E. subst k0. now constructor.
    + constructor; [|now apply IH].
      intros Hin. apply In_keys_set_edge in Hin.
      destruct Hin as [->|Hin]; [|contradiction].
      rewrite eqb_refl in E. discriminate.
Qed.

Lemma NoDup_keys_add_edge (g : DiGraph N A) u v a :
  NoDup (map fst (edges g)) -> NoDup (map fst (edges (add_edge g u v a))).
Proof.
  intros ND. unfold add_edge. simpl. rewrite !edges_add_node.
  now apply NoDup_keys_set_edge.
Qed.

End EdgeInvariant.

Lemma no_entrance_sym `{G : Geometry} {GL : GeometryLaws G} enemy a b :
  is_Radar enemy = false ->
  enemy_is_legal_leg enemy a b = enemy_is_legal_leg enemy b a.
Proof.
  destruct enemy as [boundary|center radius|center radius]; simpl;
    [intros _..|discriminate].
  - unfold AsteroidsZone_.is_legal_leg. now rewrite intersects_sym.
  - unfold ObservationPost_.is_legal_leg. now rewrite intersects_sym.
Qed.

Lemma legal_leg_no_entrances `{G : Geometry} {GL : GeometryLaws G}
  enemies a b :
  forallb (fun enemy => enemy_is_legal_leg enemy a b) enemies = true ->
  legal_for_no_entrances enemies (a, b) /\
  legal_for_no_entrances enemies (b, a).
Proof.
  intros L. rewrite forallb_forall in L.
  split; intros enemy He Hr; simpl.
  - now apply L.
  - rewrite <- (no_entrance_sym enemy a b Hr). now apply L.
Qed.

Lemma Stage1_edges_legal `{G : Geometry} {GL : GeometryLaws G}
  source target enemies :
  edges_satisfy (fun u v (_ : Q) => legal_for_no_entrances enemies (u, v))
                (Stage1.build_graph source target enemies).
Proof.
  unfold Stage1.build_graph, Stage1.connect_pairs.
  apply fold_left_invariant
    with (P := edges_satisfy
                 (fun u v (_ : Q) => legal_for_no_entrances enemies (u, v))).
  - unfold Stage1.add_enemies_to_graph.
    apply fold_left_invariant
      with (P := edges_satisfy
                   (fun u v (_ : Q) => legal_for_no_entrances enemies (u, v))).
    + apply edges_satisfy_add_node, edges_satisfy_add_node. intros u v a [].
    + intros g enemy _ Hg.
      destruct enemy; try assumption; now apply edges_satisfy_add_nodes_from.
  - intros g [node1 node2] _ Hg.
    destruct (Stage1.is_legal_leg node1 node2 enemies) eqn:L; [|assumption].
    destruct (legal_leg_no_entrances enemies node1 node2 L) as [L1 L2].
    unfold add_undirected_edge.
    now apply edges_satisfy_add_edge, edges_satisfy_add_edge.
Qed.

Lemma Stage2_edges_legal `{G : Geometry} {GL : GeometryLaws G}
  source target enemies (draws rest : Draws) (graph : Stage2.Graph) :
  Stage2.add_nodes_inside_radars
    (Stage2.connect_pairs enemies (Stage2.seed_graph source target enemies))
    enemies draws = Return (graph, rest) ->
  edges_satisfy (fun u v (_ : Q) => legal_for_no_entrances enemies (u, v))
                graph.
Proof.
  set (P := edges_satisfy
              (fun u v (_ : Q) => legal_for_no_entrances enemies (u, v))).
  assert (Hpairs : P (Stage2.connect_pairs enemies
                        (Stage2.seed_graph source target enemies))).
  { unfold Stage2.connect_pairs.
    apply fold_left_invariant with (P := P).
    - intros u v a Hin.
      rewrite (proj2 (Stage2_seed_NoDup source target enemies)) in Hin.
      destruct Hin.
    - intros g [node1 node2] _ Hg.
      destruct (Stage2.is_legal_leg node1 node2 enemies) eqn:L; [|assumption].
      destruct (legal_leg_no_entrances enemies node1 node2 L) as [L1 L2].
      now apply edges_satisfy_add_edge, edges_satisfy_add_edge. }
  unfold Stage2.add_nodes_inside_radars.
  destruct (Nat.eqb _ 0); [now intros [= <- _]|].
  destruct (Stage2.sample_radars _ _ draws) as [[new_nodes draws']| |];
    simpl; try discriminate.
  intros [= <- _].
  apply fold_left_invariant with (P := P); [assumption|].
  intros g node _ Hg. unfold Stage2.connect_node.
  apply fold_left_invariant with (P := P).
  - now apply edges_satisfy_add_node.
  - intros g' other _ Hg'.
    destruct (eqb other node || Qlt_bool _ _); [assumption|].
    destruct (Stage2.is_legal_leg node other enemies) eqn:L1;
      destruct (Stage2.is_legal_leg other node enemies) eqn:L2;
      try assumption;
      repeat (apply edges_satisfy_add_edge;
              [first [exact (proj1 (legal_leg_no_entrances enemies _ _ L1))
                     |exact (proj1 (legal_leg_no_entrances enemies _ _ L2))]|]);
      assumption.
Qed.

Lemma walk_is_admissible `{G : Geometry} enemies (graph : DiGraph Coordinate Q)
  source target path :
  edges_satisfy (fun u v (_ : Q) => legal_for_no_entrances enemies (u, v))
                graph ->
  Walk graph source target path ->
  (exists rest, path = source :: rest) /\
  (exists front, path = front ++ [target]) /\
  Submission.path_crosses_no_entrance path enemies = false.
Proof.
  intros Hg W. split; [exact (Walk_head W)|]. split; [exact (Walk_last W)|].
  apply path_crosses_no_entrance_false. intros [u v] Hleg.
  destruct (Walk_legs _ _ _ _ _ W Hg (u, v) Hleg) as (a & _ & Hp).
  exact Hp.
Qed.

(** X8. A path that stage 1 or stage 2 returns passes the first three
    checks of the submission server: unless it is the empty "no path"
    answer it starts at the source, ends at the target, and none of its
    legs crosses an asteroids zone or an observation post.  (The legs are
    tested in one direction only when the graph is built; the reverse
    direction is covered because a leg and its reverse are the same
    segment.) *)
Theorem visibility_path_admissible `{G : Geometry} {GL : GeometryLaws G}
  `{SP : ShortestPath} {SPL : ShortestPathLaws SP}
  (source target : Coordinate) (enemies : list Enemy) :
  (forall path graph,
      Stage1.calculate_path source target enemies = Return (path, graph) ->
      path <> [] ->
      (exists rest, path = source :: rest) /\
      (exists front, path = front ++ [target]) /\
      Submission.path_crosses_no_entrance path enemies = false) /\
  (forall draws path graph,
      Stage2.calculate_path source target enemies draws
      = Return (path, graph) ->
      path <> [] ->
      (exists rest, path = source :: rest) /\
      (exists front, path = front ++ [target]) /\
      Submission.path_crosses_no_entrance path enemies = false).
Proof.
  split.
  - intros path graph. unfold Stage1.calculate_path.
    destruct (shortest_path (fun dist : Q => dist)
                (Stage1.build_graph source target enemies) source target)
      as [p|e|] eqn:S; simpl; try discriminate.
    + intros [= <- _] _. apply sp_walk in S.
      eapply walk_is_admissible; [|exact S]. apply Stage1_edges_legal.
    + destruct e; simpl; try discriminate. intros [= <- _] Hne. congruence.
  - intros draws path graph. unfold Stage2.calculate_path.
    destruct (Stage2.add_nodes_inside_radars _ enemies draws)
      as [[g rest]| |] eqn:B; simpl; try discriminate.
    destruct (shortest_path (fun dist : Q => dist) g source target)
      as [p|e|] eqn:S; simpl; try discriminate.
    + intros [= <- _] _. apply sp_walk in S.
      eapply walk_is_admissible; [|exact S].
      eapply Stage2_edges_legal. exact B.
    + destruct e; simpl; try discriminate. intros [= <- _] Hne. congruence.
Qed.

Lemma visibility_path_admissible_witness :
  exists path graph,
    Stage1.calculate_path (H := BoxWorld.geometry) (H0 := reference_solver)
      Examples.origin Examples.goal [Examples.wall] = Return (path, graph) /\
    path <> [] /\
    Submission.path_crosses_no_entrance (H := BoxWorld.geometry)
      path [Examples.wall] = false.
Proof.
  eexists. eexists. split; [vm_compute; reflexivity|].
  split; [discriminate|].
  eapply (proj1 (@visibility_path_admissible BoxWorld.geometry BoxWorld_laws
                   reference_solver reference_solver_laws
                   Examples.origin Examples.goal [Examples.wall])).
  - vm_compute. reflexivity.
  - discriminate.
Defined.

(** ** Stage 1 and the radars *)

Lemma Stage1_radars_add_no_node `{Geometry} enemies : forall graph,
  (forall enemy, In enemy enemies -> is_Radar enemy = true) ->
  Stage1.add_enemies_to_graph graph enemies = graph.
Proof.
  unfold Stage1.add_enemies_to_graph.
  induction enemies as [|enemy enemies IH]; intros graph Hr; [reflexivity|].
  cbn [fold_left]. assert (He : is_Radar enemy = true) by (apply Hr; now left).
  destruct enemy; try discriminate.
  apply IH. intros e' He'. apply Hr. now right.
Qed.

Lemma Stage1_radars_graph `{Geometry} source target enemies :
  (forall enemy, In enemy enemies -> is_Radar enemy = true) ->
  source <> target ->
  Stage1.build_graph source target enemies
  = if Stage1.is_legal_leg source target enemies
    then add_undirected_edge (mkGraph [source; target] []) source target
                             (distance_to source target)
    else mkGraph [source; target] [].
Proof.
  intros Hr Hneq. unfold Stage1.build_graph.
  rewrite Stage1_radars_add_no_node by assumption.
  assert (E : add_node (add_node (empty_graph (A := Q)) source) target
              = mkGraph [source; target] []).
  { unfold add_node at 2. simpl. unfold add_node, has_node. simpl.
    assert (En : eqb target source = false)
      by (apply eqb_neq; congruence).
    rewrite En. reflexivity. }
  rewrite E. unfold Stage1.connect_pairs. simpl.
  destruct (Stage1.is_legal_leg source target enemies); reflexivity.
Qed.

(** X9. Stage 1 never goes around a radar.  When all the enemies are
    radars the graph has the two nodes [source] and [target] only, and
    the answer is the straight leg when [is_legal_leg] accepts it and
    the empty path otherwise. *)
Theorem stage1_straight_or_nothing `{G : Geometry} {GL : GeometryLaws G}
  `{SP : ShortestPath} {SPL : ShortestPathLaws SP}
  (source target : Coordinate) (enemies : list Enemy) :
  (forall enemy, In enemy enemies -> is_Radar enemy = true) ->
  source <> target ->
  Stage1.calculate_path source target enemies
  = Return (if Stage1.is_legal_leg source target enemies
            then [source; target] else [],
            Stage1.build_graph source target enemies).
Proof.
  intros Hr Hneq. unfold Stage1.calculate_path.
  rewrite (Stage1_radars_graph source target enemies Hr Hneq).
  destruct (Stage1.is_legal_leg source target enemies).
  - set (d := distance_to source target).
    set (g := add_undirected_edge (mkGraph [source; target] []) source target d).
    assert (Hd : 0 < d) by (apply distance_pos; assumption).
    assert (Hedge : forall u v a,
               get_edge g u v = Some a ->
               a = d /\ ((u = source /\ v = target) \/
                         (u = target /\ v = source))).
    { intros u v a. unfold g, add_undirected_edge.
      rewrite !get_edge_add_edge.
      destruct (eqb (u, v) (target, source)) eqn:E1.
      - apply eqb_eq in E1. injection E1 as -> ->. intros [= <-]. auto.
      - destruct (eqb (u, v) (source, target)) eqn:E2.
        + apply eqb_eq in E2. injection E2 as -> ->. intros [= <-]. auto.
        + discriminate. }
    assert (Est : get_edge g source target = Some d).
    { unfold g, add_undirected_edge. rewrite !get_edge_add_edge.
      destruct (eqb (source, target) (target, source)) eqn:E1; [reflexivity|].
      now rewrite eqb_refl. }
    assert (Ets : get_edge g target source = Some d).
    { unfold g, add_undirected_edge. rewrite !get_edge_add_edge.
      now rewrite eqb_refl. }
    assert (Hs : In source (nodes g)).
    { unfold g, add_undirected_edge. rewrite !nodes_add_edge. auto. }
    assert (Ht : In target (nodes g)).
    { unfold g, add_undirected_edge. rewrite !nodes_add_edge. auto. }
    assert (W : Walk g source target [source; target]).
    { eapply Walk_step; [exact Est|constructor]. }
    assert (Hn : nonneg_weights (fun dist : Q => dist) g).
    { intros [u v] a Hin. unfold g, add_undirected_edge in Hin.
      apply In_edges_add_edge in Hin. destruct Hin as [[_ ->]|Hin]; [lra|].
      apply In_edges_add_edge in Hin. destruct Hin as [[_ ->]|[]]. lra. }
    assert (S : exists p, shortest_path (fun dist : Q => dist) g
                            source target = Return p)
      by (eapply sp_found; eassumption).
    destruct S as [p S]. rewrite S. simpl. f_equal. f_equal.
    assert (Wp : Walk g source target p) by (eapply sp_walk; exact S).
    assert (Hle : walk_weight (fun dist : Q => dist) g p
                  <= walk_weight (fun dist : Q => dist) g [source; target])
      by (eapply sp_shortest; eassumption).
    inversion Wp as [|s v t a p' E W' Es Et]; subst; [congruence|].
    destruct (Hedge _ _ _ E) as [-> [[_ ->]|[-> _]]]; [|congruence].
    inversion W' as [|s v t a p'' E' W'' Es Et]; subst; [reflexivity|].
    exfalso.
    destruct (Hedge _ _ _ E') as [-> [[-> _]|[_ ->]]]; [congruence|].
    destruct (Walk_head W'') as [r ->].
    rewrite !walk_weight_cons in Hle.
    unfold edge_weight at 1 2 3 in Hle. rewrite Est, Ets in Hle.
    pose proof (walk_weight_nonneg (source :: r) Hn) as H0.
    change (walk_weight (fun dist : Q => dist) g [target]) with 0 in Hle.
    set (w := walk_weight (fun dist : Q => dist) g (source :: r)) in *.
    clearbody w. clearbody g. clearbody d. lra.
  - set (g := mkGraph [source; target] ([] : list ((_ * _) * Q))).
    assert (E : shortest_path (fun dist : Q => dist) g source target
                = Raise NetworkXNoPath).
    { apply sp_no_path; [simpl; auto..|].
      intros p W. inversion W as [|s v t a p' E W' Es Et]; subst;
        [congruence|discriminate]. }
    rewrite E. reflexivity.
Qed.

Lemma stage1_straight_or_nothing_witness :
  Stage1.calculate_path (H := BoxWorld.geometry) (H0 := reference_solver)
    Examples.origin Examples.goal [Examples.radar]
  = Return (if Stage1.is_legal_leg (H := BoxWorld.geometry)
                 Examples.origin Examples.goal [Examples.radar]
            then [Examples.origin; Examples.goal] else [],
            Stage1.build_graph (H := BoxWorld.geometry)
              Examples.origin Examples.goal [Examples.radar]).
Proof.
  apply (@stage1_straight_or_nothing BoxWorld.geometry BoxWorld_laws
           reference_solver reference_solver_laws
           Examples.origin Examples.goal [Examples.radar]).
  - intros enemy [<-|[]]. reflexivity.
  - discriminate.
Defined.

(** ** The folded angle of the radar *)

Lemma floor_unique (z : Z) (a : Q) :
  inject_Z z <= a -> a < inject_Z z + 1 -> Qfloor a = z.
Proof.
  intros Hlo Hhi. apply Z.le_antisymm.
  - destruct (Z_le_gt_dec (Qfloor a) z) as [Hle|Hgt]; [assumption|exfalso].
    assert (Hz : (z + 1 <= Qfloor a)%Z) by lia.
    apply floor_le_iff in Hz. rewrite inject_Z_succ in Hz. lra.
  - now apply floor_le_iff.
Qed.

Lemma mod_unique (a m : Q) (z : Z) (r : Q) :
  0 < m -> a == inject_Z z * m + r -> 0 <= r -> r < m ->
  PyFloat.mod_ a m == r.
Proof.
  intros Hm Ea Hlo Hhi. unfold PyFloat.mod_, PyFloat.floordiv.
  assert (Ef : Qfloor (a / m) = z).
  { apply floor_unique.
    - apply (div_ge_iff _ _ Hm). lra.
    - apply (div_lt_iff _ _ Hm).
      assert (E : (inject_Z z + 1) * m == inject_Z z * m + m) by ring.
      lra. }
  rewrite Ef. lra.
Qed.

Lemma mod_decompose (a m : Q) :
  a == inject_Z (Qfloor (a / m)) * m + PyFloat.mod_ a m.
Proof. unfold PyFloat.mod_, PyFloat.floordiv. ring. Qed.

(** The if-chain of [_compute_direction_diff] gives the same angle for
    the remainders [r] and [r'] when they are opposite, or half a turn
    apart, or equal. *)
Lemma fold_quadrants (p h t r r' : Q) :
  0 < p -> h == (1 # 2) * p -> t == (3 # 2) * p ->
  0 <= r -> r < 2 * p -> 0 <= r' -> r' < 2 * p ->
  (r == 0 /\ r' == 0) \/ r' == 2 * p - r \/ r' == r + p \/ r' == r - p
  \/ r' == r ->
  (if Qle_bool r' h then r'
   else if Qle_bool r' p then p - r'
   else if Qle_bool r' t then r' - p
   else 2 * p - r')
  == (if Qle_bool r h then r
      else if Qle_bool r p then p - r
      else if Qle_bool r t then r - p
      else 2 * p - r).
Proof.
  intros Hp Eh Et Hr0 Hr1 Hr'0 Hr'1 Hcases.
  repeat match goal with
         | |- context [Qle_bool ?a ?b] =>
             let C := fresh "C" in
             destruct (Qle_bool a b) eqn:C;
             [apply Qle_bool_iff in C|apply Qle_bool_false_iff in C]
         end;
    destruct Hcases as [[E1 E2]|[E|[E|[E|E]]]]; lra.
Qed.

(** X10. The angle that [_compute_direction_diff] returns lies between
    0 and 90 degrees, and it is the same when the two directions are
    swapped, when half a turn is added to the first direction (the leg
    is flown backwards), and when any number of full turns is added.
    Floats are read as exact rationals. *)
Theorem direction_diff_symmetries (direction1 direction2 : Q) :
  (0 <= Radar_._compute_direction_diff direction1 direction2 /\
   Radar_._compute_direction_diff direction1 direction2
   <= PyFloat.radians 90) /\
  Radar_._compute_direction_diff direction2 direction1
  == Radar_._compute_direction_diff direction1 direction2 /\
  Radar_._compute_direction_diff (direction1 + PyFloat.pi) direction2
  == Radar_._compute_direction_diff direction1 direction2 /\
  (forall turns : Z,
      Radar_._compute_direction_diff
        (direction1 + inject_Z turns * (2 * PyFloat.pi)) direction2
      == Radar_._compute_direction_diff direction1 direction2).
Proof.
  split; [apply direction_diff_range|].
  unfold Radar_._compute_direction_diff. cbv zeta.
  pose proof pi_pos as Hpi.
  assert (Hm : 0 < 2 * PyFloat.pi) by lra.
  assert (Eh : PyFloat.pi / 2 == (1 # 2) * PyFloat.pi) by field.
  assert (Et : 3 * PyFloat.pi / 2 == (3 # 2) * PyFloat.pi) by field.
  pose proof (mod_decompose (direction1 - direction2) (2 * PyFloat.pi)) as Ea.
  destruct (mod_range (direction1 - direction2) Hm) as [Hlo Hhi].
  revert Ea Hlo Hhi.
  generalize (Qfloor ((direction1 - direction2) / (2 * PyFloat.pi))).
  generalize (PyFloat.mod_ (direction1 - direction2) (2 * PyFloat.pi)).
  intros r z Ea Hlo Hhi.
  split; [|split].
  - destruct (mod_range (direction2 - direction1) Hm) as [Hlo' Hhi'].
    apply fold_quadrants; try assumption.
    destruct (Qeq_dec r 0) as [Ez|Nz].
    + left. split; [assumption|].
      apply (mod_unique _ _ (- z)); try lra.
      rewrite inject_Z_opp. lra.
    + right. left.
      apply (mod_unique _ _ (- z - 1)); try lra.
      unfold Zminus. rewrite inject_Z_plus, !inject_Z_opp.
      change (inject_Z 1) with 1. lra.
  - destruct (mod_range (direction1 + PyFloat.pi - direction2) Hm)
      as [Hlo' Hhi'].
    apply fold_quadrants; try assumption.
    right. right.
    destruct (Qlt_le_dec r PyFloat.pi) as [Hlt|Hge].
    + left. apply (mod_unique _ _ z); lra.
    + right. left. apply (mod_unique _ _ (z + 1)); try lra.
      rewrite inject_Z_succ. lra.
  - intros turns.
    destruct (mod_range (direction1 + inject_Z turns * (2 * PyFloat.pi)
                         - direction2) Hm) as [Hlo' Hhi'].
    apply fold_quadrants; try assumption.
    right. right. right. right.
    apply (mod_unique _ _ (z + turns)); try lra.
    rewrite inject_Z_plus. lra.
Qed.

(** ** The rejection sampler *)

(** The point that one round of [sample_in_polygon] tries, from its two
    draws. *)
Definition candidate `{Geometry} (polygon_ : Polygon) (u1 u2 : Q)
  : Coordinate :=
  let '(left_, bottom, right_, top) := bounds polygon_ in
  coordinate (uniform left_ right_ u1) (uniform bottom top u2).

(** The draws of the rounds [rounds], in the order they are made. *)
Definition draws_of (rounds : list (Q * Q)) : Draws :=
  flat_map (fun round => [fst round; snd round]) rounds.

Lemma sample_in_polygon_round `{Geometry} (polygon_ : Polygon) u1 u2
  (rest : Draws) :
  Stage2.sample_in_polygon polygon_ (u1 :: u2 :: rest)
  = if contains polygon_ (candidate polygon_ u1 u2)
    then Return (candidate polygon_ u1 u2, rest)
    else Stage2.sample_in_polygon polygon_ rest.
Proof.
  unfold candidate. destruct rest as [|v1 [|v2 rest]]; simpl;
    destruct (bounds polygon_) as [[[l b] r] t]; reflexivity.
Qed.

Lemma sample_in_polygon_short `{Geometry} (polygon_ : Polygon)
  (draws : Draws) :
  (length draws < 2)%nat ->
  Stage2.sample_in_polygon polygon_ draws = OutOfFuel.
Proof.
  destruct draws as [|u1 [|u2 rest]]; simpl; intros L;
    destruct (bounds polygon_) as [[[l b] r] t]; try reflexivity; lia.
Qed.

Lemma sample_in_polygon_rejected `{Geometry} (polygon_ : Polygon)
  (rounds : list (Q * Q)) (rest : Draws) :
  (forall round, In round rounds ->
                 contains polygon_ (candidate polygon_ (fst round) (snd round))
                 = false) ->
  Stage2.sample_in_polygon polygon_ (draws_of rounds ++ rest)
  = Stage2.sample_in_polygon polygon_ rest.
Proof.
  induction rounds as [|[u1 u2] rounds IH]; intros Hrej; [reflexivity|].
  change (draws_of ((u1, u2) :: rounds) ++ rest)
    with (u1 :: u2 :: (draws_of rounds ++ rest)).
  rewrite sample_in_polygon_round.
  pose proof (Hrej (u1, u2) (or_introl eq_refl)) as C. simpl in C.
  rewrite C. apply IH. intros round Hr. apply Hrej. now right.
Qed.

Lemma sample_in_polygon_Return `{Geometry} (polygon_ : Polygon) :
  forall n (draws : Draws) c rest,
    (length draws <= n)%nat ->
    Stage2.sample_in_polygon polygon_ draws = Return (c, rest) ->
    exists rounds u1 u2,
      draws = draws_of rounds ++ u1 :: u2 :: rest /\
      (forall round, In round rounds ->
                     contains polygon_
                       (candidate polygon_ (fst round) (snd round)) = false) /\
      c = candidate polygon_ u1 u2 /\
      contains polygon_ c = true.
Proof.
  induction n as [|n IH]; intros draws c rest L S.
  - rewrite sample_in_polygon_short in S; [discriminate|].
    destruct draws; simpl in *; lia.
  - destruct draws as [|u1 [|u2 draws]];
      try (rewrite sample_in_polygon_short in S by (simpl; lia);
           discriminate).
    rewrite sample_in_polygon_round in S.
    destruct (contains polygon_ (candidate polygon_ u1 u2)) eqn:C.
    + injection S as <- <-. exists [], u1, u2. repeat split; auto.
      intros round [].
    + destruct (IH draws c rest) as (rounds & v1 & v2 & -> & Hrej & -> & Hc);
        [simpl in L; lia|exact S|].
      exists ((u1, u2) :: rounds), v1, v2. repeat split; auto.
      intros round [<-|Hr]; [exact C|now apply Hrej].
Qed.

Lemma sample_in_polygon_empty `{Geometry} (polygon_ : Polygon) :
  (forall c, contains polygon_ c = false) ->
  forall n (draws : Draws),
    (length draws <= n)%nat ->
    Stage2.sample_in_polygon polygon_ draws = OutOfFuel.
Proof.
  intros Hempty. induction n as [|n IH]; intros draws L.
  - apply sample_in_polygon_short. destruct draws; simpl in *; lia.
  - destruct draws as [|u1 [|u2 draws]];
      try (apply sample_in_polygon_short; simpl; lia).
    rewrite sample_in_polygon_round, Hempty. apply IH. simpl in L. lia.
Qed.

(** X11. [sample_in_polygon] returns the first candidate that the
    polygon contains.  Each round draws twice, the first draw for [x]
    between [left] and [right] and the second for [y] between [bottom]
    and [top]; the rounds before the one that returns were all
    rejected, and the draws after it are left for the next call.  It
    never raises, and on a polygon that contains no point it never
    returns, however many draws it is given. *)
Theorem sample_in_polygon_first_accepted `{Geometry} (polygon_ : Polygon) :
  (forall (draws : Draws) c rest,
      Stage2.sample_in_polygon polygon_ draws = Return (c, rest) <->
      exists rounds u1 u2,
        draws = draws_of rounds ++ u1 :: u2 :: rest /\
        (forall round, In round rounds ->
                       contains polygon_
                         (candidate polygon_ (fst round) (snd round))
                       = false) /\
        c = candidate polygon_ u1 u2 /\
        contains polygon_ c = true) /\
  (forall (draws : Draws) e,
      Stage2.sample_in_polygon polygon_ draws <> Raise e) /\
  ((forall c, contains polygon_ c = false) ->
   forall draws : Draws,
     Stage2.sample_in_polygon polygon_ draws = OutOfFuel).
Proof.
  split; [|split].
  - intros draws c rest. split.
    + now apply sample_in_polygon_Return with (n := length draws).
    + intros (rounds & u1 & u2 & -> & Hrej & -> & Hc).
      rewrite sample_in_polygon_rejected by assumption.
      now rewrite sample_in_polygon_round, Hc.
  - intros draws e.
    assert (Hn : forall n (d : Draws), (length d <= n)%nat ->
                   Stage2.sample_in_polygon polygon_ d <> Raise e).
    { induction n as [|n IH]; intros d L.
      - rewrite sample_in_polygon_short; [discriminate|].
        destruct d; simpl in *; lia.
      - destruct d as [|u1 [|u2 d]];
          try (rewrite sample_in_polygon_short by (simpl; lia);
               discriminate).
        rewrite sample_in_polygon_round.
        destruct (contains polygon_ (candidate polygon_ u1 u2));
          [discriminate|]. apply IH. simpl in L. lia. }
    now apply Hn with (n := length draws).
  - intros Hempty draws.
    now apply sample_in_polygon_empty with (n := length draws).
Qed.

(** ** How many nodes the sampling adds *)

Lemma sample_in_polygon_draws `{Geometry} (polygon_ : Polygon)
  (draws : Draws) c rest :
  Stage2.sample_in_polygon polygon_ draws = Return (c, rest) ->
  exists used, draws = used ++ rest /\ (2 <= length used)%nat.
Proof.
  intros S.
  apply sample_in_polygon_Return with (n := length draws) in S; [|lia].
  destruct S as (rounds & u1 & u2 & -> & _).
  exists (draws_of rounds ++ [u1; u2]). split.
  - now rewrite <- app_assoc.
  - rewrite length_app. simpl. lia.
Qed.

Lemma sample_many_count `{Geometry} (polygon_ : Polygon) :
  forall n (draws : Draws) new rest,
    Stage2.sample_many polygon_ n draws = Return (new, rest) ->
    length new = n /\
    exists used, draws = used ++ rest /\ (2 * n <= length used)%nat.
Proof.
  induction n as [|n IH]; intros draws new rest; cbn [Stage2.sample_many].
  - intros [= <- <-]. split; [reflexivity|]. exists []. split; [reflexivity|].
    simpl. lia.
  - destruct (Stage2.sample_in_polygon polygon_ draws) as [[c d1]| |] eqn:S1;
      simpl; try discriminate.
    destruct (Stage2.sample_many polygon_ n d1) as [[more d2]| |] eqn:S2;
      simpl; try discriminate.
    intros [= <- <-].
    destruct (sample_in_polygon_draws _ _ _ _ S1) as (used1 & -> & L1).
    destruct (IH _ _ _ S2) as (Hlen & used2 & -> & L2).
    split; [simpl; now rewrite Hlen|].
    exists (used1 ++ used2). split; [now rewrite <- app_assoc|].
    rewrite length_app. lia.
Qed.

Lemma sample_radars_count `{Geometry} (radars : list (Coordinate * Q))
  (samples_per_radar : nat) :
  forall (draws : Draws) new rest,
    Stage2.sample_radars radars samples_per_radar draws = Return (new, rest) ->
    length new = (length radars * samples_per_radar)%nat /\
    exists used, draws = used ++ rest /\
                 (2 * (length radars * samples_per_radar) <= length used)%nat.
Proof.
  induction radars as [|[center radius] radars IH]; intros draws new rest;
    cbn [Stage2.sample_radars].
  - intros [= <- <-]. split; [reflexivity|]. exists []. split; [reflexivity|].
    simpl. lia.
  - destruct (Stage2.sample_many _ samples_per_radar draws)
      as [[new1 d1]| |] eqn:S1; simpl; try discriminate.
    destruct (Stage2.sample_radars radars samples_per_radar d1)
      as [[new2 d2]| |] eqn:S2; simpl; try discriminate.
    intros [= <- <-].
    destruct (sample_many_count _ _ _ _ _ S1) as (Hlen1 & used1 & -> & L1).
    destruct (IH _ _ _ S2) as (Hlen2 & used2 & -> & L2).
    split; [rewrite length_app; lia|].
    exists (used1 ++ used2). split; [now rewrite <- app_assoc|].
    rewrite length_app. lia.
Qed.

Lemma length_nodes_add_node {N A : Type} `{EqDec N} (g : DiGraph N A) n :
  (length (nodes g) <= length (nodes (add_node g n)) <= S (length (nodes g)))%nat.
Proof.
  unfold add_node. destruct (has_node g n); simpl; [lia|].
  rewrite length_app. simpl. lia.
Qed.

Lemma nodes_add_edge_inside {N A : Type} `{EqDec N} (g0 g : DiGraph N A)
  u v a :
  nodes g = nodes g0 -> In u (nodes g0) -> In v (nodes g0) ->
  nodes (add_edge g u v a) = nodes g0.
Proof.
  intros E Hu Hv. rewrite nodes_add_edge_same; [exact E|now rewrite E..].
Qed.

Lemma Stage2_connect_node_same_nodes `{Geometry} enemies
  (graph : Stage2.Graph) node :
  nodes (Stage2.connect_node enemies graph node)
  = nodes (add_node graph node).
Proof.
  unfold Stage2.connect_node.
  apply fold_left_invariant
    with (P := fun g : Stage2.Graph => nodes g = nodes (add_node graph node)).
  - reflexivity.
  - intros g other Hother Hg.
    assert (Hnode : In node (nodes (add_node graph node)))
      by (apply nodes_add_node; now left).
    destruct (eqb other node || Qlt_bool _ _); [assumption|].
    destruct (Stage2.is_legal_leg other node enemies);
      destruct (Stage2.is_legal_leg node other enemies);
      cbv beta iota zeta;
      repeat (apply nodes_add_edge_inside; [|assumption|assumption]);
      exact Hg.
Qed.

Lemma Stage3_connect_node_same_nodes `{Geometry} enemies
  (graph : Stage3.Graph) node :
  nodes (Stage3.connect_node enemies graph node)
  = nodes (add_node graph node).
Proof.
  unfold Stage3.connect_node.
  apply fold_left_invariant
    with (P := fun g : Stage3.Graph => nodes g = nodes (add_node graph node)).
  - reflexivity.
  - intros g other Hother Hg.
    assert (Hnode : In node (nodes (add_node graph node)))
      by (apply nodes_add_node; now left).
    destruct (eqb other node || Qlt_bool _ _); [assumption|].
    destruct (negb _); [assumption|].
    cbv beta iota zeta.
    repeat (apply nodes_add_edge_inside; [|assumption|assumption]).
    exact Hg.
Qed.

Lemma length_nodes_fold {N A : Type} `{EqDec N}
  (step : DiGraph N A -> N -> DiGraph N A) :
  (forall g n, nodes (step g n) = nodes (add_node g n)) ->
  forall new g,
    (length (nodes g) <= length (nodes (fold_left step new g))
     <= length (nodes g) + length new)%nat.
Proof.
  intros Hstep. induction new as [|n new IH]; intros g; simpl; [lia|].
  specialize (IH (step g n)). rewrite (Hstep g n) in IH.
  pose proof (length_nodes_add_node g n). lia.
Qed.

(** X12. The sampling adds at most [SAMPLES] nodes.  With [r] radars it
    makes [SAMPLES // r] samples for each, so it adds at most
    [(SAMPLES // r) * r] nodes, which is less than [SAMPLES] when [r]
    does not divide it and 0 when there are more radars than samples; no
    node is removed, and every sample uses at least two draws of the
    random generator.  With no radar the graph and the generator are
    left as they are. *)
Theorem sampling_adds_at_most_samples `{Geometry} (enemies : list Enemy)
  (draws : Draws) :
  let r := length (Stage2.radars_of enemies) in
  let samples := (Nat.div Stage2.SAMPLES r * r)%nat in
  (samples <= Stage2.SAMPLES)%nat /\
  (forall (graph graph' : Stage2.Graph) rest,
      Stage2.add_nodes_inside_radars graph enemies draws
      = Return (graph', rest) ->
      (length (nodes graph) <= length (nodes graph')
       <= length (nodes graph) + samples)%nat /\
      exists used, draws = used ++ rest /\ (2 * samples <= length used)%nat) /\
  (forall (graph graph' : Stage3.Graph) rest,
      Stage3.add_nodes_inside_radars graph enemies draws
      = Return (graph', rest) ->
      (length (nodes graph) <= length (nodes graph')
       <= length (nodes graph) + samples)%nat /\
      exists used, draws = used ++ rest /\ (2 * samples <= length used)%nat) /\
  (r = 0%nat ->
   (forall graph : Stage2.Graph,
       Stage2.add_nodes_inside_radars graph enemies draws
       = Return (graph, draws)) /\
   (forall graph : Stage3.Graph,
       Stage3.add_nodes_inside_radars graph enemies draws
       = Return (graph, draws))).
Proof.
  intros r samples.
  assert (Hs : (samples <= Stage2.SAMPLES)%nat).
  { unfold samples. destruct r as [|r']; [simpl; lia|].
    rewrite Nat.mul_comm. apply Nat.Div0.mul_div_le. }
  split; [exact Hs|]. split; [|split].
  - intros graph graph' rest. unfold Stage2.add_nodes_inside_radars.
    fold r. destruct (Nat.eqb r 0) eqn:E.
    + apply Nat.eqb_eq in E. intros [= <- <-]. unfold samples. rewrite E.
      rewrite Nat.mul_0_r. split; [lia|]. exists []. split; [reflexivity|].
      simpl. lia.
    + destruct (Stage2.sample_radars _ _ draws) as [[new d1]| |] eqn:S1;
        simpl; try discriminate.
      intros [= <- <-].
      destruct (sample_radars_count _ _ _ _ _ S1) as (Hlen & used & -> & L).
      fold r in Hlen, L. rewrite (Nat.mul_comm r) in Hlen, L.
      fold samples in Hlen, L. split.
      * rewrite <- Hlen. apply length_nodes_fold.
        apply Stage2_connect_node_same_nodes.
      * now exists used.
  - intros graph graph' rest. unfold Stage3.add_nodes_inside_radars.
    unfold Stage3.radars_of, Stage3.sample_radars, Stage3.SAMPLES.
    fold r. change 2000%nat with Stage2.SAMPLES.
    destruct (Nat.eqb r 0) eqn:E.
    + apply Nat.eqb_eq in E. intros [= <- <-]. unfold samples. rewrite E.
      rewrite Nat.mul_0_r. split; [lia|]. exists []. split; [reflexivity|].
      simpl. lia.
    + destruct (Stage2.sample_radars _ _ draws) as [[new d1]| |] eqn:S1;
        simpl; try discriminate.
      intros [= <- <-].
      destruct (sample_radars_count _ _ _ _ _ S1) as (Hlen & used & -> & L).
      fold r in Hlen, L. rewrite (Nat.mul_comm r) in Hlen, L.
      fold samples in Hlen, L. split.
      * rewrite <- Hlen. apply length_nodes_fold.
        apply Stage3_connect_node_same_nodes.
      * now exists used.
  - intros E. split; intros graph.
    + unfold Stage2.add_nodes_inside_radars. fold r. now rewrite E.
    + unfold Stage3.add_nodes_inside_radars, Stage3.radars_of. fold r.
      now rewrite E.
Qed.

(** ** The base graph of stage 3 *)

(** What every edge [u -> v] of the base graph satisfies. *)
Definition base_edge_ok `{Geometry} (enemies : list Enemy)
  (u v : Coordinate) (a : Stage3.Attr) : Prop :=
  u <> v /\
  Stage3.dist a == distance_to u v /\
  legal_for_no_entrances enemies (u, v) /\
  (Stage3.detected a = true ->
   Stage3.is_leg_legal_only_radars u v enemies = false).

Lemma only_no_entrances_legal `{G : Geometry} {GL : GeometryLaws G}
  enemies a b :
  Stage3.is_leg_legal_only_no_entrances a b enemies = true ->
  legal_for_no_entrances enemies (a, b) /\
  legal_for_no_entrances enemies (b, a).
Proof.
  unfold Stage3.is_leg_legal_only_no_entrances. intros L.
  rewrite forallb_forall in L.
  assert (Hab : legal_for_no_entrances enemies (a, b)).
  { intros enemy He Hr. apply L. apply filter_In. split; [exact He|].
    now rewrite Hr. }
  split; [exact Hab|].
  intros enemy He Hr. simpl.
  rewrite <- (no_entrance_sym enemy a b Hr). now apply Hab.
Qed.

Lemma Stage3_base_graph_ok `{G : Geometry} {GL : GeometryLaws G}
  source target enemies (draws : Draws) (graph : Stage3.Graph) :
  Stage3.build_graph source target enemies draws = Return graph ->
  NoDup (map fst (edges graph)) /\
  edges_satisfy (base_edge_ok enemies) graph.
Proof.
  intros B. apply Stage3_build_graph_inv in B. destruct B as [rest B].
  set (Inv := fun g : Stage3.Graph =>
                NoDup (map fst (edges g)) /\
                edges_satisfy (base_edge_ok enemies) g).
  destruct (Stage3_seed_NoDup source target enemies) as [NDseed Eseed].
  assert (Hpairs : Inv (Stage3.connect_pairs enemies
                          (Stage3.seed_graph source target enemies))).
  { unfold Stage3.connect_pairs.
    apply fold_left_invariant with (P := Inv).
    - split.
      + rewrite Eseed. constructor.
      + intros u v a Hin. rewrite Eseed in Hin. destruct Hin.
    - intros g [node1 node2] Hpair [ND Hg].
      destruct (Stage3.is_legal_leg node1 node2 enemies) eqn:L; simpl;
        [|now split].
      destruct (combinations_one_way _ _ _ NDseed Hpair) as [Hneq _].
      destruct (legal_leg_no_entrances enemies node1 node2 L) as [L1 L2].
      split.
      + now apply NoDup_keys_add_edge, NoDup_keys_add_edge.
      + apply edges_satisfy_add_edge; [|apply edges_satisfy_add_edge].
        * repeat split; simpl; try congruence; try assumption;
            try apply distance_sym.
        * repeat split; simpl; try congruence; try assumption;
            try reflexivity.
        * assumption. }
  revert B. unfold Stage3.add_nodes_inside_radars.
  destruct (Nat.eqb _ 0); [now intros [= <- _]|].
  destruct (Stage3.sample_radars _ _ draws) as [[new_nodes draws']| |];
    simpl; try discriminate.
  intros [= <- _].
  apply fold_left_invariant with (P := Inv); [assumption|].
  intros g node _ Hg. unfold Stage3.connect_node.
  apply fold_left_invariant with (P := Inv).
  - destruct Hg as [ND Hg]. split.
    + now rewrite edges_add_node.
    + now apply edges_satisfy_add_node.
  - intros g' other _ [ND' Hg'].
    destruct (eqb other node) eqn:En; simpl; [now split|].
    apply eqb_neq in En.
    destruct (Qlt_bool _ _); [now split|].
    destruct (Stage3.is_leg_legal_only_no_entrances node other enemies)
      eqn:L; simpl; [|now split].
    destruct (only_no_entrances_legal enemies node other L) as [L1 L2].
    split.
    + now apply NoDup_keys_add_edge, NoDup_keys_add_edge.
    + apply edges_satisfy_add_edge; [|apply edges_satisfy_add_edge].
      * repeat split; simpl; try congruence; try assumption;
          try reflexivity; intros D; now apply negb_true_iff in D.
      * repeat split; simpl; try congruence; try assumption;
          try apply distance_sym; intros D; now apply negb_true_iff in D.
      * assumption.
Qed.

Lemma In_edges_get_edge {N A : Type} `{EqDec N} (g : DiGraph N A) u v a :
  NoDup (map fst (edges g)) ->
  In ((u, v), a) (edges g) -> get_edge g u v = Some a.
Proof.
  intros ND Hin. unfold get_edge.
  destruct (find_edge (edges g) (u, v)) as [a'|] eqn:F.
  - apply find_edge_In in F. f_equal.
    exact (unique_attribute _ _ _ _ ND F Hin).
  - exfalso. clear ND. revert F Hin.
    induction (edges g) as [|[k0 a0] es IH]; simpl; [intros _ []|].
    destruct (eqb (u, v) k0) eqn:E; [discriminate|].
    intros F [[= -> ->]|Hin]; [|now apply IH].
    rewrite eqb_refl in E. discriminate.
Qed.

(** X13. The base graph that stage 3 hands to [build_layers_graph]
    holds one entry per directed edge and no edge from a node to
    itself.  Each edge [u -> v] joins two different points, carries the
    distance between them as [dist] (a positive number), crosses no
    asteroids zone and no observation post, and is flagged [detected]
    only if [is_leg_legal_only_radars(u, v)] fails. *)
Theorem stage3_base_graph `{G : Geometry} {GL : GeometryLaws G}
  (source target : Coordinate) (enemies : list Enemy) (draws : Draws)
  (graph : Stage3.Graph) :
  Stage3.build_graph source target enemies draws = Return graph ->
  well_formed graph /\
  forall u v a,
    get_edge graph u v = Some a ->
    u <> v /\
    Stage3.dist a == distance_to u v /\ 0 < Stage3.dist a /\
    Stage3.is_leg_legal_only_no_entrances u v enemies = true /\
    (Stage3.detected a = true ->
     Stage3.is_leg_legal_only_radars u v enemies = false).
Proof.
  intros B. destruct (Stage3_base_graph_ok _ _ _ _ _ B) as [ND Hg].
  split.
  - split; [exact ND|]. intros u v a Hin. now destruct (Hg u v a Hin).
  - intros u v a E. apply get_edge_In in E.
    destruct (Hg u v a E) as (Hneq & Hd & Hl & Hdet).
    repeat split; try assumption.
    + rewrite Hd. now apply distance_pos.
    + unfold Stage3.is_leg_legal_only_no_entrances. apply forallb_forall.
      intros enemy He. apply filter_In in He. destruct He as [He Hr].
      apply negb_true_iff in Hr. exact (Hl enemy He Hr).
Qed.

Lemma stage3_base_graph_witness :
  exists graph,
    Stage3.build_graph (H := BoxWorld.geometry) Examples.origin Examples.goal
      [Examples.wall] [] = Return graph /\
    well_formed graph.
Proof.
  eexists. split; [vm_compute; reflexivity|].
  eapply (@stage3_base_graph BoxWorld.geometry BoxWorld_laws
            Examples.origin Examples.goal [Examples.wall] []).
  vm_compute. reflexivity.
Defined.

(** ** The path of stage 3 *)

Lemma In_edges_insert_all {N A : Type} `{EqDec N}
  (ops : list ((N * N) * A)) : forall (g : DiGraph N A) k a,
  In (k, a) (edges (insert_all ops g)) -> In (k, a) ops \/ In (k, a) (edges g).
Proof.
  unfold insert_all. induction ops as [|[[u v] a0] ops IH]; intros g k a;
    cbn [fold_left fst snd].
  - now right.
  - intros Hin. apply IH in Hin. destruct Hin as [Hin|Hin].
    + left. now right.
    + apply In_edges_add_edge in Hin. destruct Hin as [[-> ->]|Hin].
      * left. now left.
      * now right.
Qed.

Lemma first_with {A : Type} (P : A -> bool) (l : list A) :
  (exists x, In x l /\ P x = true) ->
  exists l1 x l2, l = l1 ++ x :: l2 /\ P x = true /\
                  forall y, In y l1 -> P y = false.
Proof.
  induction l as [|a l IH]; intros (x & Hin & Hx); [destruct Hin|].
  destruct (P a) eqn:Pa.
  - exists [], a, l. repeat split; auto. intros y [].
  - destruct IH as (l1 & x' & l2 & -> & Hx' & Hl1).
    { exists x. split; [|exact Hx]. destruct Hin as [<-|Hin]; [|exact Hin].
      congruence. }
    exists (a :: l1), x', l2. repeat split; auto.
    intros y [<-|Hy]; auto.
Qed.

Lemma legs_sources {A : Type} (l : list A) (x : A) leg :
  In leg (legs (l ++ [x])) -> In (fst leg) l.
Proof.
  induction l as [|a l IH]; [intros []|].
  destruct l as [|b l].
  - intros [<-|[]]. now left.
  - change ((a :: b :: l) ++ [x]) with (a :: b :: (l ++ [x])).
    rewrite legs_cons. intros [<-|Hleg]; [now left|].
    right. now apply IH.
Qed.

Lemma ceiling_nonneg (a : Q) : 0 <= a -> (0 <= Qceiling a)%Z.
Proof.
  intros Ha. destruct (Z_le_gt_dec 0 (Qceiling a)) as [Hle|Hgt]; [exact Hle|].
  exfalso. assert (Hz : (Qceiling a <= -1)%Z) by lia.
  apply ceiling_le_iff in Hz. change (inject_Z (-1)) with (-1) in Hz. lra.
Qed.

Section LayeredPaths.

Context `{G : Geometry}.
Variables (graph : Stage3.Graph) (source target : Coordinate).
Variables (pct quanta : Q).
Variables (lg : Stage3.LayersGraph) (source' target' : Stage3.LayeredKey).

Let max_detection := distance_to source target * pct.

Hypothesis quanta_pos : 0 < quanta.
Hypothesis built :
  Stage3.build_layers_graph graph source target pct quanta
  = Return (lg, source', target').
Hypothesis graph_keys : NoDup (map fst (edges graph)).
Hypothesis graph_dist :
  forall u v a, In ((u, v), a) (edges graph) ->
                0 < Stage3.dist a /\ Stage3.dist a == distance_to u v.

Lemma lg_edge k1 k2 w :
  get_edge lg k1 k2 = Some w ->
  LayeredEdge graph max_detection quanta target k1 k2 w.
Proof.
  apply (layers_graph_edges_sound graph source target pct quanta_pos built).
Qed.

Lemma lg_nonneg : nonneg_weights (fun d : Q => d) lg.
Proof.
  destruct (build_layers_graph_inv _ _ _ _ quanta_pos built)
    as (m & Hm & Elg & Es & Et).
  intros [k1 k2] a Hin. rewrite Elg in Hin.
  apply In_edges_insert_all in Hin. destruct Hin as [Hin|Hin].
  - apply In_all_copies in Hin; [|exact quanta_pos].
    destruct Hin as [u v d k He Hk|u v d k He Hk|k Hk].
    + destruct (graph_dist _ _ _ He) as [Hd _]. simpl in Hd. lra.
    + destruct (graph_dist _ _ _ He) as [Hd _]. simpl in Hd. lra.
    + lra.
  - rewrite edges_layer_nodes in Hin. destruct Hin.
Qed.

Lemma edge_target_layer k1 k2 w :
  LayeredEdge graph max_detection quanta target k1 k2 w ->
  exists k, k2 = Stage3.layered (fst k2) (PyFloat.of_nat k * quanta) /\
            PyFloat.of_nat k * quanta <= max_detection.
Proof.
  intros [u v d k He Hk|u v d k He Hk|k Hk].
  - exists k. split; [reflexivity|exact Hk].
  - destruct (graph_dist _ _ _ He) as [Hd _]. simpl in Hd.
    assert (Hc : (0 <= Qceiling (d / quanta))%Z).
    { apply ceiling_nonneg. apply Qlt_le_weak.
      apply Qlt_shift_div_l; [exact quanta_pos|lra]. }
    assert (E : PyFloat.of_nat (k + Z.to_nat (Qceiling (d / quanta))) * quanta
                == PyFloat.of_nat k * quanta + ceil_to_quanta quanta d).
    { unfold ceil_to_quanta, PyFloat.of_nat.
      rewrite Nat2Z.inj_add, Z2Nat.id, inject_Z_plus by exact Hc. ring. }
    exists (k + Z.to_nat (Qceiling (d / quanta)))%nat. split.
    + change (fst (Stage3.layered v (PyFloat.of_nat k * quanta
                                     + ceil_to_quanta quanta d))) with v.
      apply layered_eq. symmetry. exact E.
    + rewrite E. exact Hk.
  - exists (S k). split; [reflexivity|exact Hk].
Qed.

Lemma target_chain : forall j k,
  PyFloat.of_nat (k + j) * quanta <= max_detection ->
  exists c,
    Walk lg (Stage3.layered target (PyFloat.of_nat k * quanta))
            (Stage3.layered target (PyFloat.of_nat (k + j) * quanta)) c /\
    walk_weight (fun d : Q => d) lg c == 0.
Proof.
  induction j as [|j IH]; intros k Hk.
  - rewrite Nat.add_0_r. eexists. split; [constructor|reflexivity].
  - rewrite Nat.add_succ_r in *.
    assert (Hk' : PyFloat.of_nat (k + j) * quanta <= max_detection).
    { pose proof (of_nat_succ (k + j)) as Es.
      assert (E : PyFloat.of_nat (S (k + j)) * quanta
                  == PyFloat.of_nat (k + j) * quanta + quanta)
        by (rewrite Es; ring).
      lra. }
    destruct (IH k Hk') as (c & W & Hw).
    pose proof (layers_graph_target_step graph source target
                  quanta_pos built Hk) as E.
    exists (c ++ [Stage3.layered target (PyFloat.of_nat (S (k + j)) * quanta)]).
    split.
    + eapply Walk_snoc; eassumption.
    + rewrite (walk_weight_snoc (fun d : Q => d) _ W).
      unfold edge_weight. rewrite E. lra.
Qed.

Lemma zero_weight_stays x y p :
  Walk lg x y p -> fst x = target ->
  walk_weight (fun d : Q => d) lg p <= 0 ->
  forall z, In z p -> fst z = target.
Proof.
  intros W. induction W as [s|s v t a p E W IH]; intros Hx Hw z Hz.
  - destruct Hz as [<-|[]]. exact Hx.
  - destruct (Walk_head W) as [r ->]. rewrite walk_weight_cons in Hw.
    unfold edge_weight in Hw. rewrite E in Hw.
    pose proof (walk_weight_nonneg (v :: r) lg_nonneg) as Hr.
    apply lg_edge in E.
    assert (Hv : fst v = target /\ 0 <= a).
    { destruct E as [u v' d k He Hk|u v' d k He Hk|k Hk].
      - destruct (graph_dist _ _ _ He) as [Hd _]. simpl in Hd. lra.
      - destruct (graph_dist _ _ _ He) as [Hd _]. simpl in Hd. lra.
      - split; [reflexivity|lra]. }
    destruct Hv as [Hv Ha].
    destruct Hz as [<-|Hz]; [exact Hx|].
    apply IH; [exact Hv|lra|exact Hz].
Qed.

Lemma optimal_walk_shape lp :
  source <> target ->
  Walk lg source' target' lp ->
  (forall q, Walk lg source' target' q ->
             walk_weight (fun d : Q => d) lg lp
             <= walk_weight (fun d : Q => d) lg q) ->
  exists l1 x l2,
    lp = l1 ++ x :: l2 /\ l1 <> [] /\ fst x = target /\
    (forall y, In y l1 -> fst y <> target) /\
    (forall z, In z l2 -> fst z = target) /\
    Walk lg source' x (l1 ++ [x]) /\
    (snd x : Q) <= max_detection /\
    walk_weight (fun d : Q => d) lg (x :: l2) <= 0 /\
    exists k, x = Stage3.layered target (PyFloat.of_nat k * quanta) /\
              PyFloat.of_nat k * quanta <= max_detection.
Proof.
  intros Hneq W Hopt.
  destruct (build_layers_graph_inv _ _ _ _ quanta_pos built)
    as (m & Hm & Elg & Es & Et).
  destruct (Walk_last W) as [front Elp].
  assert (Hex : exists x, In x lp /\ eqb (fst x) target = true).
  { exists target'. split.
    - rewrite Elp. apply in_or_app. right. now left.
    - rewrite Et. apply eqb_refl. }
  destruct (first_with (fun y : Stage3.LayeredKey => eqb (fst y) target)
                       lp Hex) as (l1 & x & l2 & E & Hx & Hl1).
  apply eqb_eq in Hx. rewrite E in W.
  destruct (Walk_split l1 x l2 W) as [W1 W2].
  assert (Hne : l1 <> []).
  { intros ->. destruct (Walk_head W1) as [r Er]. injection Er as Er _.
    rewrite Er, Es in Hx. apply Hneq. exact Hx. }
  destruct (Walk_unsnoc W1) as [[E1 _]|(p' & u & a & E1 & Wp & Eu)].
  { destruct l1; [congruence|]. destruct l1; discriminate. }
  apply lg_edge, edge_target_layer in Eu. destruct Eu as (k & Ek & Hk).
  rewrite Hx in Ek.
  assert (Hkm : (k <= m)%nat).
  { apply (layer_count_spec max_detection k quanta_pos) in Hk.
    fold max_detection in Hm. lia. }
  assert (Hm' : PyFloat.of_nat (k + (m - k)) * quanta <= max_detection).
  { replace (k + (m - k))%nat with m by lia.
    apply (layer_count_spec max_detection m quanta_pos).
    fold max_detection in Hm. lia. }
  destruct (target_chain (m - k) k Hm') as (c & Wc & Hc0).
  replace (k + (m - k))%nat with m in Wc by lia.
  rewrite <- Ek, <- Et in Wc.
  destruct (Walk_head Wc) as [c' ->].
  pose proof (Walk_join l1 W1 Wc) as Wq.
  specialize (Hopt _ Wq). rewrite E in Hopt.
  rewrite (walk_weight_app (fun d : Q => d) lg l1 x l2) in Hopt.
  rewrite (walk_weight_app (fun d : Q => d) lg l1 x c') in Hopt.
  exists l1, x, l2. repeat split; auto.
  - intros y Hy. apply eqb_neq. now apply Hl1.
  - intros z Hz. apply (zero_weight_stays _ _ _ W2 Hx); [lra|now right].
  - rewrite Ek. rewrite layer_value. exact Hk.
  - lra.
  - exists k. split; [exact Ek|exact Hk].
Qed.

Lemma walk_detected a b p :
  Walk lg a b p ->
  (forall leg, In leg (legs p) -> fst (fst leg) <> target) ->
  (forall leg, In leg (legs (map fst p)) ->
               exists attr, In ((fst leg, snd leg), attr) (edges graph)) /\
  detected_length graph (map fst p) + (snd a : Q) <= (snd b : Q).
Proof.
  intros W. induction W as [s|s v t w p E W IH]; intros Hsrc.
  - split; [intros leg []|]. unfold detected_length. simpl. lra.
  - destruct (Walk_head W) as [r ->].
    rewrite legs_cons in Hsrc.
    assert (Hs : fst s <> target) by (apply (Hsrc (s, v)); now left).
    destruct IH as [IHlegs IHdl].
    { intros leg Hleg. apply Hsrc. now right. }
    apply lg_edge in E.
    change (map fst (s :: v :: r)) with (fst s :: fst v :: map fst r).
    change (map fst (v :: r)) with (fst v :: map fst r) in IHlegs, IHdl.
    assert (Estep : detected_length graph (fst s :: fst v :: map fst r)
                    = (if flagged_detected graph (fst s, fst v)
                       then distance_to (fst s) (fst v) else 0)
                      + detected_length graph (fst v :: map fst r))
      by reflexivity.
    rewrite Estep, legs_cons. clear Estep.
    destruct E as [u v' d k He Hk|u v' d k He Hk|k Hk].
    + change (fst (Stage3.layered u (PyFloat.of_nat k * quanta))) with u in *.
      change (fst (Stage3.layered v' (PyFloat.of_nat k * quanta))) with v' in *.
      split.
      * intros leg [<-|Hleg]; [eexists; exact He|now apply IHlegs].
      * unfold flagged_detected. cbn [fst snd].
        rewrite (In_edges_get_edge graph u v' _ graph_keys He).
        cbv beta iota. cbn [Stage3.detected].
        rewrite layer_value in *. lra.
    + change (fst (Stage3.layered u (PyFloat.of_nat k * quanta))) with u in *.
      change (fst (Stage3.layered v' (PyFloat.of_nat k * quanta
                                      + ceil_to_quanta quanta d)))
        with v' in *.
      split.
      * intros leg [<-|Hleg]; [eexists; exact He|now apply IHlegs].
      * unfold flagged_detected. cbn [fst snd].
        rewrite (In_edges_get_edge graph u v' _ graph_keys He).
        cbv beta iota. cbn [Stage3.detected].
        destruct (graph_dist _ _ _ He) as [_ Hd]. simpl in Hd.
        pose proof (ceil_to_quanta_ge quanta d quanta_pos) as Hc.
        rewrite layer_value in *. lra.
    + exfalso. apply Hs. reflexivity.
Qed.

End LayeredPaths.

Lemma decode_stage3_path (target : Coordinate)
  (l1 : list Stage3.LayeredKey) (x : Stage3.LayeredKey)
  (l2 : list Stage3.LayeredKey) :
  l1 <> [] -> fst x = target ->
  (forall y, In y l1 -> fst y <> target) ->
  (forall z, In z l2 -> fst z = target) ->
  Stage3.retrieve_path_from_layered_path (l1 ++ x :: l2)
  = Return (map fst (l1 ++ [x])).
Proof.
  intros Hne Hx Hl1 Hl2. unfold Stage3.retrieve_path_from_layered_path.
  assert (E2 : map (A := Stage3.LayeredKey) fst l2
               = repeat target (length l2)).
  { induction l2 as [|z l2 IH]; [reflexivity|]. simpl.
    rewrite (Hl2 z) by now left.
    rewrite IH; [reflexivity|]. intros z' Hz'. apply Hl2. now right. }
  destruct (exists_last Hne) as (l1' & y & ->).
  assert (Hy : target <> fst y).
  { intros Ey. apply (Hl1 y); [|now symmetry].
    apply in_or_app. right. now left. }
  rewrite !map_app. cbn [map]. rewrite Hx, E2.
  rewrite rev_app_distr. cbn [rev]. rewrite rev_repeat.
  rewrite rev_app_distr. cbn [rev app]. rewrite <- !app_assoc. cbn [app].
  rewrite (drop_repeated_end_repeat target (fst y) _ _ Hy). cbn [bind].
  cbn [rev]. rewrite rev_involutive. rewrite <- !app_assoc. reflexivity.
Qed.



(** ** A larger budget *)

Lemma LayeredEdge_mono (graph : Stage3.Graph) (max1 max2 quanta : Q)
  target k1 k2 w :
  max1 <= max2 ->
  LayeredEdge graph max1 quanta target k1 k2 w ->
  LayeredEdge graph max2 quanta target k1 k2 w.
Proof.
  intros Hle [u v d k He Hk|u v d k He Hk|k Hk];
    [apply legal_copy|apply detected_copy|apply target_step];
    try assumption; lra.
Qed.

Lemma compute_path_length_cons `{Geometry} a b r :
  Submission.compute_path_length (a :: b :: r)
  == distance_to a b + Submission.compute_path_length (b :: r).
Proof.
  rewrite !compute_path_length_sum, legs_cons. cbn [map fold_left fst snd].
  rewrite fold_left_Qplus_shift. lra.
Qed.

Lemma walk_length `{G : Geometry} (graph : Stage3.Graph)
  (source target : Coordinate) (pct quanta : Q) (lg : Stage3.LayersGraph)
  (source' target' : Stage3.LayeredKey) :
  0 < quanta ->
  Stage3.build_layers_graph graph source target pct quanta
  = Return (lg, source', target') ->
  (forall u v a, In ((u, v), a) (edges graph) ->
                 0 < Stage3.dist a /\ Stage3.dist a == distance_to u v) ->
  forall a b p,
    Walk lg a b p ->
    (forall leg, In leg (legs p) -> fst (fst leg) <> target) ->
    walk_weight (fun d : Q => d) lg p
    == Submission.compute_path_length (map fst p).
Proof.
  intros Hq L Hdist a b p W.
  induction W as [s|s v t w p E W IH]; intros Hsrc.
  - reflexivity.
  - destruct (Walk_head W) as [r ->]. rewrite legs_cons in Hsrc.
    assert (Hs : fst s <> target) by (apply (Hsrc (s, v)); now left).
    rewrite walk_weight_cons. unfold edge_weight. rewrite E.
    rewrite IH by (intros leg Hleg; apply Hsrc; now right).
    change (map fst (s :: v :: r)) with (fst s :: fst v :: map fst r).
    change (map fst (v :: r)) with (fst v :: map fst r).
    rewrite compute_path_length_cons.
    apply (lg_edge graph source target pct quanta lg source' target' Hq L)
      in E.
    destruct E as [u v' d k He Hk|u v' d k He Hk|k Hk].
    + destruct (Hdist _ _ _ He) as [_ Hd]. simpl in Hd.
      change (fst (Stage3.layered u (PyFloat.of_nat k * quanta))) with u.
      change (fst (Stage3.layered v' (PyFloat.of_nat k * quanta))) with v'.
      rewrite Hd. reflexivity.
    + destruct (Hdist _ _ _ He) as [_ Hd]. simpl in Hd.
      change (fst (Stage3.layered u (PyFloat.of_nat k * quanta))) with u.
      change (fst (Stage3.layered v' (PyFloat.of_nat k * quanta
                                      + ceil_to_quanta quanta d))) with v'.
      rewrite Hd. reflexivity.
    + exfalso. apply Hs. reflexivity.
Qed.

Lemma walk_lift `{G : Geometry} (graph : Stage3.Graph)
  (source target : Coordinate) (pct1 pct2 quanta : Q)
  (lg1 lg2 : Stage3.LayersGraph) (s1 t1 s2 t2 : Stage3.LayeredKey) :
  0 < quanta ->
  well_formed graph ->
  distance_to source target * pct1 <= distance_to source target * pct2 ->
  Stage3.build_layers_graph graph source target pct1 quanta
  = Return (lg1, s1, t1) ->
  Stage3.build_layers_graph graph source target pct2 quanta
  = Return (lg2, s2, t2) ->
  forall a b p,
    Walk lg1 a b p ->
    Walk lg2 a b p /\
    walk_weight (fun d : Q => d) lg2 p == walk_weight (fun d : Q => d) lg1 p.
Proof.
  intros Hq WF Hle L1 L2 a b p W.
  induction W as [s|s v t w p E W [IHW IHw]].
  - split; [constructor|reflexivity].
  - assert (E2 : get_edge lg2 s v = Some w).
    { apply (layers_graph_edges_complete source Hq L2 WF).
      apply (LayeredEdge_mono _ _ _ _ _ _ _ _ Hle).
      apply (lg_edge graph source target pct1 quanta lg1 s1 t1 Hq L1).
      exact E. }
    split; [eapply Walk_step; eassumption|].
    destruct (Walk_head W) as [r ->].
    rewrite !walk_weight_cons. unfold edge_weight. rewrite E, E2, IHw.
    reflexivity.
Qed.



(** ** The edges of a sampled node *)

Section Roadmap.

Context {N A : Type} `{EqDec N}.

(** The node that is being connected, the nodes it is connected to, and
    the attributes of the two edges it gets with each of them, if any. *)
Variable node : N.
Variable near : N -> bool.
Variables backward forward : N -> option A.
Hypothesis near_other : forall other, near other = true -> other <> node.

Definition roadmap_ops (other : N) : list ((N * N) * A) :=
  if near other
  then match backward other with
       | Some a => [((other, node), a)]
       | None => []
       end
       ++ match forward other with
          | Some a => [((node, other), a)]
          | None => []
          end
  else [].

Lemma fold_insert_all (step : DiGraph N A -> N -> DiGraph N A)
  (ops : N -> list ((N * N) * A)) :
  (forall g o, step g o = insert_all (ops o) g) ->
  forall l g, fold_left step l g = insert_all (flat_map ops l) g.
Proof.
  intros Hstep. induction l as [|o l IH]; intros g; [reflexivity|].
  cbn [fold_left flat_map]. now rewrite insert_all_app, <- Hstep.
Qed.

Lemma insert_all_untouched (ops : list ((N * N) * A)) : forall g u v,
  (forall a, ~ In ((u, v), a) ops) ->
  get_edge (insert_all ops g) u v = get_edge g u v.
Proof.
  unfold insert_all. induction ops as [|[[u0 v0] a0] ops IH]; intros g u v Hno;
    cbn [fold_left fst snd]; [reflexivity|].
  rewrite IH by (intros a Hin; apply (Hno a); now right).
  rewrite get_edge_add_edge.
  destruct (eqb (u, v) (u0, v0)) eqn:E; [|reflexivity].
  apply eqb_eq in E. injection E as -> ->.
  exfalso. apply (Hno a0). now left.
Qed.

Lemma insert_all_functional (ops : list ((N * N) * A)) g u v a :
  In ((u, v), a) ops ->
  (forall a', In ((u, v), a') ops -> a' = a) ->
  get_edge (insert_all ops g) u v = Some a.
Proof.
  intros Hin Hf. destruct (In_insert_all ops g u v a Hin) as (a' & E & Hin').
  now rewrite E, (Hf a' Hin').
Qed.

Lemma In_roadmap_ops (l : list N) u v a :
  In ((u, v), a) (flat_map roadmap_ops l) <->
  exists other,
    In other l /\ near other = true /\
    ((u = other /\ v = node /\ backward other = Some a) \/
     (u = node /\ v = other /\ forward other = Some a)).
Proof.
  rewrite in_flat_map. unfold roadmap_ops. split.
  - intros (other & Hl & Hin). exists other. split; [exact Hl|].
    destruct (near other); [|destruct Hin]. split; [reflexivity|].
    apply in_app_or in Hin. destruct Hin as [Hin|Hin].
    + destruct (backward other) as [b|]; [|destruct Hin].
      destruct Hin as [[= <- <- <-]|[]]. now left.
    + destruct (forward other) as [b|]; [|destruct Hin].
      destruct Hin as [[= <- <- <-]|[]]. now right.
  - intros (other & Hl & Hn & Hcase). exists other. split; [exact Hl|].
    rewrite Hn. apply in_or_app.
    destruct Hcase as [(-> & -> & ->)|(-> & -> & ->)];
      [left|right]; now left.
Qed.

Lemma roadmap_edges (l : list N) (g : DiGraph N A) :
  (forall other,
      In other l -> near other = true ->
      get_edge (insert_all (flat_map roadmap_ops l) g) other node
      = match backward other with
        | Some a => Some a
        | None => get_edge g other node
        end /\
      get_edge (insert_all (flat_map roadmap_ops l) g) node other
      = match forward other with
        | Some a => Some a
        | None => get_edge g node other
        end) /\
  (forall u v,
      (forall other, In other l -> near other = true ->
                     (u, v) <> (other, node) /\ (u, v) <> (node, other)) ->
      get_edge (insert_all (flat_map roadmap_ops l) g) u v = get_edge g u v).
Proof.
  split.
  - intros other Hl Hn. pose proof (near_other other Hn) as Hneq. split.
    + destruct (backward other) as [a|] eqn:Eb.
      * apply insert_all_functional.
        -- apply In_roadmap_ops. exists other. repeat split; auto.
        -- intros a' Hin. apply In_roadmap_ops in Hin.
           destruct Hin as (o & _ & Ho & [(-> & _ & Eo)|(-> & _ & _)]);
             congruence.
      * apply insert_all_untouched. intros a Hin.
        apply In_roadmap_ops in Hin.
        destruct Hin as (o & _ & Ho & [(-> & _ & Eo)|(-> & _ & _)]);
          congruence.
    + destruct (forward other) as [a|] eqn:Ef.
      * apply insert_all_functional.
        -- apply In_roadmap_ops. exists other. repeat split; auto.
        -- intros a' Hin. apply In_roadmap_ops in Hin.
           destruct Hin as (o & _ & Ho & [(_ & -> & _)|(_ & -> & Eo)]);
             [|congruence].
           exfalso. now apply (near_other node).
      * apply insert_all_untouched. intros a Hin.
        apply In_roadmap_ops in Hin.
        destruct Hin as (o & _ & Ho & [(_ & -> & _)|(_ & -> & Eo)]);
          [|congruence].
        now apply (near_other node).
  - intros u v Hno. apply insert_all_untouched. intros a Hin.
    apply In_roadmap_ops in Hin.
    destruct Hin as (o & Hl & Ho & [(-> & -> & _)|(-> & -> & _)]);
      destruct (Hno o Hl Ho) as [H1 H2]; congruence.
Qed.

End Roadmap.

Lemma within_radius `{Geometry} (node other : Coordinate) (radius : Q) :
  negb (eqb other node || Qlt_bool radius (distance_to node other)) = true <->
  other <> node /\ distance_to node other <= radius.
Proof.
  rewrite negb_true_iff, orb_false_iff, eqb_neq, Qlt_bool_false_iff.
  reflexivity.
Qed.

Lemma Stage2_connect_node_ops `{Geometry} enemies (graph : Stage2.Graph) node :
  Stage2.connect_node enemies graph node
  = insert_all
      (flat_map
         (roadmap_ops node
            (fun other =>
               negb (eqb other node
                     || Qlt_bool Stage2.EDGE_RADIUS (distance_to node other)))
            (fun other => if Stage2.is_legal_leg other node enemies
                          then Some (distance_to node other) else None)
            (fun other => if Stage2.is_legal_leg node other enemies
                          then Some (distance_to node other) else None))
         (nodes (add_node graph node)))
      (add_node graph node).
Proof.
  unfold Stage2.connect_node. cbv zeta. apply fold_insert_all.
  intros g o. unfold roadmap_ops.
  destruct (eqb o node || Qlt_bool _ _); [reflexivity|]. cbn [negb].
  destruct (Stage2.is_legal_leg o node enemies);
    destruct (Stage2.is_legal_leg node o enemies); reflexivity.
Qed.

Lemma Stage3_connect_node_ops `{Geometry} enemies (graph : Stage3.Graph) node :
  Stage3.connect_node enemies graph node
  = insert_all
      (flat_map
         (roadmap_ops node
            (fun other =>
               negb (eqb other node
                     || Qlt_bool Stage3.EDGE_RADIUS (distance_to node other))
               && Stage3.is_leg_legal_only_no_entrances node other enemies)
            (fun other =>
               Some (Stage3.mkAttr
                       (distance_to node other)
                       (negb (Stage3.is_leg_legal_only_radars
                                other node enemies))))
            (fun other =>
               Some (Stage3.mkAttr
                       (distance_to node other)
                       (negb (Stage3.is_leg_legal_only_radars
                                node other enemies)))))
         (nodes (add_node graph node)))
      (add_node graph node).
Proof.
  unfold Stage3.connect_node. cbv zeta. apply fold_insert_all.
  intros g o. unfold roadmap_ops.
  destruct (eqb o node || Qlt_bool _ _); [reflexivity|]. cbn [negb andb].
  destruct (Stage3.is_leg_legal_only_no_entrances node o enemies);
    reflexivity.
Qed.

(** X16. The edges a sampled node gets.  When [node] is connected,
    each node [other] of the graph that is not [node] itself and lies
    within [EDGE_RADIUS] of it is looked at once.  In stage 2 the two
    directions are tested separately: [other -> node] is set to the
    distance when [is_legal_leg(other, node)] passes, [node -> other]
    when [is_legal_leg(node, other)] passes, and a direction that fails
    keeps the edge it had, if any.  In stage 3 the pair is skipped when
    [is_leg_legal_only_no_entrances(node, other)] fails; otherwise both
    edges are set, each with its own [detected] flag.  No other edge of
    the graph changes. *)
Theorem sampled_node_edges `{Geometry} (enemies : list Enemy)
  (node : Coordinate) :
  (forall graph : Stage2.Graph,
      (forall other,
          In other (nodes graph) -> other <> node ->
          distance_to node other <= Stage2.EDGE_RADIUS ->
          get_edge (Stage2.connect_node enemies graph node) other node
          = (if Stage2.is_legal_leg other node enemies
             then Some (distance_to node other)
             else get_edge graph other node) /\
          get_edge (Stage2.connect_node enemies graph node) node other
          = (if Stage2.is_legal_leg node other enemies
             then Some (distance_to node other)
             else get_edge graph node other)) /\
      (forall u v,
          (forall other,
              In other (nodes graph) -> other <> node ->
              distance_to node other <= Stage2.EDGE_RADIUS ->
              (u, v) <> (other, node) /\ (u, v) <> (node, other)) ->
          get_edge (Stage2.connect_node enemies graph node) u v
          = get_edge graph u v)) /\
  (forall graph : Stage3.Graph,
      (forall other,
          In other (nodes graph) -> other <> node ->
          distance_to node other <= Stage3.EDGE_RADIUS ->
          Stage3.is_leg_legal_only_no_entrances node other enemies = true ->
          get_edge (Stage3.connect_node enemies graph node) other node
          = Some (Stage3.mkAttr
                    (distance_to node other)
                    (negb (Stage3.is_leg_legal_only_radars
                             other node enemies))) /\
          get_edge (Stage3.connect_node enemies graph node) node other
          = Some (Stage3.mkAttr
                    (distance_to node other)
                    (negb (Stage3.is_leg_legal_only_radars
                             node other enemies)))) /\
      (forall u v,
          (forall other,
              In other (nodes graph) -> other <> node ->
              distance_to node other <= Stage3.EDGE_RADIUS ->
              Stage3.is_leg_legal_only_no_entrances node other enemies
              = true ->
              (u, v) <> (other, node) /\ (u, v) <> (node, other)) ->
          get_edge (Stage3.connect_node enemies graph node) u v
          = get_edge graph u v)).
Proof.
  split.
  - intros graph. rewrite Stage2_connect_node_ops.
    match goal with
    | |- context [roadmap_ops node ?n ?b ?f] =>
        assert (Hnear : forall other, n other = true -> other <> node)
          by (intros other Hn; now apply within_radius in Hn);
        destruct (roadmap_edges node n b f Hnear
                    (nodes (add_node graph node)) (add_node graph node))
          as [Hset Hkept]
    end.
    split.
    + intros other Hin Hneq Hd.
      destruct (Hset other) as [Hb Hf].
      { apply nodes_add_node. now right. }
      { now apply within_radius. }
      rewrite Hb, Hf, !get_edge_add_node.
      destruct (Stage2.is_legal_leg other node enemies);
        destruct (Stage2.is_legal_leg node other enemies); now split.
    + intros u v Hno. rewrite Hkept, get_edge_add_node; [reflexivity|].
      intros other Hin Hn. apply within_radius in Hn. destruct Hn as [Hneq Hd].
      apply nodes_add_node in Hin. destruct Hin as [->|Hin]; [congruence|].
      now apply Hno.
  - intros graph. rewrite Stage3_connect_node_ops.
    match goal with
    | |- context [roadmap_ops node ?n ?b ?f] =>
        assert (Hnear : forall other, n other = true -> other <> node)
          by (intros other Hn; apply andb_true_iff in Hn;
              destruct Hn as [Hn _]; now apply within_radius in Hn);
        destruct (roadmap_edges node n b f Hnear
                    (nodes (add_node graph node)) (add_node graph node))
          as [Hset Hkept]
    end.
    split.
    + intros other Hin Hneq Hd Hl.
      destruct (Hset other) as [Hb Hf].
      { apply nodes_add_node. now right. }
      { apply andb_true_iff. split; [now apply within_radius|exact Hl]. }
      now rewrite Hb, Hf.
    + intros u v Hno. rewrite Hkept, get_edge_add_node; [reflexivity|].
      intros other Hin Hn. apply andb_true_iff in Hn. destruct Hn as [Hn Hl].
      apply within_radius in Hn. destruct Hn as [Hneq Hd].
      apply nodes_add_node in Hin. destruct Hin as [->|Hin]; [congruence|].
      now apply Hno.
Qed.

(** ** The submissions file *)

(** The order of the file: by length, then by time. *)
Definition key_le (a b : Submission.Entry) : Prop :=
  Submission.path_length a < Submission.path_length b \/
  (Submission.path_length a == Submission.path_length b /\
   Submission.submission_time a <= Submission.submission_time b).

Definition file_order (p q : String.string * Submission.Entry) : Prop :=
  key_le (snd p) (snd q).

Lemma key_lt_true a b : Submission.key_lt a b = true -> key_le a b.
Proof.
  unfold Submission.key_lt, key_le. rewrite orb_true_iff, andb_true_iff.
  rewrite !Qlt_bool_iff, Qeq_bool_iff. intros [Hlt|[Heq Hlt]]; [now left|].
  right. split; [exact Heq|lra].
Qed.

Lemma key_lt_false a b : Submission.key_lt a b = false -> key_le b a.
Proof.
  unfold Submission.key_lt, key_le. rewrite orb_false_iff, andb_false_iff.
  rewrite !Qlt_bool_false_iff. intros [Hle [Hneq|Hle']].
  - left. destruct (Qeq_bool _ _) eqn:E; [discriminate|].
    apply Qeq_bool_neq in E. destruct (Qlt_le_dec (Submission.path_length b)
                                         (Submission.path_length a))
      as [Hlt|Hge]; [exact Hlt|].
    exfalso. apply E. lra.
  - destruct (Qlt_le_dec (Submission.path_length b) (Submission.path_length a))
      as [Hlt|Hge]; [now left|].
    right. split; [lra|exact Hle'].
Qed.

Lemma key_le_trans a b c : key_le a b -> key_le b c -> key_le a c.
Proof.
  unfold key_le. intros [H1|[H1 H1']] [H2|[H2 H2']].
  - left. lra.
  - left. lra.
  - left. lra.
  - right. split; lra.
Qed.

Lemma key_le_length a b :
  key_le a b -> Submission.path_length a <= Submission.path_length b.
Proof. unfold key_le. intros [H1|[H1 _]]; lra. Qed.

Lemma insert_item_perm item (sorted : Submission.Submissions) :
  Permutation (item :: sorted) (Submission.insert_item item sorted).
Proof.
  induction sorted as [|other rest IH]; simpl; [reflexivity|].
  destruct (Submission.key_lt (snd item) (snd other)); [reflexivity|].
  rewrite perm_swap. now apply perm_skip.
Qed.

Lemma insert_item_sorted item (sorted : Submission.Submissions) :
  StronglySorted file_order sorted ->
  StronglySorted file_order (Submission.insert_item item sorted).
Proof.
  induction sorted as [|other rest IH]; simpl; intros Hs.
  - repeat constructor.
  - inversion Hs as [|o r Hrest Hall]; subst.
    destruct (Submission.key_lt (snd item) (snd other)) eqn:E.
    + apply key_lt_true in E. constructor; [exact Hs|].
      constructor; [exact E|]. rewrite Forall_forall in *.
      intros z Hz. eapply key_le_trans; [exact E|]. now apply Hall.
    + apply key_lt_false in E. constructor; [now apply IH|].
      rewrite Forall_forall in *. intros z Hz.
      apply (Permutation_in _ (Permutation_sym (insert_item_perm item rest)))
        in Hz.
      destruct Hz as [<-|Hz]; [exact E|now apply Hall].
Qed.

Lemma sorted_by_key_spec (items : Submission.Submissions) :
  Permutation items (Submission.sorted_by_key items) /\
  StronglySorted file_order (Submission.sorted_by_key items).
Proof.
  unfold Submission.sorted_by_key.
  assert (Hgen : forall sorted,
             StronglySorted file_order sorted ->
             Permutation (sorted ++ items)
               (fold_left (fun acc item => Submission.insert_item item acc)
                          items sorted) /\
             StronglySorted file_order
               (fold_left (fun acc item => Submission.insert_item item acc)
                          items sorted)).
  { induction items as [|item items IH]; intros sorted Hs; simpl.
    - rewrite app_nil_r. now split.
    - destruct (IH (Submission.insert_item item sorted)) as [Hp Hs'].
      { now apply insert_item_sorted. }
      split; [|exact Hs'].
      rewrite <- Hp. rewrite <- insert_item_perm.
      symmetry. apply Permutation_middle. }
  destruct (Hgen [] (SSorted_nil _)) as [Hp Hs]. now split.
Qed.

Lemma lookup_Some_In {K V : Type} `{EqDec K} (l : list (K * V)) k v :
  lookup l k = Some v -> In (k, v) l.
Proof.
  induction l as [|[k0 v0] l IH]; simpl; [discriminate|].
  destruct (eqb k k0) eqn:E.
  - apply eqb_eq in E. subst k0. intros [= ->]. now left.
  - intros L. right. now apply IH.
Qed.

Lemma In_lookup_Some {K V : Type} `{EqDec K} (l : list (K * V)) k v :
  NoDup (map fst l) -> In (k, v) l -> lookup l k = Some v.
Proof.
  induction l as [|[k0 v0] l IH]; simpl; intros ND Hin; [destruct Hin|].
  inversion ND as [|z zs Hout ND']; subst.
  destruct Hin as [[= -> ->]|Hin].
  - now rewrite eqb_refl.
  - destruct (eqb k k0) eqn:E; [|now apply IH].
    apply eqb_eq in E. subst k0. exfalso. apply Hout.
    apply in_map_iff. now exists (k, v).
Qed.

Lemma lookup_perm {K V : Type} `{EqDec K} (l l' : list (K * V)) k :
  NoDup (map fst l) -> Permutation l l' -> lookup l' k = lookup l k.
Proof.
  intros ND Hp.
  assert (ND' : NoDup (map fst l')).
  { eapply Permutation_NoDup; [|exact ND]. now apply Permutation_map. }
  destruct (lookup l k) as [v|] eqn:L.
  - apply In_lookup_Some; [exact ND'|].
    eapply Permutation_in; [exact Hp|]. now apply lookup_Some_In.
  - destruct (lookup l' k) as [v'|] eqn:L'; [|reflexivity].
    apply lookup_Some_In in L'.
    apply (Permutation_in _ (Permutation_sym Hp)) in L'.
    apply (In_lookup_Some _ _ _ ND) in L'. congruence.
Qed.

Lemma In_keys_update {K V : Type} `{EqDec K} (l : list (K * V)) k v k' :
  In k' (map fst (update l k v)) <-> k' = k \/ In k' (map fst l).
Proof.
  induction l as [|[k0 v0] l IH]; simpl.
  - intuition.
  - destruct (eqb k k0) eqn:E; simpl.
    + apply eqb_eq in E. subst k0. intuition.
    + rewrite IH. intuition.
Qed.

Lemma NoDup_keys_update {K V : Type} `{EqDec K} (l : list (K * V)) k v :
  NoDup (map fst l) -> NoDup (map fst (update l k v)).
Proof.
  induction l as [|[k0 v0] l IH]; simpl; intros ND.
  - repeat constructor. intros [].
  - inversion ND as [|z zs Hout ND']; subst.
    destruct (eqb k k0) eqn:E; simpl.
    + apply eqb_eq in E. subst k0. now constructor.
    + constructor; [|now apply IH].
      intros Hin. apply In_keys_update in Hin.
      destruct Hin as [->|Hin]; [|contradiction].
      rewrite eqb_refl in E. discriminate.
Qed.

Lemma StronglySorted_split {T : Type} (R : T -> T -> Prop) (n : nat)
  (l : list T) :
  StronglySorted R l ->
  forall a b, In a (firstn n l) -> In b (skipn n l) -> R a b.
Proof.
  revert l. induction n as [|n IH]; intros l Hs a b Ha Hb;
    [destruct Ha|].
  destruct l as [|c l]; [destruct Ha|]. simpl in Ha, Hb.
  inversion Hs as [|c' l' Hl Hall]; subst.
  destruct Ha as [<-|Ha].
  - rewrite Forall_forall in Hall. apply Hall.
    rewrite <- (firstn_skipn n l). apply in_or_app. now right.
  - now apply (IH l).
Qed.

Lemma StronglySorted_map {S T : Type} (f : S -> T) (R : T -> T -> Prop)
  (l : list S) :
  StronglySorted (fun a b => R (f a) (f b)) l ->
  StronglySorted R (map f l).
Proof.
  induction 1 as [|a l Hl IH Hall]; simpl; constructor; [exact IH|].
  rewrite Forall_forall in *. intros z Hz. apply in_map_iff in Hz.
  destruct Hz as (s & <- & Hs). now apply Hall.
Qed.

Lemma StronglySorted_weaken {T : Type} (R R' : T -> T -> Prop) (l : list T) :
  (forall a b, R a b -> R' a b) ->
  StronglySorted R l -> StronglySorted R' l.
Proof.
  intros Himp. induction 1 as [|a l Hl IH Hall]; constructor; [exact IH|].
  rewrite Forall_forall in *. intros z Hz. now apply Himp, Hall.
Qed.

Lemma extract_saved_path (path : list Coordinate) (a b : Q) :
  Submission.extract_path_from_submissions_data
    (Submission.mkEntry a b (map (fun c => (x c, y c)) path)) = path.
Proof.
  unfold Submission.extract_path_from_submissions_data. cbn [Submission.path].
  rewrite map_map. rewrite <- (map_id path) at 2. apply map_ext.
  intros [cx cy]. reflexivity.
Qed.

(** X17. [save_path] keeps the best path of each user.  It refuses (and
    leaves the file as it is) exactly when the user has an entry whose
    length is not more than the length of the new path.  Otherwise the
    user's entry becomes the new path with its length and time, read
    back by [extract_path_from_submissions_data] as the path that was
    submitted; the file is written sorted by length, so the leaderboard
    (its first five entries) holds no entry longer than one it leaves
    out.  In both cases the entries of the other users are unchanged,
    the user names stay distinct, and the length recorded for the user
    never grows. *)
Theorem save_path_keeps_best `{G : Geometry} (path : list Coordinate)
  (username : String.string) (now : Q) (file : Submission.File) :
  NoDup (map fst (Submission.load_submission_dict file)) ->
  let before := Submission.load_submission_dict file in
  let improved := fst (Submission.save_path path username now file) in
  let file' := snd (Submission.save_path path username now file) in
  let after := Submission.load_submission_dict file' in
  (improved = false <->
   exists previous,
     lookup before username = Some previous /\
     Submission.path_length previous <= Submission.compute_path_length path) /\
  (improved = false -> file' = file) /\
  (improved = true ->
   (exists entry,
       lookup after username = Some entry /\
       Submission.path_length entry = Submission.compute_path_length path /\
       Submission.submission_time entry = now /\
       Submission.extract_path_from_submissions_data entry = path) /\
   StronglySorted
     (fun p q => Submission.path_length (snd p)
                 <= Submission.path_length (snd q)) after /\
   (forall a b,
       In a (Submission.leaderboard file') ->
       In b (skipn 5 (map snd after)) ->
       Submission.path_length a <= Submission.path_length b)) /\
  (forall other, other <> username ->
                 lookup after other = lookup before other) /\
  NoDup (map fst after) /\
  (forall previous entry,
      lookup before username = Some previous ->
      lookup after username = Some entry ->
      Submission.path_length entry <= Submission.path_length previous).
Proof.
  intros ND before improved file' after.
  unfold after, file', improved, Submission.save_path. cbv zeta.
  clear after file' improved. fold before.
  set (len := Submission.compute_path_length path).
  set (entry := Submission.mkEntry len now (map (fun c => (x c, y c)) path)).
  assert (Hrefused :
    (match lookup before username with
     | Some previous => Qle_bool (Submission.path_length previous) len
     | None => false
     end) = true <->
    exists previous,
      lookup before username = Some previous /\
      Submission.path_length previous <= len).
  { destruct (lookup before username) as [previous|].
    - rewrite Qle_bool_iff. split.
      + intros Hle. now exists previous.
      + intros (p & [= <-] & Hle). exact Hle.
    - split; [discriminate|]. intros (p & Hp & _). discriminate. }
  destruct (match lookup before username with
            | Some previous => Qle_bool (Submission.path_length previous) len
            | None => false
            end) eqn:Enb; cbn [fst snd].
  - (* refused *)
    destruct (proj1 Hrefused eq_refl) as (previous & Lp & Hle).
    fold before. repeat split; try discriminate; auto.
    + intros _. now exists previous.
    + intros p e Hp He. rewrite Hp in He. injection He as <-. lra.
  - (* saved *)
    cbn [Submission.save_submission_dict Submission.load_submission_dict].
    set (updated := update before username entry).
    destruct (sorted_by_key_spec updated) as [Hperm Hsorted].
    assert (NDu : NoDup (map fst updated)) by now apply NoDup_keys_update.
    assert (Hlook : forall k,
               lookup (Submission.sorted_by_key updated) k
               = if eqb k username then Some entry else lookup before k).
    { intros k. rewrite (lookup_perm updated _ k NDu Hperm).
      apply lookup_update. }
    split; [|split; [|split; [|split; [|split]]]].
    + split; [discriminate|]. intros Hex. apply Hrefused in Hex. discriminate.
    + discriminate.
    + intros _. split; [|split].
      * exists entry. rewrite Hlook, eqb_refl. repeat split.
        apply extract_saved_path.
      * eapply StronglySorted_weaken; [|exact Hsorted].
        intros p q. apply key_le_length.
      * intros a b Ha Hb. unfold Submission.leaderboard in Ha.
        cbn [Submission.load_submission_dict] in Ha.
        apply key_le_length.
        apply (StronglySorted_split key_le 5
                 (map snd (Submission.sorted_by_key updated)));
          [|assumption..].
        now apply StronglySorted_map.
    + intros other Hneq. rewrite Hlook.
      apply eqb_neq in Hneq. now rewrite Hneq.
    + eapply Permutation_NoDup; [|exact NDu]. now apply Permutation_map.
    + intros p e Hp He. rewrite Hlook, eqb_refl in He. injection He as <-.
      cbn [Submission.path_length entry].
      rewrite Hp in Enb. apply Qle_bool_false_iff in Enb. lra.
Qed.

Lemma save_path_keeps_best_witness :
  NoDup (map fst (Submission.load_submission_dict Examples.board)) /\
  NoDup (map fst (Submission.load_submission_dict
                    (snd (Submission.save_path (H := BoxWorld.geometry)
                            [Examples.origin; Examples.goal] "dana"%string
                            200 Examples.board)))).
Proof.
  assert (ND : NoDup (map fst (Submission.load_submission_dict
                                 Examples.board))).
  { simpl. constructor; [intros [E|[]]; discriminate|].
    constructor; [intros []|constructor]. }
  split; [exact ND|].
  pose proof (@save_path_keeps_best BoxWorld.geometry
                [Examples.origin; Examples.goal] "dana"%string 200
                Examples.board ND) as (_ & _ & _ & _ & Hkeys & _).
  exact Hkeys.
Defined.

(** ** A radar with nothing inside *)

Lemma sample_in_polygon_no_raise `{Geometry} (polygon_ : Polygon) e :
  forall n (draws : Draws),
    (length draws <= n)%nat ->
    Stage2.sample_in_polygon polygon_ draws <> Raise e.
Proof.
  induction n as [|n IH]; intros d L.
  - rewrite sample_in_polygon_short; [discriminate|].
    destruct d; simpl in *; lia.
  - destruct d as [|u1 [|u2 d]];
      try (rewrite sample_in_polygon_short by (simpl; lia); discriminate).
    rewrite sample_in_polygon_round.
    destruct (contains polygon_ (candidate polygon_ u1 u2)); [discriminate|].
    apply IH. simpl in L. lia.
Qed.

Lemma sample_many_no_raise `{Geometry} (polygon_ : Polygon) e :
  forall n (draws : Draws), Stage2.sample_many polygon_ n draws <> Raise e.
Proof.
  induction n as [|n IH]; intros draws; cbn [Stage2.sample_many];
    [discriminate|].
  destruct (Stage2.sample_in_polygon polygon_ draws) as [[c d1]|e'|] eqn:S1;
    simpl; try discriminate.
  - specialize (IH d1).
    destruct (Stage2.sample_many polygon_ n d1) as [[more d2]|e'|]; simpl;
      congruence.
  - exfalso.
    now apply (sample_in_polygon_no_raise polygon_ e' (length draws) draws).
Qed.

Lemma sample_many_empty `{Geometry} (polygon_ : Polygon) :
  (forall c, contains polygon_ c = false) ->
  forall n (draws : Draws),
    Stage2.sample_many polygon_ (S n) draws = OutOfFuel.
Proof.
  intros Hempty n draws. cbn [Stage2.sample_many].
  now rewrite (sample_in_polygon_empty polygon_ Hempty (length draws) draws).
Qed.

Lemma sample_radars_empty `{Geometry} (radars : list (Coordinate * Q))
  center radius :
  In (center, radius) radars ->
  (forall c, contains (Radar_.circle center radius) c = false) ->
  forall n (draws : Draws),
    Stage2.sample_radars radars (S n) draws = OutOfFuel.
Proof.
  intros Hin Hempty n.
  induction radars as [|[c0 r0] radars IH]; intros draws; [destruct Hin|].
  cbn [Stage2.sample_radars].
  destruct Hin as [[= -> ->]|Hin].
  - now rewrite sample_many_empty.
  - pose proof (sample_many_no_raise (Radar_.circle c0 r0)) as Hno.
    destruct (Stage2.sample_many (Radar_.circle c0 r0) (S n) draws)
      as [[new d1]|e|] eqn:S1; simpl.
    + now rewrite IH.
    + exfalso. now apply (Hno e (S n) draws).
    + reflexivity.
Qed.

(** X18. A radar whose circle contains no point (for shapely, a radar
    of radius 0) makes stages 2 and 3 run forever: as long as there are
    no more radars than [SAMPLES], the rejection sampler is asked for
    at least one point inside that circle and never finds one, so
    [calculate_path] does not return, whatever the random generator
    gives. *)
Theorem empty_radar_never_returns `{Geometry} `{ShortestPath}
  (source target : Coordinate) (enemies : list Enemy)
  (center : Coordinate) (radius : Q) :
  In (Radar center radius) enemies ->
  (forall c, contains (Radar_.circle center radius) c = false) ->
  (length (Stage2.radars_of enemies) <= Stage2.SAMPLES)%nat ->
  forall draws : Draws,
    Stage2.calculate_path source target enemies draws = OutOfFuel /\
    Stage3.calculate_path source target enemies draws = OutOfFuel.
Proof.
  intros Hin Hempty Hfew draws.
  apply In_radars_of in Hin.
  assert (Hr : (0 < length (Stage2.radars_of enemies))%nat).
  { destruct (Stage2.radars_of enemies); [destruct Hin|simpl; lia]. }
  assert (Hper : exists n,
             Nat.div Stage2.SAMPLES (length (Stage2.radars_of enemies)) = S n).
  { destruct (Nat.div Stage2.SAMPLES (length (Stage2.radars_of enemies)))
      as [|n] eqn:E; [|now exists n].
    apply Nat.div_small_iff in E; lia. }
  destruct Hper as [n Hper].
  assert (E0 : Nat.eqb (length (Stage2.radars_of enemies)) 0 = false)
    by (apply Nat.eqb_neq; lia).
  split.
  - unfold Stage2.calculate_path, Stage2.add_nodes_inside_radars.
    rewrite E0, Hper.
    now rewrite (sample_radars_empty _ center radius Hin Hempty).
  - unfold Stage3.calculate_path, Stage3.build_graph,
      Stage3.add_nodes_inside_radars, Stage3.radars_of, Stage3.sample_radars,
      Stage3.SAMPLES.
    change 2000%nat with Stage2.SAMPLES.
    rewrite E0, Hper.
    now rewrite (sample_radars_empty _ center radius Hin Hempty).
Qed.

Lemma empty_radar_never_returns_witness :
  Stage2.calculate_path (H := BoxWorld.geometry) (H0 := reference_solver)
    Examples.origin Examples.goal [Radar (coordinate 5 0) 0] [] = OutOfFuel.
Proof.
  apply (@empty_radar_never_returns BoxWorld.geometry reference_solver
           Examples.origin Examples.goal [Radar (coordinate 5 0) 0]
           (coordinate 5 0) 0).
  - now left.
  - intros c. unfold contains, Radar_.circle, point_buffer. cbn.
    unfold BoxWorld.box_contains, BoxWorld.grow, BoxWorld.point_box. cbn.
    destruct (Qlt_bool (5 - 0) (x c)) eqn:E1; [|reflexivity].
    destruct (Qlt_bool (x c) (5 + 0)) eqn:E2; [|reflexivity].
    apply Qlt_bool_iff in E1, E2. lra.
  - apply Nat.leb_le. vm_compute. reflexivity.
Defined.

(** ** The nodes of the visibility graph *)

(** The points an enemy brings to the graph: the corners of an
    asteroids zone, the 20-gon around an observation post and, from
    stage 2 on, the 30-gon around a radar. *)
Definition corners `{Geometry} (with_radars : bool) (enemy : Enemy)
  : list Coordinate :=
  match enemy with
  | AsteroidsZone boundary => boundary
  | ObservationPost center radius => approximate_boundary center radius 20
  | Radar center radius =>
      if with_radars then approximate_boundary center radius 30 else []
  end.

Lemma fold_left_ext {S T : Type} (f f' : S -> T -> S) (l : list T) :
  (forall s a, f s a = f' s a) ->
  forall s, fold_left f l s = fold_left f' l s.
Proof.
  intros Hext. induction l as [|a l IH]; intros s; simpl; [reflexivity|].
  now rewrite Hext, IH.
Qed.

Lemma add_corners_nodes {A : Type} (f : Enemy -> list Coordinate)
  (enemies : list Enemy) : forall (g : DiGraph Coordinate A) n,
  In n (nodes (fold_left (fun g enemy => add_nodes_from g (f enemy))
                         enemies g)) <->
  In n (nodes g) \/ exists enemy, In enemy enemies /\ In n (f enemy).
Proof.
  induction enemies as [|enemy enemies IH]; intros g n; cbn [fold_left].
  - split; [now left|]. intros [Hn|(e & [] & _)]. exact Hn.
  - rewrite IH, nodes_add_nodes_from. split.
    + intros [[Hn|Hn]|(e & He & Hn)].
      * right. exists enemy. split; [now left|exact Hn].
      * now left.
      * right. exists e. split; [now right|exact Hn].
    + intros [Hn|(e & [<-|He] & Hn)].
      * left. now right.
      * left. now left.
      * right. now exists e.
Qed.

Lemma NoDup_add_corners {A : Type} (f : Enemy -> list Coordinate)
  (enemies : list Enemy) : forall g : DiGraph Coordinate A,
  NoDup (nodes g) ->
  NoDup (nodes (fold_left (fun g enemy => add_nodes_from g (f enemy))
                          enemies g)).
Proof.
  induction enemies as [|enemy enemies IH]; intros g ND; cbn [fold_left].
  - exact ND.
  - apply IH. now apply NoDup_nodes_add_nodes_from.
Qed.

Lemma seed_nodes_spec {A : Type} `{Geometry} (with_radars : bool)
  (source target : Coordinate) (enemies : list Enemy) :
  let seed : DiGraph Coordinate A :=
    fold_left (fun g enemy => add_nodes_from g (corners with_radars enemy))
              enemies (add_node (add_node empty_graph source) target) in
  (forall n, In n (nodes seed) <->
             n = source \/ n = target \/
             exists enemy, In enemy enemies /\
                           In n (corners with_radars enemy)) /\
  NoDup (nodes seed).
Proof.
  intros seed. unfold seed. split.
  - intros n. rewrite add_corners_nodes, !nodes_add_node. simpl.
    intuition.
  - apply NoDup_add_corners, NoDup_nodes_add_node, NoDup_nodes_add_node.
    constructor.
Qed.

Lemma connect_same_nodes {A : Type} (graph : DiGraph Coordinate A)
  (step : DiGraph Coordinate A -> Coordinate * Coordinate
          -> DiGraph Coordinate A) :
  (forall g node1 node2,
      nodes g = nodes graph ->
      In node1 (nodes graph) -> In node2 (nodes graph) ->
      nodes (step g (node1, node2)) = nodes graph) ->
  nodes (fold_left step (combinations (nodes graph)) graph) = nodes graph.
Proof.
  intros Hstep.
  apply fold_left_invariant
    with (P := fun g : DiGraph Coordinate A => nodes g = nodes graph).
  - reflexivity.
  - intros g [node1 node2] Hpair Hg.
    apply In_combinations in Hpair. destruct Hpair as [H1 H2].
    now apply Hstep.
Qed.

(** X19. The nodes of the visibility graph.  Before the sampling, the
    graph of each stage holds exactly the source, the target and the
    points the enemies bring: the corners of the asteroids zones, the
    20-gon around each observation post and, in stages 2 and 3 only,
    the 30-gon around each radar.  No node is listed twice, and the
    loop that connects the pairs adds no node. *)
Theorem visibility_graph_nodes `{Geometry} (source target : Coordinate)
  (enemies : list Enemy) :
  ((forall n,
       In n (nodes (Stage1.build_graph source target enemies)) <->
       n = source \/ n = target \/
       exists enemy, In enemy enemies /\ In n (corners false enemy)) /\
   NoDup (nodes (Stage1.build_graph source target enemies))) /\
  ((forall n,
       In n (nodes (Stage2.seed_graph source target enemies)) <->
       n = source \/ n = target \/
       exists enemy, In enemy enemies /\ In n (corners true enemy)) /\
   NoDup (nodes (Stage2.seed_graph source target enemies)) /\
   nodes (Stage2.connect_pairs enemies
            (Stage2.seed_graph source target enemies))
   = nodes (Stage2.seed_graph source target enemies)) /\
  ((forall n,
       In n (nodes (Stage3.seed_graph source target enemies)) <->
       n = source \/ n = target \/
       exists enemy, In enemy enemies /\ In n (corners true enemy)) /\
   NoDup (nodes (Stage3.seed_graph source target enemies)) /\
   nodes (Stage3.connect_pairs enemies
            (Stage3.seed_graph source target enemies))
   = nodes (Stage3.seed_graph source target enemies)).
Proof.
  split; [|split].
  - assert (E : nodes (Stage1.build_graph source target enemies)
                = nodes (fold_left
                           (fun g enemy =>
                              add_nodes_from g (corners false enemy))
                           enemies
                           (add_node (add_node (empty_graph (A := Q)) source)
                                     target))).
    { unfold Stage1.build_graph, Stage1.connect_pairs. cbv zeta.
      rewrite connect_same_nodes.
      - unfold Stage1.add_enemies_to_graph. f_equal. apply fold_left_ext.
        intros g [boundary|center radius|center radius]; reflexivity.
      - intros g node1 node2 Hg H1 H2. cbv beta iota.
        destruct (Stage1.is_legal_leg node1 node2 enemies); [|exact Hg].
        unfold add_undirected_edge.
        now repeat (apply nodes_add_edge_inside; [|assumption|assumption]). }
    rewrite E. exact (seed_nodes_spec false source target enemies).
  - assert (E : Stage2.seed_graph source target enemies
                = fold_left
                    (fun g enemy => add_nodes_from g (corners true enemy))
                    enemies
                    (add_node (add_node (empty_graph (A := Q)) source)
                              target)).
    { unfold Stage2.seed_graph, Stage2.add_enemies_to_graph. cbv zeta.
      apply fold_left_ext.
      intros g [boundary|center radius|center radius]; reflexivity. }
    destruct (seed_nodes_spec (A := Q) true source target enemies)
      as [Hin ND].
    rewrite <- E in Hin, ND. split; [exact Hin|]. split; [exact ND|].
    unfold Stage2.connect_pairs. apply connect_same_nodes.
    intros g node1 node2 Hg H1 H2. cbv beta iota.
    destruct (Stage2.is_legal_leg node1 node2 enemies); [|exact Hg].
    cbv zeta.
    now repeat (apply nodes_add_edge_inside; [|assumption|assumption]).
  - assert (E : Stage3.seed_graph source target enemies
                = fold_left
                    (fun g enemy => add_nodes_from g (corners true enemy))
                    enemies
                    (add_node (add_node (empty_graph (A := Stage3.Attr))
                                        source) target)).
    { unfold Stage3.seed_graph, Stage3.add_enemies_to_graph. cbv zeta.
      apply fold_left_ext.
      intros g [boundary|center radius|center radius]; reflexivity. }
    destruct (seed_nodes_spec (A := Stage3.Attr) true source target enemies)
      as [Hin ND].
    rewrite <- E in Hin, ND. split; [exact Hin|]. split; [exact ND|].
    unfold Stage3.connect_pairs. apply connect_same_nodes.
    intros g node1 node2 Hg H1 H2. cbv beta iota.
    destruct (negb (Stage3.is_legal_leg node1 node2 enemies)); [exact Hg|].
    cbv zeta.
    now repeat (apply nodes_add_edge_inside; [|assumption|assumption]).
Qed.

(** ** The rounding of the detected length *)

(** X20. [add_detected_edge] never under-counts: for [quanta > 0] the
    budget it charges for a detected edge of length [d] is a whole
    number of quanta, at least [d] and less than [d + quanta], and it
    is [d] itself when [d] is already a whole number of quanta. *)
Theorem detection_rounds_up (quanta d : Q) :
  0 < quanta ->
  (exists n : Z, Stage3.rounded_detection quanta d == inject_Z n * quanta) /\
  d <= Stage3.rounded_detection quanta d /\
  Stage3.rounded_detection quanta d < d + quanta /\
  (forall n : Z, d == inject_Z n * quanta ->
                 Stage3.rounded_detection quanta d == d).
Proof.
  intros Hq. pose proof (@rounded_detection_ceiling quanta d Hq) as Er.
  revert Er. generalize (Stage3.rounded_detection quanta d). intros r Er.
  pose proof (Qle_ceiling (d / quanta)) as Hhi.
  pose proof (Qceiling_lt (d / quanta)) as Hlo.
  rewrite inject_Z_pred in Hlo.
  apply (div_le_iff _ _ Hq) in Hhi.
  apply (Qmult_lt_compat_r _ _ quanta) in Hlo; [|exact Hq].
  rewrite (mult_div_cancel d Hq) in Hlo.
  assert (E : (inject_Z (Qceiling (d / quanta)) - 1) * quanta
              == inject_Z (Qceiling (d / quanta)) * quanta - quanta) by ring.
  split; [exists (Qceiling (d / quanta)); exact Er|].
  split; [lra|]. split; [lra|].
  intros n En.
  assert (Ec : Qceiling (d / quanta) = n).
  { apply ceiling_unique.
    - apply Qlt_shift_div_l; [exact Hq|].
      assert (E' : (inject_Z n - 1) * quanta == inject_Z n * quanta - quanta)
        by ring.
      lra.
    - apply (div_le_iff _ _ Hq). lra. }
  rewrite Ec in Er. lra.
Qed.

Lemma detection_rounds_up_witness :
  (7 # 10) <= Stage3.rounded_detection (1 # 2) (7 # 10) /\
  Stage3.rounded_detection (1 # 2) (7 # 10) < (7 # 10) + (1 # 2).
Proof.
  pose proof (detection_rounds_up (1 # 2) (7 # 10) eq_refl)
    as (_ & Hge & Hlt & _).
  split; [exact Hge|exact Hlt].
Defined.
